(** * Dead-file detector: a shallow embedding of [detect_dead_files.py]

    The development follows the source file top to bottom:

    - [str], [os_path], [pathlib]: the Python string and POSIX path
      functions the detector calls, written out on [string];
    - [filesystem]: a directory tree, with path resolution for
      [os.path.exists], [os.path.getsize] and [open];
    - [PyLib]: the two pattern-matching library calls ([re.findall] and
      [fnmatch.fnmatch]) as an interface, with an executable instance
      further down;
    - [DeadFileDetector]: the detector itself, its state held in a record
      that every method threads through;
    - [CommandLine]: [generate_report] and the [try] block of [main].

    Conventions.  A Python [str] is a [string] of bytes; file names and
    file contents are taken to be ASCII.  A Python [set] of paths is a
    [gset string], the reference dictionary a [gmap string (gset string)].
    Iteration over a set is iteration over [elements]; what is proved
    about the sets and the lists built from them is about membership, so
    it does not depend on that order.  Symbolic links and special files
    are not part of the file-system model. *)

From Stdlib Require Import ZArith Ascii.
From stdpp Require Import gmap strings list sorting pretty.

(** ** Exceptions and results *)

Inductive exn :=
| ValueError (msg : string)
| AttributeError (attr : string).

Inductive result (A : Type) :=
| Ok (a : A)
| Raise (e : exn).
Arguments Ok {A} a.
Arguments Raise {A} e.

#[global] Instance result_ret : MRet result := λ A a, Ok a.
#[global] Instance result_bind : MBind result := λ A B k r,
  match r with
  | Ok a => k a
  | Raise e => Raise e
  end.

(** A [for] loop whose body may raise. *)
Fixpoint for_each {A S} (body : S → A → result S) (l : list A) (s : S) : result S :=
  match l with
  | [] => Ok s
  | x :: l' => s' ← body s x; for_each body l' s'
  end.

(** ** Python [str] *)

Definition sep : ascii := "/"%char.
Definition dot : ascii := "."%char.

Module str.

(** [s.startswith('/')] *)
Definition startswith_sep (s : string) : bool :=
  match s with
  | String c _ => Ascii.eqb c sep
  | EmptyString => false
  end.

(** [s.endswith('/')] *)
Fixpoint endswith_sep (s : string) : bool :=
  match s with
  | EmptyString => false
  | String c EmptyString => Ascii.eqb c sep
  | String _ s' => endswith_sep s'
  end.

(** ['/' in s] *)
Fixpoint has_sep (s : string) : bool :=
  match s with
  | EmptyString => false
  | String c s' => Ascii.eqb c sep || has_sep s'
  end.

(** ['\0' in s] *)
Fixpoint has_nul (s : string) : bool :=
  match s with
  | EmptyString => false
  | String c s' => Ascii.eqb c zero || has_nul s'
  end.

(** [s == '/' * len(s)] *)
Fixpoint all_sep (s : string) : bool :=
  match s with
  | EmptyString => true
  | String c s' => Ascii.eqb c sep && all_sep s'
  end.

(** [s.split('/')] *)
Fixpoint split (s : string) : list string :=
  match s with
  | EmptyString => [EmptyString]
  | String c s' =>
      if Ascii.eqb c sep then EmptyString :: split s'
      else match split s' with
           | h :: t => String c h :: t
           | [] => [String c EmptyString]
           end
  end.

(** ['/'.join(l)] *)
Fixpoint join (l : list string) : string :=
  match l with
  | [] => EmptyString
  | [x] => x
  | x :: l' => x +:+ String sep (join l')
  end.

(** [s.rstrip('/')] *)
Fixpoint rstrip_sep (s : string) : string :=
  match s with
  | EmptyString => EmptyString
  | String c s' =>
      match rstrip_sep s' with
      | EmptyString => if Ascii.eqb c sep then EmptyString else String c EmptyString
      | r => String c r
      end
  end.

(** [sub in s] *)
Fixpoint contains (sub s : string) : bool :=
  String.prefix sub s ||
  match s with
  | EmptyString => false
  | String _ s' => contains sub s'
  end.

(** [s.lower()], on ASCII letters. *)
Definition lower_char (c : ascii) : ascii :=
  let n := nat_of_ascii c in
  if (65 <=? n)%nat && (n <=? 90)%nat then ascii_of_nat (n + 32) else c.

Fixpoint lower (s : string) : string :=
  match s with
  | EmptyString => EmptyString
  | String c s' => String (lower_char c) (lower s')
  end.

(** [s.upper()], on ASCII letters. *)
Definition upper_char (c : ascii) : ascii :=
  let n := nat_of_ascii c in
  if (97 <=? n)%nat && (n <=? 122)%nat then ascii_of_nat (n - 32) else c.

Fixpoint upper (s : string) : string :=
  match s with
  | EmptyString => EmptyString
  | String c s' => String (upper_char c) (upper s')
  end.

(** [s * n] *)
Definition times (s : string) (n : nat) : string := String.concat "" (repeat s n).

(** [s[s.rfind('.'):]] when [s] has a dot. *)
Fixpoint from_last_dot (s : string) : option string :=
  match s with
  | EmptyString => None
  | String c s' =>
      match from_last_dot s' with
      | Some r => Some r
      | None => if Ascii.eqb c dot then Some (String c s') else None
      end
  end.

End str.

(** [l.remove(x)]: drops the first occurrence.  Python raises when there
    is none; the detector only calls it under an [x in l] test. *)
Fixpoint list_remove (x : string) (l : list string) : list string :=
  match l with
  | [] => []
  | y :: l' => if String.eqb x y then l' else y :: list_remove x l'
  end.

(** [x in l] for a list of strings. *)
Definition mem (x : string) (l : list string) : bool :=
  existsb (String.eqb x) l.

(** ** [posixpath] *)

Module os_path.

(** [os.path.join(a, b)] *)
Definition join (a b : string) : string :=
  if str.startswith_sep b then b
  else if String.eqb a "" || str.endswith_sep a then a +:+ b
  else a +:+ String sep b.

(** [p[:p.rfind('/') + 1]] *)
Fixpoint head (p : string) : string :=
  match p with
  | EmptyString => EmptyString
  | String c p' =>
      if str.has_sep p' then String c (head p')
      else if Ascii.eqb c sep then String c EmptyString
      else EmptyString
  end.

(** [os.path.basename(p)]: [p[p.rfind('/') + 1:]] *)
Fixpoint basename (p : string) : string :=
  match p with
  | EmptyString => EmptyString
  | String c p' =>
      if str.has_sep p' then basename p'
      else if Ascii.eqb c sep then p'
      else p
  end.

(** [os.path.dirname(p)] *)
Definition dirname (p : string) : string :=
  let h := head p in
  if negb (String.eqb h "") && negb (str.all_sep h) then str.rstrip_sep h else h.

(** One turn of the component loop of [normpath]. *)
Definition normpath_step (initial_slashes : nat) (new_comps : list string)
    (comp : string) : list string :=
  if String.eqb comp "" || String.eqb comp "." then new_comps
  else if negb (String.eqb comp "..")
          || ((initial_slashes =? 0)%nat && bool_decide (new_comps = []))
          || (negb (bool_decide (new_comps = []))
              && String.eqb (List.last new_comps "") "..")
  then new_comps ++ [comp]
  else removelast new_comps.

Definition initial_slashes (path : string) : nat :=
  if str.startswith_sep path then
    if String.prefix "//" path && negb (String.prefix "///" path) then 2 else 1
  else 0.

(** [os.path.normpath(path)] *)
Definition normpath (path : string) : string :=
  if String.eqb path "" then "."
  else
    let n := initial_slashes path in
    let comps := fold_left (normpath_step n) (str.split path) [] in
    let path' := String.concat "" (repeat "/" n) +:+ str.join comps in
    if String.eqb path' "" then "." else path'.

(** [os.path.abspath(path)], with [os.getcwd()] passed in. *)
Definition abspath (cwd path : string) : string :=
  normpath (if str.startswith_sep path then path else join cwd path).

(** Length of the longest common prefix of two component lists. *)
Fixpoint commonprefix_len (l1 l2 : list string) : nat :=
  match l1, l2 with
  | x :: l1', y :: l2' => if String.eqb x y then S (commonprefix_len l1' l2') else 0
  | _, _ => 0
  end.

Definition nonempty (s : string) : bool := negb (String.eqb s "").

(** [os.path.relpath(path, start)].  The component lists are those of
    the two absolute paths, empty components left out. *)
Definition relpath (cwd path start : string) : result string :=
  if String.eqb path "" then Raise (ValueError "no path specified")
  else
    let start_list := filter (λ x, nonempty x = true) (str.split (abspath cwd start)) in
    let path_list := filter (λ x, nonempty x = true) (str.split (abspath cwd path)) in
    let i := commonprefix_len start_list path_list in
    let rel_list := repeat ".." (length start_list - i) ++ drop i path_list in
    if bool_decide (rel_list = []) then Ok "." else Ok (str.join rel_list).

End os_path.

(** ** [pathlib] *)

Module pathlib.

(** [PurePosixPath(p).name]: the last component that is neither empty
    nor a single dot. *)
Definition name (p : string) : string :=
  List.last (filter (λ c, c ≠ "" ∧ c ≠ ".") (str.split p)) "".

(** [PurePosixPath(p).suffix]: [name[i:]] for [i = name.rfind('.')] when
    [0 < i < len(name) - 1], else the empty string. *)
Definition suffix (p : string) : string :=
  let n := name p in
  match str.from_last_dot n with
  | Some r =>
      if (1 <? String.length r)%nat && (String.length r <? String.length n)%nat
      then r else ""
  | None => ""
  end.

End pathlib.

(** ** The file system

    A directory holds named entries in the order [os.scandir] lists them;
    every directory can be listed.  A regular file has the size
    [os.path.getsize] reports and, when it can be opened, the text
    [f.read()] returns (decoding already applied). *)

#[warnings="-register-all"]
Inductive node :=
| File (size : Z) (content : option string)
| Dir (entries : list (string * node)).

Record filesystem := {
  fs_root : node;      (* the directory [/] *)
  getcwd : string      (* [os.getcwd()] *)
}.

Fixpoint lookup_entry (name : string) (es : list (string * node)) : option node :=
  match es with
  | [] => None
  | (n, x) :: es' => if String.eqb name n then Some x else lookup_entry name es'
  end.

(** Path resolution keeps the directory being looked at on top of the
    stack of its ancestors.  Every component, the empty one and [.]
    included, is resolved in a directory; [..] at the root stays there. *)
Definition resolve_step (stk : option (list node)) (comp : string) : option (list node) :=
  match stk with
  | Some (Dir es :: up) =>
      if String.eqb comp "" || String.eqb comp "." then stk
      else if String.eqb comp ".." then
        match up with [] => stk | _ => Some up end
      else
        match lookup_entry comp es with
        | Some n => Some (n :: Dir es :: up)
        | None => None
        end
  | _ => None
  end.

Definition resolve (fs : filesystem) (path : string) : option node :=
  if String.eqb path "" then None
  else
    let p := if str.startswith_sep path then path else os_path.join (getcwd fs) path in
    match fold_left resolve_step (str.split p) (Some [fs_root fs]) with
    | Some (n :: _) => Some n
    | _ => None
    end.

(** [os.path.exists(path)]: false as well for a path with an embedded
    NUL, which the system call refuses. *)
Definition exists_ (fs : filesystem) (path : string) : bool :=
  negb (str.has_nul path)
  && match resolve fs path with Some _ => true | None => false end.

(** [os.path.getsize(path)]; [None] stands for [OSError].  The detector
    asks for the size of directory entries that are not directories. *)
Definition getsize (fs : filesystem) (path : string) : option Z :=
  match resolve fs path with
  | Some (File size _) => Some size
  | _ => None
  end.

(** [open(path, 'r', encoding='utf-8', errors='ignore').read()];
    [None] stands for any exception raised on the way. *)
Definition read_text (fs : filesystem) (path : string) : option string :=
  match resolve fs path with
  | Some (File _ content) => content
  | _ => None
  end.

(** ** Library calls taken as an interface

    [re.findall(pattern, content, re.MULTILINE)] for a pattern with one
    capturing group returns the captured texts; [fnmatch.fnmatch(name,
    pat)] is shell-style matching of the whole name. *)

Class PyLib := {
  regex : Type;
  re_findall : regex → string → list string;
  fnmatch : string → string → bool
}.

(** ** The detector *)

Section DeadFileDetector.
Context `{PyLib}.

(** [self.config] *)
Record config := {
  ignore_patterns : list string;
  scan_extensions : list string;
  reference_patterns_import : list regex;
  reference_patterns_file_path : list regex;
  special_files : list string;
  min_file_size : Z;
  max_file_size : Z
}.

(** The instance attributes.  [root_dir] does not exist before the first
    call of [scan_repository]. *)
Record state := {
  root_dir : option string;
  file_references : gmap string (gset string);
  all_files : gset string
}.

(** [DeadFileDetector.__init__] *)
Definition init : state :=
  {| root_dir := None; file_references := ∅; all_files := ∅ |}.

Variable cfg : config.

(** [_should_ignore_file] *)
Definition _should_ignore_file (file_path : string) : bool :=
  existsb (λ pattern, fnmatch file_path pattern || str.contains pattern file_path)
          (ignore_patterns cfg).

(** [_is_scannable_file] *)
Definition _is_scannable_file (file_path : string) : bool :=
  let ext := str.lower (pathlib.suffix file_path) in
  mem ext (scan_extensions cfg).

(** [_extract_references].  The result is a Python set; it is listed here
    in the order the matches are found, repetitions included. *)
Definition _extract_references (file_path content : string) : list string :=
  flat_map (λ pattern, re_findall pattern content) (reference_patterns_import cfg)
  ++ flat_map (λ pattern, re_findall pattern content) (reference_patterns_file_path cfg).

Variable fs : filesystem.

(** The extensions [_resolve_reference] probes. *)
Definition probe_extensions : list string := [".py"; ".js"; ".ts"; ".java"; ".cpp"].

(** One turn of the extension loop of [_resolve_reference]. *)
Definition probe (root base_dir reference : string) (resolved : list string)
    (ext : string) : list string :=
  let test_path := reference +:+ ext in
  let rel_test := os_path.join base_dir test_path in
  let root_test := os_path.join root test_path in
  if exists_ fs rel_test then resolved ++ [os_path.normpath rel_test]
  else if exists_ fs root_test then resolved ++ [os_path.normpath root_test]
  else resolved.

(** [_resolve_reference], with [self.root_dir] passed in. *)
Definition _resolve_reference (root reference base_path : string) : list string :=
  let resolved := [] in
  let base_dir := os_path.dirname base_path in
  let rel_path := os_path.join base_dir reference in
  let resolved :=
    if exists_ fs rel_path then resolved ++ [os_path.normpath rel_path] else resolved in
  let root_path := os_path.join root reference in
  let resolved :=
    if exists_ fs root_path then resolved ++ [os_path.normpath root_path] else resolved in
  if String.eqb (pathlib.suffix reference) "" then
    fold_left (probe root base_dir reference) probe_extensions resolved
  else resolved.

(** [if resolved in self.all_files: self.file_references[resolved].add(file_path)] *)
Definition add_reference (file_path : string) (st : state) (resolved : string) : state :=
  if bool_decide (resolved ∈ all_files st) then
    {| root_dir := root_dir st;
       file_references :=
         <[resolved := default ∅ (file_references st !! resolved) ∪ {[file_path]}]>
           (file_references st);
       all_files := all_files st |}
  else st.

(** [self.all_files.add(file_path)] *)
Definition track (file_path : string) (st : state) : state :=
  {| root_dir := root_dir st;
     file_references := file_references st;
     all_files := all_files st ∪ {[file_path]} |}.

(** [for ref in references: for resolved in self._resolve_reference(ref, file_path): ...] *)
Definition scan_references (root file_path : string) (references : list string)
    (st : state) : state :=
  fold_left
    (λ st ref,
       fold_left (add_reference file_path) (_resolve_reference root ref file_path) st)
    references st.

(** The body of [for file in files] in [scan_repository]. *)
Definition scan_file (root top : string) (st : state) (file : string) : state :=
  let file_path := os_path.join top file in
  match os_path.relpath (getcwd fs) file_path root with
  | Raise _ => st   (* not reached: [file_path] is never empty, see [relpath_join_ok] *)
  | Ok rel_path =>
      if _should_ignore_file rel_path then st
      else
        match getsize fs file_path with
        | None => st
        | Some size =>
            if (size <? min_file_size cfg)%Z || (size >? max_file_size cfg)%Z then st
            else
              let st := track file_path st in
              if _is_scannable_file rel_path then
                match read_text fs file_path with
                | None => st
                | Some content =>
                    let references := _extract_references file_path content in
                    scan_references root file_path references st
                end
              else st
        end
  end.

(** The names [os.walk] hands over as [files] for one directory. *)
Definition file_names (es : list (string * node)) : list string :=
  flat_map (λ e, match e.2 with File _ _ => [e.1] | Dir _ => [] end) es.

(** The descent of [os.walk] into the subdirectories left in [dirs] by
    [dirs[:] = [d for d in dirs if not self._should_ignore_file(os.path.join(root, d))]]. *)
Definition walk_dirs (walk_into : node → string → state → state) (top : string)
    : list (string * node) → state → state :=
  fix go es st :=
    match es with
    | [] => st
    | (d, child) :: es' =>
        match child with
        | Dir _ =>
            if _should_ignore_file (os_path.join top d) then go es' st
            else go es' (walk_into child (os_path.join top d) st)
        | File _ _ => go es' st
        end
    end.

(** [os.walk(top)], top-down, with the loop body of [scan_repository]
    run at every directory: the files of [top] are processed first, then
    the subdirectories that were kept are walked in turn. *)
Fixpoint walk (root : string) (n : node) (top : string) (st : state) : state :=
  match n with
  | File _ _ => st
  | Dir es =>
      let st := fold_left (scan_file root top) (file_names es) st in
      walk_dirs (walk root) top es st
  end.

(** [scan_repository] *)
Definition scan_repository (root_path : string) (st : state) : state :=
  let root := os_path.abspath (getcwd fs) root_path in
  let st := {| root_dir := Some root;
               file_references := file_references st;
               all_files := all_files st |} in
  match resolve fs root with
  | Some n => walk root n root st
  | None => st
  end.

(** [_is_potentially_important].  Each entry-point pattern is a literal
    text followed by an escaped dot, so [re.match] is a prefix test. *)
Definition entry_point_patterns : list string :=
  ["main."; "index."; "app."; "server."; "start."; "run.";
   "__init__."; "setup."; "config."; "settings."].

Definition _is_potentially_important (file_path : string) : bool :=
  let filename := str.lower (os_path.basename file_path) in
  existsb (λ pattern, String.prefix pattern filename) entry_point_patterns.

Record dead_files := {
  unreferenced : list string;
  orphaned : list string;
  suspicious : list string
}.

(** First loop of [find_dead_files]. *)
Definition classify (root : string) (refs : gmap string (gset string))
    (d : dead_files) (file_path : string) : result dead_files :=
  rel_path ← os_path.relpath (getcwd fs) file_path root;
  if mem (os_path.basename file_path) (special_files cfg) then Ok d
  else if bool_decide (file_path ∉ dom refs) then
    if _is_potentially_important file_path then
      Ok {| unreferenced := unreferenced d;
            orphaned := orphaned d;
            suspicious := suspicious d ++ [rel_path] |}
    else
      Ok {| unreferenced := unreferenced d ++ [rel_path];
            orphaned := orphaned d;
            suspicious := suspicious d |}
  else Ok d.

(** Second loop: the number of tracked files per directory. *)
Definition count_dir (dir_file_count : gmap string nat) (file_path : string)
    : gmap string nat :=
  let dir_path := os_path.dirname file_path in
  <[dir_path := S (default 0 (dir_file_count !! dir_path))]> dir_file_count.

(** Third loop: orphan reclassification. *)
Definition reclassify (root : string) (dir_file_count : gmap string nat)
    (d : dead_files) (file_path : string) : result dead_files :=
  let dir_path := os_path.dirname file_path in
  rel_path ← os_path.relpath (getcwd fs) file_path root;
  if (default 0 (dir_file_count !! dir_path) =? 1)
     && mem rel_path (unreferenced d)
     && negb (_is_potentially_important file_path)
  then
    Ok {| unreferenced := list_remove rel_path (unreferenced d);
          orphaned := orphaned d ++ [rel_path];
          suspicious := suspicious d |}
  else Ok d.

(** [find_dead_files] *)
Definition find_dead_files (st : state) : result dead_files :=
  if bool_decide (all_files st = ∅) then
    Raise (ValueError "Repository not scanned yet. Call scan_repository() first.")
  else
    let files := elements (all_files st) in
    root ← match root_dir st with
           | Some r => Ok r
           | None => Raise (AttributeError "root_dir")
           end;
    d ← for_each (classify root (file_references st)) files
          {| unreferenced := []; orphaned := []; suspicious := [] |};
    let dir_file_count := fold_left count_dir files ∅ in
    for_each (reclassify root dir_file_count) files d.

End DeadFileDetector.

(** ** The report and the command line *)

Section CommandLine.
Context `{PyLib}.

(** [json.dumps(dead_files, indent=2)], taken as given. *)
Variable json_dumps : dead_files → string.

Variable cfg : config.
Variable fs : filesystem.

(** [dead_files.items()], in insertion order. *)
Definition items (d : dead_files) : list (string * list string) :=
  [("unreferenced", unreferenced d);
   ("orphaned", orphaned d);
   ("suspicious", suspicious d)].

(** [sum(len(files) for files in dead_files.values())] *)
Definition total_dead (d : dead_files) : nat :=
  foldr Nat.add 0 ((λ kv, length kv.2) <$> items d).

(** [sorted(files)]: strings compare byte by byte, a proper prefix first. *)
Definition sorted (files : list string) : list string := merge_sort String.le files.

(** The line of one path.  The bullet is spelled with the bytes the
    source file has for it. *)
Definition bullet_line (file_path : string) : string := "  â€¢ " +:+ file_path.

(** What one turn of [for category, files in dead_files.items()] appends
    to the text report. *)
Definition report_category (category : string) (files : list string) : list string :=
  if bool_decide (files = []) then []
  else
    [str.upper category +:+ " FILES (" +:+ pretty (length files) +:+ "):";
     str.times "-" 40]
    ++ (bullet_line <$> sorted files)
    ++ [""].

(** The list [report] of [generate_report] when it is joined. *)
Definition report_lines (st : state) (root : string) (d : dead_files) : list string :=
  [str.times "=" 60;
   "DEAD FILE DETECTION REPORT";
   str.times "=" 60;
   "Repository: " +:+ root;
   "Total files scanned: " +:+ pretty (size (all_files st));
   "Files with references: " +:+ pretty (size (file_references st));
   "";
   "Total potentially dead files: " +:+ pretty (total_dead d);
   ""]
  ++ flat_map (λ kv, report_category kv.1 kv.2) (items d)
  ++ (if total_dead d =? 0 then
        ["ðŸŽ‰ No dead files detected! Repository looks clean."]
      else
        ["RECOMMENDATIONS:";
         str.times "-" 15;
         "â€¢ Review unreferenced files - they may be safe to remove";
         "â€¢ Check orphaned files - they might be leftover from refactoring";
         "â€¢ Investigate suspicious files - they may need explicit references"]).

(** [generate_report] *)
Definition generate_report (st : state) (d : dead_files) (output_format : string)
    : result string :=
  if String.eqb output_format "json" then Ok (json_dumps d)
  else
    root ← match root_dir st with
           | Some r => Ok r
           | None => Raise (AttributeError "root_dir")
           end;
    Ok (String.concat (String (ascii_of_nat 10) "") (report_lines st root d)).

(** The moment a [KeyboardInterrupt] is raised inside the [try] block of
    [main]: while the detector is at work, before anything is printed,
    or after [print(report)] has returned, before [sys.exit] is
    called. *)
Inductive interrupt := AtWork | AfterPrint.

(** The [try] block of [main] with its two handlers, for the
    configuration [cfg] that [DeadFileDetector(config_path=args.config)]
    loaded: what [print] writes, and the exit status.  [signal] tells
    whether the run is interrupted, and when.  [except KeyboardInterrupt]
    turns an interrupt into status 130; [except Exception] turns whatever
    the three calls raise into status 1, and a run that ends this way has
    no moment after the report at which it could be interrupted. *)
Definition main (path output_format : string) (signal : option interrupt)
    : option string * Z :=
  match signal with
  | Some AtWork => (None, 130%Z)
  | _ =>
      let detector := scan_repository cfg fs path init in
      match find_dead_files cfg fs detector with
      | Raise _ => (None, 1%Z)
      | Ok d =>
          match generate_report detector d output_format with
          | Raise _ => (None, 1%Z)
          | Ok report =>
              match signal with
              | Some _ => (Some report, 130%Z)
              | None => (Some report, if total_dead d =? 0 then 0%Z else 1%Z)
              end
          end
      end
  end.

End CommandLine.

(** ** An executable instance of the library interface

    A backtracking matcher for the regular-expression constructs the
    default configuration uses, and shell-style matching for patterns
    made of literal characters, [*] and [?] (no default ignore pattern
    has a bracket expression; a bracket is read as a literal here). *)

Module py_re.

Inductive pattern :=
| Lit (text : string)             (* literal text *)
| OneOf (chars : string)          (* [chars] *)
| NoneOf (chars : string)         (* [^chars] *)
| Alnum                           (* [a-zA-Z0-9] *)
| Space                           (* \s *)
| AnyChar                         (* . *)
| Cat (a b : pattern)
| Star (a : pattern)              (* a*, greedy *)
| Plus (a : pattern)              (* a+, greedy *)
| Opt (a : pattern)               (* a?, greedy *)
| Group (a : pattern).            (* (a), capturing *)

Definition in_chars (c : ascii) (chars : string) : bool :=
  existsb (Ascii.eqb c) (String.list_ascii_of_string chars).

Definition is_alnum (c : ascii) : bool :=
  let n := nat_of_ascii c in
  ((48 <=? n) && (n <=? 57)) || ((65 <=? n) && (n <=? 90)) || ((97 <=? n) && (n <=? 122)).

Definition is_space (c : ascii) : bool :=
  let n := nat_of_ascii c in
  ((9 <=? n) && (n <=? 13)) || ((28 <=? n) && (n <=? 32)).

Fixpoint strip_prefix (p s : string) : option string :=
  match p, s with
  | EmptyString, _ => Some s
  | String a p', String b s' => if Ascii.eqb a b then strip_prefix p' s' else None
  | String _ _, EmptyString => None
  end.

(** What a match leaves: the rest of the input and group 1. *)
Definition outcome : Type := string * option string.
Definition cont : Type := string → option string → option outcome.

Definition one_char (ok : ascii → bool) (s : string) (cap : option string)
    (k : cont) : option outcome :=
  match s with
  | String c s' => if ok c then k s' cap else None
  | EmptyString => None
  end.

(** Greedy repetition: one more turn of [body] first, the continuation
    when that fails.  A turn that consumes nothing ends the loop. *)
Fixpoint star_loop (body : string → option string → cont → option outcome)
    (fuel : nat) (s : string) (cap : option string) (k : cont) : option outcome :=
  match fuel with
  | 0 => k s cap
  | S fuel' =>
      match body s cap (λ s' cap',
              if String.length s' <? String.length s
              then star_loop body fuel' s' cap' k else None) with
      | Some r => Some r
      | None => k s cap
      end
  end.

Fixpoint run (p : pattern) (s : string) (cap : option string) (k : cont)
    : option outcome :=
  match p with
  | Lit text =>
      match strip_prefix text s with
      | Some s' => k s' cap
      | None => None
      end
  | OneOf chars => one_char (λ c, in_chars c chars) s cap k
  | NoneOf chars => one_char (λ c, negb (in_chars c chars)) s cap k
  | Alnum => one_char is_alnum s cap k
  | Space => one_char is_space s cap k
  | AnyChar => one_char (λ c, negb (Ascii.eqb c (ascii_of_nat 10))) s cap k
  | Cat a b => run a s cap (λ s' cap', run b s' cap' k)
  | Star a => star_loop (run a) (String.length s) s cap k
  | Plus a =>
      run a s cap (λ s' cap', star_loop (run a) (String.length s') s' cap' k)
  | Opt a =>
      match run a s cap k with
      | Some r => Some r
      | None => k s cap
      end
  | Group a =>
      run a s cap (λ s' _,
        k s' (Some (String.substring 0 (String.length s - String.length s') s)))
  end.

(** [re.findall]: leftmost matches, scanned left to right without
    overlap; each contributes the text of group 1. *)
Fixpoint findall_loop (p : pattern) (fuel : nat) (s : string) : list string :=
  match fuel with
  | 0 => []
  | S fuel' =>
      let next := match s with String _ s' => findall_loop p fuel' s' | EmptyString => [] end in
      match run p s None (λ s' cap, Some (s', cap)) with
      | Some (s', cap) =>
          default "" cap ::
            (if String.length s' <? String.length s then findall_loop p fuel' s' else next)
      | None => next
      end
  end.

Definition findall (p : pattern) (s : string) : list string :=
  findall_loop p (S (String.length s)) s.

(** [fnmatch.fnmatch(name, pat)] *)
Fixpoint glob (pat : string) : string → bool :=
  match pat with
  | EmptyString => λ name, String.eqb name ""
  | String c pat' =>
      if Ascii.eqb c "*" then
        fix star (name : string) : bool :=
          glob pat' name
          || match name with String _ name' => star name' | EmptyString => false end
      else if Ascii.eqb c "?" then
        λ name, match name with String _ name' => glob pat' name' | EmptyString => false end
      else
        λ name, match name with
                | String d name' => Ascii.eqb c d && glob pat' name'
                | EmptyString => false
                end
  end.

Definition fnmatch (name pat : string) : bool := glob pat name.

End py_re.

#[global] Instance py_lib : PyLib := {|
  regex := py_re.pattern;
  re_findall := py_re.findall;
  fnmatch := py_re.fnmatch
|}.

(** ** The default configuration of [_load_config] *)

Definition quotes : string := String "'" (String (ascii_of_nat 34) "").

Definition cat_all (ps : list py_re.pattern) : py_re.pattern :=
  foldr py_re.Cat (py_re.Lit "") ps.

(** [Q]([^Q]+)[Q], where Q stands for the two quote characters of the
    source classes (the single and the double quote). *)
Definition quoted : py_re.pattern :=
  let q := py_re.OneOf quotes in
  cat_all [q; py_re.Group (py_re.Plus (py_re.NoneOf quotes)); q].

Import py_re.

Definition default_config : config := {|
  ignore_patterns :=
    [".git/*"; "*.log"; "*.tmp"; "node_modules/*"; "__pycache__/*"; "*.pyc";
     ".pytest_cache/*"; "venv/*"; "env/*"; ".env"; "dist/*"; "build/*";
     "target/*"; ".DS_Store"; "*.swp"; "*.bak"; "coverage/*"; ".coverage";
     ".tox/*"];
  scan_extensions :=
    [".py"; ".js"; ".ts"; ".jsx"; ".tsx"; ".java"; ".c"; ".cpp";
     ".h"; ".hpp"; ".cs"; ".php"; ".rb"; ".go"; ".rs"; ".swift";
     ".kt"; ".scala"; ".sh"; ".bash"; ".ps1"; ".sql"; ".html";
     ".css"; ".scss"; ".sass"; ".less"; ".vue"; ".yaml"; ".yml";
     ".json"; ".xml"; ".md"; ".txt"; ".cfg"; ".conf"; ".ini"];
  reference_patterns_import :=
    [ (* import\s+(?:.*\s+from\s+)?[Q]([^Q]+)[Q] *)
      cat_all [Lit "import"; Plus Space;
           Opt (cat_all [Star AnyChar; Plus Space; Lit "from"; Plus Space]);
           quoted];
      (* from\s+[Q]([^Q]+)[Q]\s+import *)
      cat_all [Lit "from"; Plus Space; quoted; Plus Space; Lit "import"];
      (* require\s*\(\s*[Q]([^Q]+)[Q]\s*\) *)
      cat_all [Lit "require"; Star Space; Lit "("; Star Space; quoted;
           Star Space; Lit ")"];
      (* #include\s*[<D]([^>D]+)[>D], D the double quote *)
      cat_all [Lit "#include"; Star Space;
           OneOf (String "<" (String (ascii_of_nat 34) ""));
           Group (Plus (NoneOf (String ">" (String (ascii_of_nat 34) ""))));
           OneOf (String ">" (String (ascii_of_nat 34) ""))];
      (* @import\s+[Q]([^Q]+)[Q] *)
      cat_all [Lit "@import"; Plus Space; quoted] ];
  reference_patterns_file_path :=
    [ (* [Q]([^Q]*\.[a-zA-Z0-9]+)[Q] *)
      cat_all [OneOf quotes;
           Group (cat_all [Star (NoneOf quotes); Lit "."; Plus Alnum]);
           OneOf quotes];
      (* src=[Q]([^Q]+)[Q] *)
      cat_all [Lit "src="; quoted];
      (* href=[Q]([^Q]+)[Q] *)
      cat_all [Lit "href="; quoted] ];
  special_files :=
    ["README.md"; "LICENSE"; "CHANGELOG.md"; "CONTRIBUTING.md";
     "requirements.txt"; "package.json"; "Dockerfile"; "Makefile";
     ".gitignore"; ".dockerignore"; "setup.py"; "pyproject.toml";
     "Cargo.toml"; "pom.xml"; "build.gradle"; "composer.json"];
  min_file_size := 1;
  max_file_size := 10485760
|}.

(** * Specification vocabulary *)

(** ** Well-formed trees and canonical paths *)

(** A directory entry name: not empty, not [.] or [..], no separator. *)
Definition valid_name (s : string) : bool :=
  negb (String.eqb s "") && negb (String.eqb s ".") && negb (String.eqb s "..")
  && negb (str.has_sep s).

Definition names_valid (names : list string) : Prop :=
  Forall (λ c, valid_name c = true) names.

(** Every entry name below [n] passes [v]. *)
Fixpoint names_ok (v : string → bool) (n : node) : bool :=
  match n with
  | File _ _ => true
  | Dir es => forallb (λ e, v e.1 && names_ok v e.2) es
  end.

Definition wf_node (n : node) : bool := names_ok valid_name n.

(** No directory lists a name twice. *)
Fixpoint unique_names (n : node) : bool :=
  match n with
  | File _ _ => true
  | Dir es => bool_decide (NoDup es.*1) && forallb (λ e, unique_names e.2) es
  end.

(** The node that the names [cs] lead to from [n], each one looked up in
    the directory reached so far. *)
Fixpoint descend (n : node) (cs : list string) : option node :=
  match cs with
  | [] => Some n
  | c :: cs' =>
      match n with
      | Dir es =>
          match lookup_entry c es with
          | Some child => descend child cs'
          | None => None
          end
      | File _ _ => None
      end
  end.

(** The absolute path with the given components. *)
Definition path_of (names : list string) : string := String sep (str.join names).

(** [os.path.join] iterated along a list of names, as [os.walk] does on
    its way down. *)
Definition join_all (top : string) (names : list string) : string :=
  fold_left os_path.join names top.

(** An absolute path in normal form that starts with a single slash. *)
Definition is_canonical (root : string) : bool :=
  match root with
  | String c rest =>
      Ascii.eqb c sep && (String.eqb rest "" || forallb valid_name (str.split rest))
  | EmptyString => false
  end.

Section node_induction.
Variable P : node → Prop.
Hypothesis P_file : ∀ size content, P (File size content).
Hypothesis P_dir : ∀ es, Forall (λ e, P e.2) es → P (Dir es).

Fixpoint node_induction (n : node) : P n :=
  match n with
  | File size content => P_file size content
  | Dir es =>
      P_dir es
        ((fix go (es : list (string * node)) : Forall (λ e, P e.2) es :=
            match es with
            | [] => @List.Forall_nil _ (λ e, P e.2)
            | e :: es' => @List.Forall_cons _ (λ e, P e.2) e es' (node_induction e.2) (go es')
            end) es)
  end.
End node_induction.

(** ** States and classifications *)

Section Vocabulary.
Context `{PyLib} (cfg : config) (fs : filesystem).

(** The states a detector can be in: fresh, or after any number of
    scans (of possibly different trees). *)
Inductive reachable : state → Prop :=
| reachable_init : reachable init
| reachable_scan fs' root_path st :
    reachable st → reachable (scan_repository cfg fs' root_path st).

(** The root-relative path [find_dead_files] reports for [f]. *)
Definition rel_str (root f : string) : string :=
  match os_path.relpath (getcwd fs) f root with
  | Ok r => r
  | Raise _ => ""
  end.

(** The tracked paths are non-empty and told apart by their
    root-relative form. *)
Definition well_tracked (st : state) : Prop :=
  ∃ root, root_dir st = Some root
    ∧ ("" ∉ all_files st)
    ∧ NoDup (rel_str root <$> elements (all_files st)).

Definition is_special (f : string) : Prop :=
  mem (os_path.basename f) (special_files cfg) = true.
(** [file_path in self.file_references]; in a reachable state the entry
    holds at least one referrer ([reachable_edges_nonempty]). *)
Definition is_referenced (st : state) (f : string) : Prop :=
  f ∈ dom (file_references st).
Definition is_important (f : string) : Prop :=
  _is_potentially_important f = true.

(** The number of tracked files directly inside [dir]. *)
Definition dir_count (st : state) (dir : string) : nat :=
  length (filter (λ g, os_path.dirname g = dir) (elements (all_files st))).

#[global] Instance is_special_dec f : Decision (is_special f).
Proof. unfold is_special. apply _. Defined.
#[global] Instance is_referenced_dec st f : Decision (is_referenced st f).
Proof. unfold is_referenced. apply _. Defined.
#[global] Instance is_important_dec f : Decision (is_important f).
Proof. unfold is_important. apply _. Defined.

(** Dead candidates, without and with an entry-point name. *)
Definition plain_dead (refs : gmap string (gset string)) (f : string) : Prop :=
  ¬ is_special f ∧ (f ∉ dom refs) ∧ ¬ is_important f.
Definition important_dead (refs : gmap string (gset string)) (f : string) : Prop :=
  ¬ is_special f ∧ (f ∉ dom refs) ∧ is_important f.

#[global] Instance plain_dead_dec refs f : Decision (plain_dead refs f).
Proof. unfold plain_dead. apply _. Defined.
#[global] Instance important_dead_dec refs f : Decision (important_dead refs f).
Proof. unfold important_dead. apply _. Defined.

(** Some file of [l] takes the relative path [x] to [orphaned]. *)
Definition moves (root : string) (cnt : gmap string nat) (l : list string)
    (x : string) : Prop :=
  ∃ f, f ∈ l ∧ rel_str root f = x
       ∧ default 0 (cnt !! os_path.dirname f) = 1 ∧ ¬ is_important f.

(** The test of the third loop of [find_dead_files]. *)
Definition movable (root : string) (cnt : gmap string nat) (d : dead_files)
    (f : string) : bool :=
  (default 0 (cnt !! os_path.dirname f) =? 1)
  && mem (rel_str root f) (unreferenced d)
  && negb (_is_potentially_important f).

(** The five classes of the tracked universe. *)
Inductive category := Special | Live | Unreferenced | Orphaned | Suspicious.

Definition in_category (st : state) (d : dead_files) (root f : string)
    (c : category) : Prop :=
  match c with
  | Special => is_special f
  | Live => ¬ is_special f ∧ is_referenced st f
  | Unreferenced => rel_str root f ∈ unreferenced d
  | Orphaned => rel_str root f ∈ orphaned d
  | Suspicious => rel_str root f ∈ suspicious d
  end.

(** What the three lists of a classification hold. *)
Record classified (st : state) (root : string) (d : dead_files) : Prop := {
  cl_unreferenced x :
    x ∈ unreferenced d ↔
    ∃ f, f ∈ all_files st ∧ rel_str root f = x
         ∧ plain_dead (file_references st) f ∧ dir_count st (os_path.dirname f) ≠ 1;
  cl_orphaned x :
    x ∈ orphaned d ↔
    ∃ f, f ∈ all_files st ∧ rel_str root f = x
         ∧ plain_dead (file_references st) f ∧ dir_count st (os_path.dirname f) = 1;
  cl_suspicious x :
    x ∈ suspicious d ↔
    ∃ f, f ∈ all_files st ∧ rel_str root f = x ∧ important_dead (file_references st) f;
  cl_NoDup : NoDup (unreferenced d ++ orphaned d ++ suspicious d)
}.

(** ** What a scan leaves behind *)

(** No directory on the way from [root] down [ds] is ignored. *)
Definition dirs_kept (root : string) (ds : list string) : Prop :=
  ∀ k, 0 < k ≤ length ds → _should_ignore_file cfg (join_all root (take k ds)) = false.

(** [top] is a directory the walk from [root] gets to. *)
Definition walked (root top : string) : Prop :=
  ∃ ds, names_valid ds ∧ dirs_kept root ds ∧ top = join_all root ds.

(** [f] passed the filters of the walk from [root]. *)
Definition tracked_by (root f : string) : Prop :=
  ∃ ds file rel_path size,
    names_valid ds ∧ valid_name file = true ∧ dirs_kept root ds
    ∧ f = os_path.join (join_all root ds) file
    ∧ os_path.relpath (getcwd fs) f root = Ok rel_path
    ∧ _should_ignore_file cfg rel_path = false
    ∧ getsize fs f = Some size
    ∧ (min_file_size cfg ≤ size ≤ max_file_size cfg)%Z.

(** Keys and referrers of the graph are tracked files. *)
Definition graph_closed (st : state) : Prop :=
  ∀ k s, file_references st !! k = Some s → k ∈ all_files st ∧ s ⊆ all_files st.

(** Every key of the graph has a referrer: having an entry and having
    an inbound edge are the same thing. *)
Definition edges_nonempty (st : state) : Prop :=
  ∀ k s, file_references st !! k = Some s → s ≠ ∅.

(** [st'] has every tracked file and every edge of [st]. *)
Definition grows (st st' : state) : Prop :=
  root_dir st' = root_dir st
  ∧ all_files st ⊆ all_files st'
  ∧ ∀ k, default ∅ (file_references st !! k) ⊆ default ∅ (file_references st' !! k).

(** A scannable tracked file whose text names itself is its own referrer. *)
Definition self_referenced (root : string) (st : state) : Prop :=
  ∀ f rel_path content ref,
    f ∈ all_files st →
    os_path.relpath (getcwd fs) f root = Ok rel_path →
    _is_scannable_file cfg rel_path = true →
    read_text fs f = Some content →
    ref ∈ _extract_references cfg f content →
    f ∈ _resolve_reference fs root ref f →
    f ∈ default ∅ (file_references st !! f).

End Vocabulary.

(** ** The order of a scan *)

Section WalkOrder.
Context `{PyLib} (cfg : config) (fs : filesystem).

(** The tests of the loop body that a file passes before it is tracked. *)
Definition passes (root file_path : string) : bool :=
  match os_path.relpath (getcwd fs) file_path root with
  | Raise _ => false
  | Ok rel_path =>
      negb (_should_ignore_file cfg rel_path)
      && match getsize fs file_path with
         | None => false
         | Some size =>
             negb ((size <? min_file_size cfg)%Z || (size >? max_file_size cfg)%Z)
         end
  end.

(** The candidates that the references of [file_path] resolve to, one
    reference after the other; none when the file is not scannable or
    cannot be read. *)
Definition outgoing (root file_path : string) : list string :=
  match os_path.relpath (getcwd fs) file_path root with
  | Raise _ => []
  | Ok rel_path =>
      if _is_scannable_file cfg rel_path then
        match read_text fs file_path with
        | None => []
        | Some content =>
            flat_map (λ ref, _resolve_reference fs root ref file_path)
                     (_extract_references cfg file_path content)
        end
      else []
  end.

(** What the loop body does with a file that passed: track it, then
    record it as a referrer of each candidate that is tracked by then. *)
Definition process (root : string) (st : state) (file_path : string) : state :=
  fold_left (add_reference file_path) (outgoing root file_path) (track file_path st).

(** The files that pass, in the order the walk comes to them. *)
Definition walk_order_dirs (order_of : node → string → list string) (top : string)
    : list (string * node) → list string :=
  fix go es :=
    match es with
    | [] => []
    | (d, child) :: es' =>
        match child with
        | Dir _ =>
            if _should_ignore_file cfg (os_path.join top d) then go es'
            else order_of child (os_path.join top d) ++ go es'
        | File _ _ => go es'
        end
    end.

Fixpoint walk_order (root : string) (n : node) (top : string) : list string :=
  match n with
  | File _ _ => []
  | Dir es =>
      filter (λ file_path, passes root file_path = true)
             (os_path.join top <$> file_names es)
      ++ walk_order_dirs (walk_order root) top es
  end.

Definition scan_order (root_path : string) : list string :=
  let root := os_path.abspath (getcwd fs) root_path in
  match resolve fs root with
  | Some n => walk_order root n root
  | None => []
  end.

(** The graph has [referrer] in the entry of [target]. *)
Definition edge (st : state) (target referrer : string) : Prop :=
  ∃ s, file_references st !! target = Some s ∧ referrer ∈ s.

(** A tracked file that is neither special nor referenced. *)
Definition dead_candidate (st : state) (f : string) : Prop :=
  ¬ is_special cfg f ∧ ¬ is_referenced st f.

#[global] Instance dead_candidate_dec st f : Decision (dead_candidate st f).
Proof. unfold dead_candidate. apply _. Defined.

End WalkOrder.

(** ** The resolution order, as the specification words it *)

Section ResolutionOrder.
Variable fs : filesystem.

(** A candidate is accepted when the path exists. *)
Definition accept (path : string) : list string :=
  if exists_ fs path then [os_path.normpath path] else [].

(** Step 3 for one extension: the first existing candidate relative to
    the referrer's directory, else relative to the root. *)
Definition probe_candidate (root base_dir reference ext : string) : list string :=
  match accept (os_path.join base_dir (reference +:+ ext)) with
  | [] => accept (os_path.join root (reference +:+ ext))
  | found => found
  end.

(** Steps 1 and 2, then step 3 for every extension of the probe list
    when the reference has none; every accepted candidate is kept. *)
Definition resolution_order (root reference base_path : string) : list string :=
  let base_dir := os_path.dirname base_path in
  accept (os_path.join base_dir reference)
  ++ accept (os_path.join root reference)
  ++ (if String.eqb (pathlib.suffix reference) "" then
        flat_map (probe_candidate root base_dir reference) probe_extensions
      else []).

End ResolutionOrder.

(** ** Sample trees *)

(** A referrer walked before the file it refers to: [src/main.py] names
    [./helpers/parse], and [src/helpers/parse.py] exists. *)
Definition forward_tree : filesystem := {|
  fs_root :=
    Dir [("repo",
      Dir [("src",
        Dir [("main.py", File 34 (Some "parse = require('./helpers/parse')"));
             ("helpers",
                Dir [("parse.py", File 17 (Some "def parse(): pass"))])])])];
  getcwd := "/"
|}.

(** A tree with one file of every kind: a special file, an entry point
    alone in its directory, a lone leftover, two unreferenced files
    side by side, a file that names itself, and an ignored directory. *)
Definition sample_tree : filesystem := {|
  fs_root :=
    Dir [("repo",
      Dir [("README.md", File 4 (Some "docs"));
           ("app", Dir [("main.py", File 14 (Some "print('hello')"))]);
           ("lib", Dir [("legacy_helper.js", File 10 (Some "var x = 1;"))]);
           ("notes",
              Dir [("old_notes.txt", File 5 (Some "notes"));
                   ("draft.txt", File 5 (Some "draft"))]);
           ("src",
              Dir [("tool.py", File 15 (Some "# see 'tool.py'"));
                   ("util.py", File 5 (Some "x = 1"))]);
           (".env", Dir [("secret.py", File 5 (Some "k = 1"))])])];
  getcwd := "/"
|}.

Definition forward_state : state := scan_repository default_config forward_tree "/repo" init.
Definition sample_state : state := scan_repository default_config sample_tree "/repo" init.

(** One detector, two scans of the same directory under two spellings of
    its path.  [a.py] names [b.py] by the absolute path [/repo/b.py]. *)
Definition alias_tree : filesystem := {|
  fs_root :=
    Dir [("repo",
      Dir [("b.py", File 5 (Some "x = 1"));
           ("a.py", File 18 (Some "load('/repo/b.py')"))])];
  getcwd := "/"
|}.

Definition alias_state : state :=
  scan_repository default_config alias_tree "/repo"
    (scan_repository default_config alias_tree "//repo" init).

(** The default configuration with one ignore pattern of the user's,
    and a directory whose name matches it. *)
Definition tmp_config : config := {|
  ignore_patterns := ["tm?"];
  scan_extensions := scan_extensions default_config;
  reference_patterns_import := reference_patterns_import default_config;
  reference_patterns_file_path := reference_patterns_file_path default_config;
  special_files := special_files default_config;
  min_file_size := min_file_size default_config;
  max_file_size := max_file_size default_config
|}.

Definition tmp_tree : filesystem := {|
  fs_root := Dir [("repo", Dir [("tmp", Dir [("a.txt", File 5 (Some "notes"))])])];
  getcwd := "/"
|}.

Definition tmp_state : state := scan_repository tmp_config tmp_tree "/repo" init.

(** Version-control metadata at the top and a dependency cache further
    down, scanned with the default configuration. *)
Definition nested_tree : filesystem := {|
  fs_root :=
    Dir [("repo",
      Dir [(".git", Dir [("config", File 6 (Some "[core]"))]);
           ("src",
              Dir [("node_modules",
                 Dir [("y.js", File 10 (Some "var y = 1;"))])])])];
  getcwd := "/"
|}.

Definition nested_state : state := scan_repository default_config nested_tree "/repo" init.

(** * Proofs *)

(* stdpp's solvers clear hypotheses by name, some of which are gone by then. *)
#[local] Set Warnings "-clear-no-such-hyp".

(** ** Strings and paths *)

Section Paths.
#[local] Arguments String.append !_ _ / : simpl nomatch.

Lemma append_assoc (a b c : string) : (a +:+ b) +:+ c = a +:+ (b +:+ c).
Proof. induction a as [|x a IH]; simpl; [done|by f_equal]. Qed.

Lemma append_nil_r (a : string) : a +:+ "" = a.
Proof. induction a as [|x a IH]; simpl; [done|by f_equal]. Qed.

Lemma valid_name_inv c :
  valid_name c = true → c ≠ "" ∧ c ≠ "." ∧ c ≠ ".." ∧ str.has_sep c = false.
Proof.
  unfold valid_name. rewrite !andb_true_iff, !negb_true_iff.
  intros [[[?%String.eqb_neq ?%String.eqb_neq] ?%String.eqb_neq] ?]. done.
Qed.

Lemma split_nonempty s : str.split s ≠ [].
Proof. destruct s as [|c s]; simpl; [done|]. destruct (Ascii.eqb c sep); [done|]. by destruct (str.split s). Qed.

Lemma split_app_sep a b :
  str.split (a +:+ String sep b) = str.split a ++ str.split b.
Proof.
  induction a as [|c a IH]; simpl.
  - done.
  - destruct (Ascii.eqb c sep); [by rewrite IH|].
    rewrite IH. pose proof (split_nonempty a). by destruct (str.split a).
Qed.

Lemma split_no_sep s : str.has_sep s = false → str.split s = [s].
Proof.
  induction s as [|c s IH]; simpl; [done|].
  intros [Hc Hs]%orb_false_elim. rewrite Hc, IH by done. done.
Qed.

Lemma join_split s : str.join (str.split s) = s.
Proof.
  induction s as [|c s IH]; simpl; [done|].
  pose proof (split_nonempty s) as Hne.
  destruct (Ascii.eqb_spec c sep) as [->|Hc].
  - destruct (str.split s) eqn:Hs; [done|]. simpl in *. by rewrite IH.
  - destruct (str.split s) as [|h [|h' t]] eqn:Hs; [done| |]; simpl in *; by rewrite <- IH.
Qed.

Lemma join_snoc cs c :
  cs ≠ [] → str.join (cs ++ [c]) = str.join cs +:+ String sep c.
Proof.
  induction cs as [|x [|y cs] IH]; intros Hne; [done|done|].
  change (str.join ((x :: y :: cs) ++ [c]))
    with (x +:+ String sep (str.join ((y :: cs) ++ [c]))).
  rewrite IH by done.
  change (str.join (x :: y :: cs)) with (x +:+ String sep (str.join (y :: cs))).
  by rewrite append_assoc.
Qed.

Lemma split_join cs :
  names_valid cs → cs ≠ [] → str.split (str.join cs) = cs.
Proof.
  induction cs as [|x [|y cs] IH]; intros Hv Hne; [done| |].
  - apply Forall_cons in Hv as [(_ & _ & _ & Hx)%valid_name_inv _].
    simpl. by apply split_no_sep.
  - apply Forall_cons in Hv as [(_ & _ & _ & Hx)%valid_name_inv Hv].
    change (str.join (x :: y :: cs)) with (x +:+ String sep (str.join (y :: cs))).
    rewrite split_app_sep, IH, split_no_sep by done. done.
Qed.

Lemma join_nonempty cs : names_valid cs → cs ≠ [] → str.join cs ≠ "".
Proof.
  intros Hv Hne Hj. apply (f_equal str.split) in Hj. rewrite split_join in Hj by done.
  simpl in Hj. subst. apply Forall_cons in Hv as [(? & _)%valid_name_inv _]. done.
Qed.

Lemma join_inj cs cs' :
  names_valid cs → names_valid cs' → str.join cs = str.join cs' → cs = cs'.
Proof.
  intros Hv Hv' Hj.
  destruct cs as [|c cs], cs' as [|c' cs']; [done| | |].
  - symmetry in Hj. by apply join_nonempty in Hj.
  - by apply join_nonempty in Hj.
  - apply (f_equal str.split) in Hj. by rewrite !split_join in Hj.
Qed.

Lemma path_of_inj cs cs' :
  names_valid cs → names_valid cs' → path_of cs = path_of cs' → cs = cs'.
Proof. unfold path_of. intros ?? [=]. by apply join_inj. Qed.

Lemma startswith_sep_valid c : valid_name c = true → str.startswith_sep c = false.
Proof.
  intros (_ & _ & _ & Hc)%valid_name_inv. destruct c as [|x c]; [done|].
  simpl in *. by apply orb_false_elim in Hc as [? _].
Qed.

Lemma endswith_sep_no_sep c : str.has_sep c = false → str.endswith_sep c = false.
Proof.
  induction c as [|x c IH]; [done|]. simpl.
  intros [Hx Hc]%orb_false_elim. destruct c; [done|auto].
Qed.

Lemma endswith_sep_cons x s :
  s ≠ "" → str.endswith_sep (String x s) = str.endswith_sep s.
Proof. by destruct s. Qed.

Lemma endswith_sep_app a b : b ≠ "" → str.endswith_sep (a +:+ b) = str.endswith_sep b.
Proof.
  intros Hb. induction a as [|x a IH]; [done|].
  simpl String.append. rewrite endswith_sep_cons; [done|].
  destruct a; [done|discriminate].
Qed.

Lemma endswith_sep_join cs :
  names_valid cs → cs ≠ [] → str.endswith_sep (str.join cs) = false.
Proof.
  induction cs as [|x [|y cs] IH]; intros Hv Hne; [done| |].
  - apply Forall_cons in Hv as [(_ & _ & _ & Hx)%valid_name_inv _].
    by apply endswith_sep_no_sep.
  - apply Forall_cons in Hv as [_ Hv].
    change (str.join (x :: y :: cs)) with (x +:+ String sep (str.join (y :: cs))).
    rewrite endswith_sep_app, endswith_sep_cons by (try apply join_nonempty; done).
    by apply IH.
Qed.

Lemma endswith_sep_path_of rs :
  names_valid rs → rs ≠ [] → str.endswith_sep (path_of rs) = false.
Proof.
  intros Hv Hne. unfold path_of.
  rewrite endswith_sep_cons by by apply join_nonempty.
  by apply endswith_sep_join.
Qed.

Lemma join_path_of rs c :
  names_valid rs → valid_name c = true →
  os_path.join (path_of rs) c = path_of (rs ++ [c]).
Proof.
  intros Hrs Hc. unfold os_path.join. rewrite startswith_sep_valid by done.
  destruct rs as [|r rs]; [done|].
  replace (String.eqb (path_of (r :: rs)) "") with false by done.
  rewrite endswith_sep_path_of by done.
  unfold path_of. rewrite join_snoc by done. done.
Qed.

Lemma join_all_path_of rs cs :
  names_valid rs → names_valid cs → join_all (path_of rs) cs = path_of (rs ++ cs).
Proof.
  revert rs. induction cs as [|c cs IH]; intros rs Hrs Hcs.
  - by rewrite app_nil_r.
  - apply Forall_cons in Hcs as [Hc Hcs]. unfold join_all in *. simpl.
    rewrite join_path_of, IH by (try apply Forall_app; auto).
    by rewrite <- app_assoc.
Qed.


Lemma normpath_loop_valid n cs : ∀ acc,
  names_valid cs → fold_left (os_path.normpath_step n) cs acc = acc ++ cs.
Proof.
  induction cs as [|c cs IH]; intros acc Hv; simpl.
  - by rewrite app_nil_r.
  - apply Forall_cons in Hv as [(Hc1 & Hc2 & Hc3 & _)%valid_name_inv Hv].
    rewrite IH by done. unfold os_path.normpath_step.
    apply String.eqb_neq in Hc1, Hc2, Hc3. rewrite Hc1, Hc2, Hc3. simpl.
    by rewrite <- app_assoc.
Qed.

Lemma filter_Forall {A} (P : A → Prop) `{!∀ x, Decision (P x)} (l : list A) :
  Forall P l → filter P l = l.
Proof.
  induction 1 as [|x l Hx _ IH]; [done|]. by rewrite filter_cons_True, IH.
Qed.

Lemma split_path_of rs :
  names_valid rs →
  filter (λ x, os_path.nonempty x = true) (str.split (path_of rs)) = rs.
Proof.
  intros Hv. unfold path_of. simpl.
  rewrite filter_cons_False by done.
  destruct rs as [|r rs]; [done|].
  rewrite split_join by done.
  apply filter_Forall. eapply Forall_impl; [exact Hv|].
  intros x [Hx _]%valid_name_inv. unfold os_path.nonempty.
  apply String.eqb_neq in Hx. by rewrite Hx.
Qed.

Lemma prefix_cons_ne a s1 b s2 :
  a ≠ b → String.prefix (String a s1) (String b s2) = false.
Proof. intros Hne. cbn. by destruct (ascii_dec a b). Qed.

Lemma initial_slashes_path_of rs :
  names_valid rs → os_path.initial_slashes (path_of rs) = 1.
Proof.
  intros Hv. unfold os_path.initial_slashes, path_of. simpl.
  destruct rs as [|r rs]; [done|].
  assert (str.startswith_sep (str.join (r :: rs)) = false) as Hs.
  { apply Forall_cons in Hv as [Hr _]. pose proof (startswith_sep_valid r Hr).
    apply valid_name_inv in Hr as [Hne _].
    destruct r as [|x r]; [done|]. by destruct rs. }
  destruct (str.join (r :: rs)) as [|x s]; [done|].
  simpl in Hs. apply Ascii.eqb_neq in Hs.
  rewrite prefix_cons_ne; [done|]. by intros <-.
Qed.

Lemma normpath_path_of rs :
  names_valid rs → os_path.normpath (path_of rs) = path_of rs.
Proof.
  intros Hv. unfold os_path.normpath.
  replace (String.eqb (path_of rs) "") with false by done.
  rewrite initial_slashes_path_of by done.
  assert (fold_left (os_path.normpath_step 1) (str.split (path_of rs)) [] = rs) as ->.
  { unfold path_of. simpl. destruct rs as [|r rs]; [done|].
    rewrite split_join by done. by rewrite normpath_loop_valid. }
  done.
Qed.

Lemma abspath_path_of cwd rs :
  names_valid rs → os_path.abspath cwd (path_of rs) = path_of rs.
Proof. intros Hv. unfold os_path.abspath. simpl. by apply normpath_path_of. Qed.

Lemma commonprefix_len_app rs cs : os_path.commonprefix_len rs (rs ++ cs) = length rs.
Proof.
  induction rs as [|r rs IH]; simpl; [by destruct cs|].
  by rewrite String.eqb_refl, IH.
Qed.

Lemma relpath_path_of cwd rs cs :
  names_valid rs → names_valid cs → cs ≠ [] →
  os_path.relpath cwd (path_of (rs ++ cs)) (path_of rs) = Ok (str.join cs).
Proof.
  intros Hrs Hcs Hne. unfold os_path.relpath.
  replace (String.eqb (path_of (rs ++ cs)) "") with false by done.
  assert (names_valid (rs ++ cs)) by by apply Forall_app.
  rewrite !abspath_path_of, !split_path_of by done.
  rewrite commonprefix_len_app, Nat.sub_diag, drop_app_length. simpl.
  by rewrite bool_decide_false.
Qed.

Lemma is_canonical_path_of root :
  is_canonical root = true → ∃ rs, names_valid rs ∧ root = path_of rs.
Proof.
  destruct root as [|c rest]; [done|]. simpl.
  intros [->%Ascii.eqb_eq Hrest]%andb_true_iff.
  apply orb_true_iff in Hrest as [->%String.eqb_eq|Hv].
  - exists []. split; [constructor|done].
  - exists (str.split rest). split.
    + apply Forall_forall. intros x Hx%list_elem_of_In.
      by eapply forallb_forall in Hv.
    + unfold path_of. by rewrite join_split.
Qed.

(** *** Absolute paths are canonical *)

Lemma split_has_no_sep s : Forall (λ c, str.has_sep c = false) (str.split s).
Proof.
  induction s as [|c s IH]; simpl; [by repeat constructor|].
  destruct (Ascii.eqb c sep) eqn:Hc; [by constructor|].
  destruct (str.split s) as [|h t]; [by repeat constructor; simpl; rewrite Hc|].
  apply Forall_cons in IH as [Hh Ht]. constructor; [|done]. simpl. by rewrite Hc, Hh.
Qed.

Lemma normpath_loop_absolute comps : ∀ acc,
  Forall (λ c, str.has_sep c = false) comps → names_valid acc →
  names_valid (fold_left (os_path.normpath_step 1) comps acc).
Proof.
  induction comps as [|c comps IH]; intros acc Hcomps Hacc; [done|].
  apply Forall_cons in Hcomps as [Hc Hcomps]. simpl. apply IH; [done|].
  unfold os_path.normpath_step.
  destruct (String.eqb_spec c ""); [done|].
  destruct (String.eqb_spec c "."); [done|]. simpl.
  destruct (String.eqb_spec c "..") as [->|Hdd]; simpl.
  - destruct (decide (acc = [])) as [->|Hne].
    { rewrite bool_decide_true by done. simpl. apply Forall_nil_2. }
    destruct (exists_last Hne) as (acc' & x & ->).
    apply Forall_app in Hacc as [Hacc' Hx]. apply Forall_cons in Hx as [Hx _].
    rewrite bool_decide_false by done. rewrite last_last. simpl.
    destruct (String.eqb_spec x "..") as [->|_]; [done|].
    by rewrite removelast_last.
  - apply Forall_app. split; [done|]. constructor; [|done].
    unfold valid_name. rewrite Hc.
    destruct (String.eqb_spec c ""); [done|].
    destruct (String.eqb_spec c "."); [done|].
    by destruct (String.eqb_spec c "..").
Qed.

Lemma is_canonical_path_of_valid rs : names_valid rs → is_canonical (path_of rs) = true.
Proof.
  intros Hrs. unfold is_canonical, path_of. simpl.
  destruct rs as [|r rs]; [done|]. rewrite split_join by done.
  apply orb_true_iff. right. apply forallb_forall. intros x Hx%list_elem_of_In.
  by eapply Forall_forall in Hrs.
Qed.

(** [normpath] of a path that starts with a single slash is canonical. *)
Lemma normpath_canonical p :
  os_path.initial_slashes p = 1 → is_canonical (os_path.normpath p) = true.
Proof.
  intros Hp. unfold os_path.normpath.
  destruct (String.eqb_spec p "") as [->|_]; [done|]. rewrite Hp.
  pose proof (normpath_loop_absolute (str.split p) [] (split_has_no_sep p)
                ltac:(constructor)) as Hcomps.
  change (String.concat "" (repeat "/" 1)
          +:+ str.join (fold_left (os_path.normpath_step 1) (str.split p) []))
    with (path_of (fold_left (os_path.normpath_step 1) (str.split p) [])).
  replace (String.eqb (path_of _) "") with false by done.
  by apply is_canonical_path_of_valid.
Qed.

Lemma initial_slashes_single x s :
  x ≠ sep → os_path.initial_slashes (String sep (String x s)) = 1.
Proof.
  intros Hx. unfold os_path.initial_slashes.
  change (str.startswith_sep (String sep (String x s))) with true. cbv iota.
  assert (String.prefix "//" (String sep (String x s)) = false) as ->; [|done].
  change (String.prefix "//" (String sep (String x s)))
    with (if ascii_dec "/" sep then String.prefix "/" (String x s) else false).
  destruct (ascii_dec "/" sep); [|done]. apply prefix_cons_ne. by intros <-.
Qed.

Lemma join_head r rs :
  names_valid (r :: rs) → ∃ x s, str.join (r :: rs) = String x s ∧ x ≠ sep.
Proof.
  intros [Hr _]%Forall_cons. pose proof (startswith_sep_valid r Hr) as Hs.
  apply valid_name_inv in Hr as [Hne _]. destruct r as [|x r]; [done|].
  simpl in Hs. apply Ascii.eqb_neq in Hs. destruct rs; simpl; eauto.
Qed.

(** So is the absolute root of a scan, when the working directory is
    canonical and the argument does not start with exactly two slashes. *)
Lemma abspath_canonical cwd root_path :
  is_canonical cwd = true → os_path.initial_slashes root_path ≠ 2 →
  is_canonical (os_path.abspath cwd root_path) = true.
Proof.
  intros (rs & Hrs & ->)%is_canonical_path_of Hroot.
  unfold os_path.abspath. apply normpath_canonical.
  destruct (str.startswith_sep root_path) eqn:Hs.
  - unfold os_path.initial_slashes in *. rewrite Hs in *. by destruct (_ && _).
  - unfold os_path.join. rewrite Hs.
    replace (String.eqb (path_of rs) "") with false by done.
    destruct rs as [|r rs].
    + simpl. destruct root_path as [|c s]; [done|].
      simpl in Hs. apply Ascii.eqb_neq in Hs. by apply initial_slashes_single.
    + rewrite endswith_sep_path_of by done.
      destruct (join_head r rs Hrs) as (x & s & Hjoin & Hx).
      unfold path_of. rewrite Hjoin. simpl. by apply initial_slashes_single.
Qed.

End Paths.

(** ** The classifier *)

Section Classification.
Context `{PyLib} (cfg : config) (fs : filesystem).

Lemma relpath_ok root f :
  f ≠ "" → os_path.relpath (getcwd fs) f root = Ok (rel_str fs root f).
Proof.
  intros Hf. unfold rel_str, os_path.relpath.
  destruct (String.eqb_spec f ""); [done|].
  by case_bool_decide.
Qed.

Lemma mem_elem_of x l : mem x l = true ↔ x ∈ l.
Proof.
  unfold mem. rewrite existsb_exists. split.
  - intros (y & Hy & Heq). apply String.eqb_eq in Heq. subst. by apply list_elem_of_In.
  - intros Hx. exists x. split; [by apply list_elem_of_In | apply String.eqb_refl].
Qed.

Lemma list_remove_elem_of x y l :
  NoDup l → y ∈ list_remove x l ↔ y ∈ l ∧ y ≠ x.
Proof.
  induction l as [|z l IH]; simpl; intros Hnd.
  - set_solver.
  - apply NoDup_cons in Hnd as [Hz Hnd].
    destruct (String.eqb_spec x z) as [->|Hne].
    + set_solver.
    + rewrite !elem_of_cons, IH by done. naive_solver.
Qed.

Lemma list_remove_NoDup x l : NoDup l → NoDup (list_remove x l).
Proof.
  induction l as [|z l IH]; simpl; intros Hnd; [done|].
  apply NoDup_cons in Hnd as [Hz Hnd].
  destruct (String.eqb_spec x z); [done|].
  apply NoDup_cons. split; [|auto].
  rewrite list_remove_elem_of by done. tauto.
Qed.


Lemma classify_ok root refs d f :
  f ≠ "" →
  classify cfg fs root refs d f =
    Ok (if decide (plain_dead cfg refs f) then
          {| unreferenced := unreferenced d ++ [rel_str fs root f];
             orphaned := orphaned d; suspicious := suspicious d |}
        else if decide (important_dead cfg refs f) then
          {| unreferenced := unreferenced d;
             orphaned := orphaned d; suspicious := suspicious d ++ [rel_str fs root f] |}
        else d).
Proof.
  intros Hf. unfold classify. rewrite relpath_ok by done. cbn [mbind result_bind].
  destruct (mem _ _) eqn:Hsp.
  { rewrite !decide_False; [done| |];
      unfold plain_dead, important_dead, is_special; naive_solver. }
  case_bool_decide.
  2:{ rewrite !decide_False; [done| |]; unfold plain_dead, important_dead; naive_solver. }
  destruct (_is_potentially_important f) eqn:Himp.
  - rewrite decide_False, decide_True; [done| |];
      unfold plain_dead, important_dead, is_special, is_important;
      rewrite ?Hsp, ?Himp; naive_solver.
  - rewrite decide_True; [done|].
    unfold plain_dead, is_special, is_important. rewrite Hsp, Himp. naive_solver.
Qed.

Lemma classify_loop root refs l : "" ∉ l → ∀ d,
  for_each (classify cfg fs root refs) l d =
    Ok {| unreferenced := unreferenced d ++ (rel_str fs root <$> filter (plain_dead cfg refs) l);
          orphaned := orphaned d;
          suspicious := suspicious d ++ (rel_str fs root <$> filter (important_dead cfg refs) l) |}.
Proof.
  induction l as [|f l IH]; intros Hne d.
  - simpl. rewrite !app_nil_r. by destruct d.
  - apply not_elem_of_cons in Hne as [Hf Hne].
    cbn [for_each]. rewrite classify_ok by done. cbn [mbind result_bind].
    rewrite IH by done. rewrite !filter_cons.
    destruct (decide (plain_dead cfg refs f)) as [Hp|Hp].
    + rewrite (decide_False (P := important_dead cfg refs f)).
      * cbn. by rewrite <- app_assoc.
      * unfold plain_dead, important_dead in *. tauto.
    + destruct (decide (important_dead cfg refs f)); [|done].
      cbn. by rewrite <- app_assoc.
Qed.

Lemma count_dir_loop l : ∀ (m : gmap string nat) dir,
  default 0 (fold_left count_dir l m !! dir)
  = default 0 (m !! dir) + length (filter (λ g, os_path.dirname g = dir) l).
Proof.
  induction l as [|f l IH]; intros m dir; simpl; [lia|].
  rewrite IH. unfold count_dir. rewrite filter_cons.
  destruct (decide (os_path.dirname f = dir)) as [->|Hne].
  - rewrite lookup_insert_eq. simpl. lia.
  - rewrite lookup_insert_ne by done. lia.
Qed.

Lemma reclassify_ok root cnt d f :
  f ≠ "" →
  reclassify fs root cnt d f =
    Ok (if movable fs root cnt d f then
          {| unreferenced := list_remove (rel_str fs root f) (unreferenced d);
             orphaned := orphaned d ++ [rel_str fs root f];
             suspicious := suspicious d |}
        else d).
Proof.
  intros Hf. unfold reclassify, movable. rewrite relpath_ok by done.
  cbn [mbind result_bind]. by destruct (_ && _ && _).
Qed.

Lemma reclassify_loop root cnt l : "" ∉ l → ∀ d,
  NoDup (unreferenced d) → NoDup (orphaned d) →
  (∀ x, x ∈ orphaned d → x ∉ unreferenced d) →
  ∃ d', for_each (reclassify fs root cnt) l d = Ok d'
    ∧ suspicious d' = suspicious d
    ∧ NoDup (unreferenced d') ∧ NoDup (orphaned d')
    ∧ (∀ x, x ∈ unreferenced d' ↔ x ∈ unreferenced d ∧ ¬ moves fs root cnt l x)
    ∧ (∀ x, x ∈ orphaned d' ↔
            x ∈ orphaned d ∨ (x ∈ unreferenced d ∧ moves fs root cnt l x)).
Proof.
  induction l as [|f l IH]; intros Hne d Hu Ho Hdisj.
  - exists d. simpl. repeat split; try done; unfold moves; set_solver.
  - apply not_elem_of_cons in Hne as [Hf Hne].
    cbn [for_each]. rewrite reclassify_ok by done. cbn [mbind result_bind].
    destruct (movable fs root cnt d f) eqn:Hc; unfold movable in Hc.
    + apply andb_true_iff in Hc as [Hc Himp]. apply andb_true_iff in Hc as [Hcnt Hin].
      apply Nat.eqb_eq in Hcnt. apply mem_elem_of in Hin. apply negb_true_iff in Himp.
      edestruct (IH Hne) as (d' & -> & Hs & Hu' & Ho' & Hiu & Hio); cycle 3.
      { cbn [unreferenced orphaned suspicious] in *.
        exists d'. split; [done|]. split; [done|]. split; [done|]. split; [done|].
        assert (Hmv : ∀ x, moves fs root cnt (f :: l) x ↔ x = rel_str fs root f ∨ moves fs root cnt l x).
        { intros x. unfold moves. split.
          - intros (g & Hg & <- & ?). apply elem_of_cons in Hg as [->|Hg]; [by left|].
            right. by exists g.
          - intros [->|(g & Hg & ? & ?)].
            + exists f. unfold is_important. rewrite Himp. set_solver.
            + exists g. set_solver. }
        split; intros x.
        - rewrite Hiu, list_remove_elem_of, Hmv by done. tauto.
        - rewrite Hio, list_remove_elem_of, elem_of_app, list_elem_of_singleton, Hmv by done.
          destruct (decide (x = rel_str fs root f)) as [->|]; naive_solver. }
      * cbn. by apply list_remove_NoDup.
      * cbn. apply NoDup_app. split; [done|]. split; [|apply NoDup_singleton].
        intros x Hx. rewrite list_elem_of_singleton. intros ->. by eapply Hdisj.
      * cbn. intros x. rewrite elem_of_app, list_elem_of_singleton, list_remove_elem_of by done.
        intros [Hx| ->]; [|tauto]. intros [? _]. by eapply Hdisj.
    + destruct (IH Hne d Hu Ho Hdisj) as (d' & -> & Hs & Hu' & Ho' & Hiu & Hio).
      exists d'. split; [done|]. split; [done|]. split; [done|]. split; [done|].
      assert (Hmv : ∀ x, x ∈ unreferenced d → moves fs root cnt (f :: l) x ↔ moves fs root cnt l x).
      { intros x Hx. unfold moves. split.
        - intros (g & Hg & <- & Hcnt & Himp). apply elem_of_cons in Hg as [->|Hg].
          + exfalso. apply mem_elem_of in Hx. unfold is_important in Himp.
            apply not_true_is_false in Himp. rewrite Hx, Himp, Hcnt in Hc. done.
          + by exists g.
        - intros (g & Hg & ?). exists g. set_solver. }
      split; intros x.
      * rewrite Hiu. split; intros [Hx Hm]; (split; [done|]);
          intros Hm'; apply Hm; by apply (Hmv x Hx).
      * rewrite Hio. split; (intros [?|[Hx Hm]]; [by left|right]); (split; [done|]);
          by apply (Hmv x Hx).
Qed.


Lemma NoDup_fmap_inj {A B} (g : A → B) (l : list A) x y :
  NoDup (g <$> l) → x ∈ l → y ∈ l → g x = g y → x = y.
Proof.
  induction l as [|z l IH]; [by intros _ ?%elem_of_nil|].
  rewrite fmap_cons, NoDup_cons, !elem_of_cons, list_elem_of_fmap.
  intros [Hz Hnd] [->|Hx] [->|Hy] Heq; [done| | |by apply IH].
  - destruct Hz. eauto.
  - destruct Hz. eauto.
Qed.

Lemma find_dead_files_classified st root :
  root_dir st = Some root → "" ∉ all_files st →
  NoDup (rel_str fs root <$> elements (all_files st)) →
  all_files st ≠ ∅ →
  ∃ d, find_dead_files cfg fs st = Ok d ∧ classified cfg fs st root d.
Proof.
  intros Hroot Hne Hinj Hnonempty.
  unfold find_dead_files. rewrite bool_decide_false by done. rewrite Hroot.
  cbn [mbind result_bind].
  assert (Hne' : "" ∉ elements (all_files st)) by by rewrite elem_of_elements.
  rewrite classify_loop by done. cbn [mbind result_bind unreferenced suspicious orphaned app].
  set (files := elements (all_files st)) in *.
  set (refs := file_references st).
  set (cnt := fold_left count_dir files ∅).
  assert (Hcnt : ∀ dir, default 0 (cnt !! dir) = dir_count st dir).
  { intros dir. unfold cnt. rewrite count_dir_loop, lookup_empty. done. }
  assert (Hsub : ∀ P `{!∀ x, Decision (P x)}, NoDup (rel_str fs root <$> filter P files)).
  { intros P ?. eapply sublist_NoDup; [exact Hinj|]. apply fmap_sublist, sublist_filter. }
  edestruct (reclassify_loop root cnt files Hne')
    as (d & -> & Hs & Hu & Ho & Hiu & Hio); cycle 3.
  { cbn [unreferenced orphaned suspicious] in *.
    exists d. split; [done|].
    assert (Hmem : ∀ P `{!∀ x, Decision (P x)} x,
              x ∈ rel_str fs root <$> filter P files ↔
              ∃ f, f ∈ all_files st ∧ rel_str fs root f = x ∧ P f).
    { intros P ? x. rewrite list_elem_of_fmap. unfold files.
      setoid_rewrite list_elem_of_filter. setoid_rewrite elem_of_elements. naive_solver. }
    assert (Hmoves : ∀ f, f ∈ all_files st → plain_dead cfg refs f →
              moves fs root cnt files (rel_str fs root f) ↔ dir_count st (os_path.dirname f) = 1).
    { intros f Hf Hp. unfold moves. split.
      - intros (g & Hg & Heq & Hc & _).
        assert (g = f) as ->.
        { eapply NoDup_fmap_inj; [exact Hinj|done| |done]. by apply elem_of_elements. }
        by rewrite <- Hcnt.
      - intros Hc. exists f. rewrite Hcnt. unfold plain_dead in Hp.
        split; [by apply elem_of_elements|]. tauto. }
    split.
    - intros x. rewrite Hiu, Hmem. split.
      + intros [(f & Hf & <- & Hp) Hm]. exists f. rewrite <- Hmoves by done. done.
      + intros (f & Hf & <- & Hp & Hc). split; [eauto|]. by rewrite Hmoves.
    - intros x. rewrite Hio, Hmem. split.
      + intros [[]%elem_of_nil|[(f & Hf & <- & Hp) Hm]]. exists f. by rewrite <- Hmoves.
      + intros (f & Hf & <- & Hp & Hc). right. split; [eauto|]. by rewrite Hmoves.
    - intros x. rewrite Hs, Hmem. done.
    - apply NoDup_app. split; [done|]. split.
      + intros x Hx. rewrite elem_of_app. intros [Hx'|Hx'].
        * apply Hio in Hx' as [[]%elem_of_nil|[? Hm]]. apply Hiu in Hx. tauto.
        * rewrite Hs, Hmem in Hx'. apply Hiu in Hx as [Hx _]. rewrite Hmem in Hx.
          destruct Hx as (f & Hf & <- & Hp), Hx' as (g & Hg & Heq & Hi).
          assert (g = f) as ->.
          { eapply NoDup_fmap_inj; [exact Hinj| | |done]; by apply elem_of_elements. }
          unfold plain_dead, important_dead in *. tauto.
      + apply NoDup_app. split; [done|]. split; [|rewrite Hs; by apply Hsub].
        intros x Hx. rewrite Hs, Hmem. intros (g & Hg & Heq & Hi).
        apply Hio in Hx as [[]%elem_of_nil|[Hx _]]. rewrite Hmem in Hx.
        destruct Hx as (f & Hf & <- & Hp).
        assert (g = f) as ->.
        { eapply NoDup_fmap_inj; [exact Hinj| | |done]; by apply elem_of_elements. }
        unfold plain_dead, important_dead in *. tauto. }
  - cbn. by apply Hsub.
  - cbn. apply NoDup_nil_2.
  - cbn. intros x []%elem_of_nil.
Qed.

End Classification.

(** ** The scan *)

Section Scan.
Context `{PyLib} (cfg : config) (fs : filesystem).
#[local] Arguments String.append !_ _ / : simpl nomatch.

Lemma join_nonempty_l top name : top ≠ "" → os_path.join top name ≠ "".
Proof.
  intros Htop. unfold os_path.join.
  destruct (str.startswith_sep name) eqn:Hs; [by destruct name|].
  destruct (_ || _); destruct top; try done.
Qed.

Lemma normpath_nonempty p : os_path.normpath p ≠ "".
Proof.
  unfold os_path.normpath. destruct (String.eqb p ""); [done|].
  destruct (String.eqb_spec (String.concat "" (repeat "/" (os_path.initial_slashes p))
    +:+ str.join (fold_left (os_path.normpath_step (os_path.initial_slashes p)) (str.split p) [])) ""); done.
Qed.

Lemma relpath_join_ok root top file :
  top ≠ "" → ∃ r, os_path.relpath (getcwd fs) (os_path.join top file) root = Ok r.
Proof. intros Htop. eexists. apply relpath_ok. by apply join_nonempty_l. Qed.

(** *** The inner loops *)

Lemma add_reference_all_files file_path st resolved :
  all_files (add_reference file_path st resolved) = all_files st
  ∧ root_dir (add_reference file_path st resolved) = root_dir st.
Proof. unfold add_reference. by case_bool_decide. Qed.

(** A candidate that is not tracked yet leaves no trace. *)
Lemma add_reference_untracked file_path st resolved :
  resolved ∉ all_files st → add_reference file_path st resolved = st.
Proof. intros Hr. unfold add_reference. by rewrite bool_decide_false. Qed.

Lemma scan_references_ind (Q : state → Prop) root file_path refs st :
  (∀ st' resolved, Q st' → Q (add_reference file_path st' resolved)) →
  Q st → Q (scan_references fs root file_path refs st).
Proof.
  intros Hstep. unfold scan_references. revert st.
  induction refs as [|ref refs IH]; intros st HQ; [done|].
  simpl. apply IH. generalize (_resolve_reference fs root ref file_path).
  intros l. revert st HQ. induction l as [|r l IHl]; intros st HQ; simpl; auto.
Qed.

(** Every state predicate that survives tracking a file that passed the
    filters and recording an edge to a tracked file survives the
    processing of one directory entry. *)
Lemma scan_file_ind (P : state → Prop) root top file st :
  P st →
  (∀ rel_path size,
     os_path.relpath (getcwd fs) (os_path.join top file) root = Ok rel_path →
     _should_ignore_file cfg rel_path = false →
     getsize fs (os_path.join top file) = Some size →
     (min_file_size cfg ≤ size ≤ max_file_size cfg)%Z →
     P (track (os_path.join top file) st)) →
  (∀ st' resolved,
     os_path.join top file ∈ all_files st' → P st' →
     P (add_reference (os_path.join top file) st' resolved)) →
  P (scan_file cfg fs root top st file).
Proof.
  intros HP Htrack Hadd. unfold scan_file.
  destruct (os_path.relpath _ _ _) as [rel_path|] eqn:Hrel; [|done].
  destruct (_should_ignore_file cfg rel_path) eqn:Hign; [done|].
  destruct (getsize fs _) as [size|] eqn:Hsize; [|done].
  destruct (_ || _) eqn:Hb; [done|].
  apply orb_false_elim in Hb as [Hlo Hhi].
  assert (P (track (os_path.join top file) st)) as HP'.
  { eapply Htrack; try done. lia. }
  destruct (_is_scannable_file cfg rel_path); [|done].
  destruct (read_text fs _) as [content|]; [|done].
  apply (scan_references_ind
           (λ st', os_path.join top file ∈ all_files st' ∧ P st')).
  - intros st' r [Hin HP'']. split; [|by apply Hadd].
    by rewrite (proj1 (add_reference_all_files _ _ _)).
  - split; [|done]. unfold track. simpl. set_solver.
Qed.

(** *** The walk *)

Lemma file_names_ok v es name :
  forallb (λ e, v e.1 && names_ok v e.2) es = true →
  name ∈ file_names es → v name = true.
Proof.
  intros Hes. unfold file_names. rewrite list_elem_of_In, in_flat_map.
  intros ([n x] & Hin & Hx). eapply forallb_forall in Hes; [|done].
  simpl in *. apply andb_true_iff in Hes as [Hv _].
  destruct x; simpl in Hx; [|done]. by destruct Hx as [<-|[]].
Qed.

(** The invariant rule for the walk: [T] describes the directories the
    walk enters, [P] the states it goes through. *)
Lemma walk_invariant (v : string → bool) (T : string → Prop) (P : state → Prop) root :
  (∀ top d, T top → v d = true →
     _should_ignore_file cfg (os_path.join top d) = false → T (os_path.join top d)) →
  (∀ top file st, T top → v file = true → P st → P (scan_file cfg fs root top st file)) →
  ∀ n top st, names_ok v n = true → T top → P st → P (walk cfg fs root n top st).
Proof.
  intros HT HP n. induction n as [|es IH] using node_induction; intros top st Hok Htop Hst.
  { done. }
  simpl in Hok. cbn [walk].
  assert (P (fold_left (scan_file cfg fs root top) (file_names es) st)) as Hst'.
  { pose proof (file_names_ok v es) as Hnames. specialize (Hnames) .
    generalize dependent (file_names es). intros l Hl. revert st Hst.
    induction l as [|f l IHl]; intros st Hst; [done|]. simpl.
    apply IHl; [intros; apply Hl; set_solver|].
    apply HP; [done| |done]. apply Hl; [done|set_solver]. }
  generalize dependent (fold_left (scan_file cfg fs root top) (file_names es) st).
  clear st Hst. induction es as [|[d child] es IHes]; intros st Hst; [done|].
  apply Forall_cons in IH as [IHchild IH].
  simpl in Hok. apply andb_true_iff in Hok as [Hd Hes].
  apply andb_true_iff in Hd as [Hd Hchild].
  cbn [walk_dirs]. destruct child as [|es'].
  - by apply IHes.
  - destruct (_should_ignore_file cfg (os_path.join top d)) eqn:Hign; [by apply IHes|].
    apply IHes; [done|done|]. apply IHchild; auto.
Qed.


Lemma names_ok_any n : names_ok (λ _, true) n = true.
Proof.
  induction n as [|es IH] using node_induction; [done|]. simpl.
  apply forallb_forall. intros e He%list_elem_of_In.
  eapply Forall_forall in IH; [|done]. done.
Qed.

(** The rule without conditions on names or directories. *)
Lemma walk_preserves (P : state → Prop) root :
  (∀ top file st, P st → P (scan_file cfg fs root top st file)) →
  ∀ n top st, P st → P (walk cfg fs root n top st).
Proof.
  intros HP n top st Hst.
  apply (walk_invariant (λ _, true) (λ _, True) P); auto using names_ok_any.
Qed.

(** *** Growth *)

Lemma grows_refl st : grows st st.
Proof. done. Qed.

Lemma grows_trans st1 st2 st3 : grows st1 st2 → grows st2 st3 → grows st1 st3.
Proof.
  intros (Hr & Hf & He) (Hr' & Hf' & He'). split; [congruence|].
  split; [set_solver|]. intros k. specialize (He k). specialize (He' k). set_solver.
Qed.

Lemma track_grows f st : grows st (track f st).
Proof. split; [done|]. split; [unfold track; simpl; set_solver|done]. Qed.

Lemma add_reference_grows f st r : grows st (add_reference f st r).
Proof.
  unfold add_reference. case_bool_decide; [|done].
  split; [done|]. split; [done|]. intros k. simpl.
  destruct (decide (r = k)) as [->|Hne].
  - rewrite lookup_insert_eq. simpl. set_solver.
  - by rewrite lookup_insert_ne.
Qed.

Lemma scan_file_grows root top file st : grows st (scan_file cfg fs root top st file).
Proof.
  apply scan_file_ind.
  - done.
  - intros. apply track_grows.
  - intros st' r _ Hg. eapply grows_trans; [done|]. apply add_reference_grows.
Qed.

Lemma walk_grows root n top st : grows st (walk cfg fs root n top st).
Proof.
  apply (walk_preserves (grows st)); [|done].
  intros top' file st' Hg. eapply grows_trans; [done|]. apply scan_file_grows.
Qed.

(** *** The graph stays within the tracked files *)

Lemma track_closed f st : graph_closed st → graph_closed (track f st).
Proof.
  intros Hc k s Hk. apply Hc in Hk as [? ?]. unfold track. simpl. set_solver.
Qed.

Lemma add_reference_closed f st r :
  f ∈ all_files st → graph_closed st → graph_closed (add_reference f st r).
Proof.
  intros Hf Hc. unfold add_reference. case_bool_decide as Hr; [|done].
  intros k s. simpl. destruct (decide (r = k)) as [->|Hne].
  - rewrite lookup_insert_eq. intros [= <-]. split; [done|].
    destruct (file_references st !! k) as [s'|] eqn:Hk; simpl.
    + apply Hc in Hk as [_ ?]. set_solver.
    + set_solver.
  - rewrite lookup_insert_ne by done. apply Hc.
Qed.

Lemma walk_closed root n top st :
  graph_closed st → graph_closed (walk cfg fs root n top st).
Proof.
  apply walk_preserves. intros top' file st' Hc.
  apply scan_file_ind; [done| |].
  - intros. by apply track_closed.
  - intros. by apply add_reference_closed.
Qed.

Lemma walk_edges_nonempty root n top st :
  edges_nonempty st → edges_nonempty (walk cfg fs root n top st).
Proof.
  apply walk_preserves. intros top' file st' Hne.
  apply scan_file_ind; [done|by intros|].
  intros st'' r _ Hne' k s. unfold add_reference. case_bool_decide; [|by apply Hne'].
  simpl. destruct (decide (r = k)) as [->|Hrk].
  - rewrite lookup_insert_eq. intros [= <-]. set_solver.
  - rewrite lookup_insert_ne by done. apply Hne'.
Qed.

(** *** No tracked path is empty *)

Lemma walk_nonempty_paths root n top st :
  top ≠ "" → "" ∉ all_files st → "" ∉ all_files (walk cfg fs root n top st).
Proof.
  intros Htop Hst.
  apply (walk_invariant (λ _, true) (λ top, top ≠ "") (λ st, "" ∉ all_files st));
    auto using names_ok_any.
  - intros top' d Ht _ _. by apply join_nonempty_l.
  - intros top' file st' Ht _ Hst'. apply scan_file_ind; [done| |].
    + intros. unfold track. simpl. apply not_elem_of_union. split; [done|].
      apply not_elem_of_singleton. intros Heq. symmetry in Heq. by apply join_nonempty_l in Heq.
    + intros st'' r _ ?. by rewrite (proj1 (add_reference_all_files _ _ _)).
Qed.

(** *** Where the tracked files come from *)

Lemma join_all_snoc top ds d : join_all top (ds ++ [d]) = os_path.join (join_all top ds) d.
Proof. unfold join_all. by rewrite fold_left_app. Qed.

Lemma walked_root root : walked cfg root root.
Proof.
  exists []. split; [constructor|]. split; [|done]. intros k Hk. simpl in Hk. lia.
Qed.

Lemma walked_step root top d :
  walked cfg root top → valid_name d = true →
  _should_ignore_file cfg (os_path.join top d) = false →
  walked cfg root (os_path.join top d).
Proof.
  intros (ds & Hv & Hk & ->) Hd Hign. exists (ds ++ [d]).
  split; [apply Forall_app; split; [done|by constructor]|].
  split; [|by rewrite join_all_snoc].
  intros k Hlen. rewrite length_app in Hlen. simpl in Hlen.
  destruct (decide (k ≤ length ds)).
  - rewrite take_app_le by done. apply Hk. lia.
  - rewrite take_ge by (rewrite length_app; simpl; lia). by rewrite join_all_snoc.
Qed.

Lemma walk_tracked root n top st0 st :
  wf_node n = true → walked cfg root top →
  (∀ f, f ∈ all_files st → f ∈ all_files st0 ∨ tracked_by cfg fs root f) →
  ∀ f, f ∈ all_files (walk cfg fs root n top st) →
       f ∈ all_files st0 ∨ tracked_by cfg fs root f.
Proof.
  intros Hwf Htop Hst.
  apply (walk_invariant valid_name (walked cfg root)
           (λ st, ∀ f, f ∈ all_files st → f ∈ all_files st0 ∨ tracked_by cfg fs root f));
    auto using walked_step.
  intros top' file st' (ds & Hv & Hk & ->) Hfile Hst'. apply scan_file_ind; [done| |].
  - intros rel_path size Hrel Hign Hsize Hbounds f. unfold track. simpl.
    rewrite elem_of_union, elem_of_singleton. intros [Hf| ->]; [by apply Hst'|].
    right. by exists ds, file, rel_path, size.
  - intros st'' r _ ?. by rewrite (proj1 (add_reference_all_files _ _ _)).
Qed.


(** *** Self references *)

Lemma add_reference_adds f st r :
  r ∈ all_files st → f ∈ default ∅ (file_references (add_reference f st r) !! r).
Proof.
  intros Hr. unfold add_reference. rewrite bool_decide_true by done. simpl.
  rewrite lookup_insert_eq. simpl. set_solver.
Qed.

Lemma fold_add_reference_grows f l st : grows st (fold_left (add_reference f) l st).
Proof.
  revert st. induction l as [|r l IH]; intros st; simpl; [done|].
  eapply grows_trans; [apply add_reference_grows|apply IH].
Qed.

Lemma scan_references_grows root f refs st :
  grows st (scan_references fs root f refs st).
Proof.
  apply (scan_references_ind (grows st)); [|done].
  intros st' r Hg. eapply grows_trans; [done|apply add_reference_grows].
Qed.

Lemma scan_references_all_files root f refs st :
  all_files (scan_references fs root f refs st) = all_files st.
Proof.
  apply (scan_references_ind (λ st', all_files st' = all_files st)); [|done].
  intros st' r <-. apply add_reference_all_files.
Qed.

Lemma fold_add_reference_adds f l st r :
  r ∈ l → r ∈ all_files st →
  f ∈ default ∅ (file_references (fold_left (add_reference f) l st) !! r).
Proof.
  revert st. induction l as [|r' l IH]; intros st Hr Hin; [by apply elem_of_nil in Hr|].
  simpl. apply elem_of_cons in Hr as [<-|Hr].
  - pose proof (fold_add_reference_grows f l (add_reference f st r)) as (_ & _ & He).
    apply He. by apply add_reference_adds.
  - apply IH; [done|]. by rewrite (proj1 (add_reference_all_files _ _ _)).
Qed.

(** Every candidate of every reference that is tracked when the file is
    read gets the file as a referrer. *)
Lemma scan_references_adds root f refs st ref r :
  ref ∈ refs → r ∈ _resolve_reference fs root ref f → r ∈ all_files st →
  f ∈ default ∅ (file_references (scan_references fs root f refs st) !! r).
Proof.
  unfold scan_references. revert st.
  induction refs as [|ref' refs IH]; intros st Href Hr Hin; [by apply elem_of_nil in Href|].
  simpl. apply elem_of_cons in Href as [<-|Href].
  - pose proof (scan_references_grows root f refs
                  (fold_left (add_reference f) (_resolve_reference fs root ref f) st))
      as (_ & _ & He).
    apply He. by apply fold_add_reference_adds.
  - apply IH; [done|done|].
    pose proof (fold_add_reference_grows f (_resolve_reference fs root ref' f) st)
      as (_ & Hf & _). set_solver.
Qed.

Lemma scan_file_self_referenced root top file st :
  self_referenced cfg fs root st →
  self_referenced cfg fs root (scan_file cfg fs root top st file).
Proof.
  intros Hst f rel_path content ref Hf Hrel Hscan Hread Href Hres.
  pose proof (scan_file_grows root top file st) as (_ & _ & He).
  destruct (decide (f ∈ all_files st)) as [Hold|Hnew].
  { apply He. by eapply Hst. }
  revert Hf. clear He. unfold scan_file.
  destruct (os_path.relpath _ (os_path.join top file) _) as [rel'|] eqn:Hrel'; [|done].
  destruct (_should_ignore_file cfg rel'); [done|].
  destruct (getsize fs _); [|done].
  destruct (_ || _); [done|].
  assert (∀ st', all_files st' = all_files (track (os_path.join top file) st) →
            f ∈ all_files st' → f = os_path.join top file) as Hfp.
  { intros st' ->. unfold track. simpl. set_solver. }
  destruct (_is_scannable_file cfg rel') eqn:Hscan'.
  2:{ intros Hf. apply Hfp in Hf as ->; [|done]. congruence. }
  destruct (read_text fs (os_path.join top file)) as [content'|] eqn:Hread'.
  2:{ intros Hf. apply Hfp in Hf as ->; [|done]. congruence. }
  intros Hf.
  assert (f = os_path.join top file) as ->.
  { eapply Hfp; [|done]. apply scan_references_all_files. }
  assert (content' = content) as -> by congruence.
  eapply scan_references_adds; [done|done|]. unfold track. simpl. set_solver.
Qed.


(** *** The whole scan *)

Lemma lookup_entry_ok v name es n :
  forallb (λ e, v e.1 && names_ok v e.2) es = true →
  lookup_entry name es = Some n → names_ok v n = true.
Proof.
  induction es as [|[m x] es IH]; simpl; [done|].
  intros [[_ Hx]%andb_true_iff Hes]%andb_true_iff.
  destruct (String.eqb name m); [by intros [= <-]|auto].
Qed.

Lemma resolve_step_ok v stk comp stk' :
  Forall (λ n, names_ok v n = true) stk →
  resolve_step (Some stk) comp = Some stk' →
  Forall (λ n, names_ok v n = true) stk'.
Proof.
  intros Hstk. unfold resolve_step. destruct stk as [|[|es] up]; [done|done|].
  destruct (_ || _); [by intros [= <-]|].
  apply Forall_cons in Hstk as [Hes Hup].
  destruct (String.eqb comp "..").
  - destruct up; intros [= <-]; [by constructor|done].
  - destruct (lookup_entry comp es) as [n|] eqn:Hn; [|done]. intros [= <-].
    constructor; [by eapply lookup_entry_ok|by constructor].
Qed.

Lemma resolve_ok v path n :
  names_ok v (fs_root fs) = true → resolve fs path = Some n → names_ok v n = true.
Proof.
  intros Hroot. unfold resolve. destruct (String.eqb path ""); [done|].
  generalize (str.split (if str.startswith_sep path then path
                         else os_path.join (getcwd fs) path)).
  intros comps.
  assert (Forall (λ n, names_ok v n = true) [fs_root fs]) as Hstk by by constructor.
  revert Hstk. generalize [fs_root fs]. induction comps as [|c comps IH]; intros stk Hstk.
  - simpl. destruct stk as [|n' ?]; [done|]. intros [= <-]. by apply Forall_cons in Hstk as [? _].
  - cbn [fold_left]. destruct (resolve_step (Some stk) c) as [stk'|] eqn:Hstep.
    + apply IH. by eapply resolve_step_ok.
    + clear. assert (fold_left resolve_step comps None = None) as ->; [|done].
      induction comps; [done|]. by cbn [fold_left].
Qed.

Lemma scan_repository_root root_path st :
  root_dir (scan_repository cfg fs root_path st)
  = Some (os_path.abspath (getcwd fs) root_path).
Proof.
  unfold scan_repository. destruct (resolve fs _); [|done].
  by rewrite (proj1 (walk_grows _ _ _ _)).
Qed.

Lemma scan_repository_grows root_path st :
  all_files st ⊆ all_files (scan_repository cfg fs root_path st)
  ∧ ∀ k, default ∅ (file_references st !! k)
         ⊆ default ∅ (file_references (scan_repository cfg fs root_path st) !! k).
Proof.
  unfold scan_repository. destruct (resolve fs _); [|done].
  match goal with |- context [walk cfg fs ?r ?n ?t ?s] =>
    destruct (walk_grows r n t s) as (_ & Hf & He) end.
  done.
Qed.

Lemma scan_repository_closed root_path st :
  graph_closed st → graph_closed (scan_repository cfg fs root_path st).
Proof.
  intros Hc. unfold scan_repository. destruct (resolve fs _); [|done].
  by apply walk_closed.
Qed.

Lemma scan_repository_edges_nonempty root_path st :
  edges_nonempty st → edges_nonempty (scan_repository cfg fs root_path st).
Proof.
  intros Hne. unfold scan_repository. destruct (resolve fs _); [|done].
  by apply walk_edges_nonempty.
Qed.

Lemma scan_repository_nonempty_paths root_path st :
  "" ∉ all_files st → "" ∉ all_files (scan_repository cfg fs root_path st).
Proof.
  intros Hst. unfold scan_repository. destruct (resolve fs _); [|done].
  apply walk_nonempty_paths; [|done]. apply normpath_nonempty.
Qed.

Lemma scan_repository_tracked root_path st :
  wf_node (fs_root fs) = true →
  ∀ f, f ∈ all_files (scan_repository cfg fs root_path st) →
       f ∈ all_files st ∨ tracked_by cfg fs (os_path.abspath (getcwd fs) root_path) f.
Proof.
  intros Hwf. unfold scan_repository.
  destruct (resolve fs _) as [n|] eqn:Hn; [|by left].
  apply walk_tracked; [by eapply resolve_ok|apply walked_root|by left].
Qed.

Lemma scan_repository_self_referenced root_path :
  self_referenced cfg fs (os_path.abspath (getcwd fs) root_path)
    (scan_repository cfg fs root_path init).
Proof.
  unfold scan_repository.
  assert (self_referenced cfg fs (os_path.abspath (getcwd fs) root_path)
            {| root_dir := Some (os_path.abspath (getcwd fs) root_path);
               file_references := file_references init;
               all_files := all_files init |}) as H0.
  { intros f ? ? ? Hf. simpl in Hf. set_solver. }
  destruct (resolve fs _); [|done].
  apply walk_preserves; [|done]. intros. by apply scan_file_self_referenced.
Qed.

(** A tracked file under a canonical root, spelled out in components. *)
Lemma tracked_by_path_of rs f :
  names_valid rs → tracked_by cfg fs (path_of rs) f →
  ∃ cs, names_valid cs ∧ cs ≠ [] ∧ f = path_of (rs ++ cs)
        ∧ rel_str fs (path_of rs) f = str.join cs.
Proof.
  intros Hrs (ds & file & rel_path & size & Hds & Hfile & _ & -> & _).
  exists (ds ++ [file]).
  assert (names_valid (ds ++ [file])) as Hcs.
  { apply Forall_app. split; [done|by constructor]. }
  split; [done|]. split; [by destruct ds|].
  rewrite <- join_all_snoc, join_all_path_of by done. split; [done|].
  unfold rel_str. rewrite relpath_path_of; [done..|by destruct ds].
Qed.

(** After a first scan of a well-formed tree from a canonical root, the
    tracked files are told apart by their relative paths. *)
Lemma scan_repository_well_tracked root_path :
  wf_node (fs_root fs) = true →
  is_canonical (os_path.abspath (getcwd fs) root_path) = true →
  well_tracked fs (scan_repository cfg fs root_path init).
Proof.
  intros Hwf (rs & Hrs & Hroot)%is_canonical_path_of.
  exists (os_path.abspath (getcwd fs) root_path).
  split; [apply scan_repository_root|].
  split; [by apply scan_repository_nonempty_paths|].
  apply NoDup_fmap_2_strong; [|apply NoDup_elements].
  intros f g Hf%elem_of_elements Hg%elem_of_elements Heq.
  apply scan_repository_tracked in Hf as [Hf|Hf]; [by apply elem_of_empty in Hf| |done].
  apply scan_repository_tracked in Hg as [Hg|Hg]; [by apply elem_of_empty in Hg| |done].
  rewrite Hroot in *.
  apply tracked_by_path_of in Hf as (cs & Hcs & _ & -> & Hrel); [|done].
  apply tracked_by_path_of in Hg as (cs' & Hcs' & _ & -> & Hrel'); [|done].
  rewrite Hrel, Hrel' in Heq. apply join_inj in Heq; [|done..]. by subst.
Qed.

End Scan.

(** ** The claims about the classifier and the scan *)

Section Claims.
Context `{PyLib} (cfg : config) (fs : filesystem).

(** Under [well_tracked], the lists answer for the tracked files
    themselves. *)
Lemma well_tracked_classified st :
  well_tracked fs st → all_files st ≠ ∅ →
  ∃ root d,
    root_dir st = Some root ∧ find_dead_files cfg fs st = Ok d
    ∧ classified cfg fs st root d
    ∧ (∀ f, f ∈ all_files st →
         os_path.relpath (getcwd fs) f root = Ok (rel_str fs root f)
         ∧ (rel_str fs root f ∈ unreferenced d ↔
              plain_dead cfg (file_references st) f
              ∧ dir_count st (os_path.dirname f) ≠ 1)
         ∧ (rel_str fs root f ∈ orphaned d ↔
              plain_dead cfg (file_references st) f
              ∧ dir_count st (os_path.dirname f) = 1)
         ∧ (rel_str fs root f ∈ suspicious d ↔
              important_dead cfg (file_references st) f)).
Proof.
  intros (root & Hroot & Hne & Hinj) Hnonempty.
  destruct (find_dead_files_classified cfg fs st root) as (d & Hd & Hcl); [done..|].
  exists root, d. split; [done|]. split; [done|]. split; [done|].
  intros f Hf.
  assert (∀ g, g ∈ all_files st → rel_str fs root g = rel_str fs root f → g = f) as Hsame.
  { intros g Hg Heq. eapply NoDup_fmap_inj; [exact Hinj| | |done]; by apply elem_of_elements. }
  split; [apply relpath_ok; set_solver|].
  destruct Hcl as [Hu Ho Hs _].
  split; [|split].
  - rewrite Hu. split; [|by exists f].
    intros (g & Hg & Heq & ?). by rewrite <- (Hsame g Hg Heq).
  - rewrite Ho. split; [|by exists f].
    intros (g & Hg & Heq & ?). by rewrite <- (Hsame g Hg Heq).
  - rewrite Hs. split; [|by exists f].
    intros (g & Hg & Heq & ?). by rewrite <- (Hsame g Hg Heq).
Qed.

(** C2.  The classification partitions the tracked universe.  For a
    well-tracked state with at least one file, [find_dead_files] returns
    three lists that share no path and repeat none; every tracked file
    falls in exactly one of the five classes special, referenced and not
    special, unreferenced, orphaned, suspicious; and every listed path is
    the root-relative path of a tracked file.  The state left by a first
    scan is well tracked ([scan_repository_well_tracked]). *)
Theorem classification_partitions_universe st :
  well_tracked fs st → all_files st ≠ ∅ →
  ∃ root d,
    root_dir st = Some root ∧ find_dead_files cfg fs st = Ok d
    ∧ NoDup (unreferenced d ++ orphaned d ++ suspicious d)
    ∧ (∀ f, f ∈ all_files st →
         ∃ c, in_category cfg fs st d root f c
              ∧ ∀ c', in_category cfg fs st d root f c' → c' = c)
    ∧ (∀ x, x ∈ unreferenced d ++ orphaned d ++ suspicious d →
            ∃ f, f ∈ all_files st ∧ os_path.relpath (getcwd fs) f root = Ok x).
Proof.
  intros Hwt Hnonempty.
  destruct (well_tracked_classified st Hwt Hnonempty) as (root & d & Hroot & Hd & Hcl & Hf).
  exists root, d. split; [done|]. split; [done|]. split; [apply Hcl|]. split.
  - intros f Hin. destruct (Hf f Hin) as (_ & Hu & Ho & Hs).
    unfold plain_dead, important_dead in *.
    destruct (decide (is_special cfg f)) as [Hsp|Hsp].
    { exists Special. split; [done|]. intros []; simpl; tauto. }
    destruct (decide (is_referenced st f)) as [Href|Href].
    { exists Live. split; [done|]. unfold is_referenced in *. intros []; simpl; tauto. }
    destruct (decide (is_important f)) as [Himp|Himp].
    { exists Suspicious. split; [simpl; tauto|].
      unfold is_referenced in *. intros []; simpl; tauto. }
    destruct (decide (dir_count st (os_path.dirname f) = 1)) as [Hc|Hc].
    + exists Orphaned. split; [simpl; tauto|].
      unfold is_referenced in *. intros []; simpl; tauto.
    + exists Unreferenced. split; [simpl; tauto|].
      unfold is_referenced in *. intros []; simpl; tauto.
  - intros x. rewrite !elem_of_app.
    destruct Hcl as [Hu Ho Hs _]. rewrite Hu, Ho, Hs.
    intros [(f & Hin & <- & _)|[(f & Hin & <- & _)|(f & Hin & <- & _)]];
      exists f; (split; [done|apply (Hf f Hin)]).
Qed.


(** C3.  Entry-point precedence.  A tracked file that is not special,
    has no inbound edge and whose basename matches the entry-point
    heuristic is listed as suspicious, and neither as orphaned nor as
    unreferenced, whatever the number of tracked files in its directory
    (so also when it is alone there). *)
Theorem entry_point_is_suspicious st f :
  well_tracked fs st →
  f ∈ all_files st → ¬ is_special cfg f → ¬ is_referenced st f → is_important f →
  ∃ root d r,
    root_dir st = Some root ∧ find_dead_files cfg fs st = Ok d
    ∧ os_path.relpath (getcwd fs) f root = Ok r
    ∧ r ∈ suspicious d ∧ (r ∉ orphaned d) ∧ r ∉ unreferenced d.
Proof.
  intros Hwt Hin Hsp Href Himp.
  destruct (well_tracked_classified st Hwt) as (root & d & Hroot & Hd & _ & Hf);
    [set_solver|].
  destruct (Hf f Hin) as (Hrel & Hu & Ho & Hs).
  exists root, d, (rel_str fs root f). repeat (split; [done|]).
  unfold plain_dead, important_dead, is_referenced in *. tauto.
Qed.


(** C7.  Special-file exemption.  A tracked file whose basename is one
    of the configured special names is in none of the three lists,
    whatever the reference graph holds for it. *)
Theorem special_files_are_exempt st f :
  well_tracked fs st → f ∈ all_files st → is_special cfg f →
  ∃ root d r,
    root_dir st = Some root ∧ find_dead_files cfg fs st = Ok d
    ∧ os_path.relpath (getcwd fs) f root = Ok r
    ∧ (r ∉ unreferenced d) ∧ (r ∉ orphaned d) ∧ r ∉ suspicious d.
Proof.
  intros Hwt Hin Hsp.
  destruct (well_tracked_classified st Hwt) as (root & d & Hroot & Hd & _ & Hf);
    [set_solver|].
  destruct (Hf f Hin) as (Hrel & Hu & Ho & Hs).
  exists root, d, (rel_str fs root f). repeat (split; [done|]).
  unfold plain_dead, important_dead in *. tauto.
Qed.

(** *** States a detector can be in *)

Lemma reachable_root_dir st :
  reachable cfg st → root_dir st = None → all_files st = ∅.
Proof.
  induction 1 as [|fs' root_path st _ _]; [done|].
  by rewrite scan_repository_root.
Qed.

Lemma reachable_nonempty_paths st : reachable cfg st → "" ∉ all_files st.
Proof.
  induction 1 as [|fs' root_path st _ IH]; [set_solver|].
  by apply scan_repository_nonempty_paths.
Qed.

Lemma reachable_closed st : reachable cfg st → graph_closed st.
Proof.
  induction 1 as [|fs' root_path st _ IH]; [by intros k s ?|].
  by apply scan_repository_closed.
Qed.

Lemma reachable_edges_nonempty st : reachable cfg st → edges_nonempty st.
Proof.
  induction 1 as [|fs' root_path st _ IH]; [by intros k s ?|].
  by apply scan_repository_edges_nonempty.
Qed.

Lemma reclassify_loop_ok root cnt l : "" ∉ l → ∀ d,
  ∃ d', for_each (reclassify fs root cnt) l d = Ok d'.
Proof.
  induction l as [|f l IH]; intros Hne d; [by exists d|].
  apply not_elem_of_cons in Hne as [Hf Hne].
  cbn [for_each]. rewrite reclassify_ok by done. cbn [mbind result_bind]. by apply IH.
Qed.

(** C9.  The classifier needs a scan.  In every state a detector can
    reach, [find_dead_files] raises [ValueError] when no file is tracked
    (so in the fresh state, before any scan), and returns a
    classification when some file is. *)
Theorem find_dead_files_needs_a_scan st :
  reachable cfg st →
  (all_files st = ∅ →
     find_dead_files cfg fs st
     = Raise (ValueError "Repository not scanned yet. Call scan_repository() first."))
  ∧ (all_files st ≠ ∅ → ∃ d, find_dead_files cfg fs st = Ok d).
Proof.
  intros Hreach. unfold find_dead_files. split.
  - intros Hempty. by rewrite bool_decide_true.
  - intros Hnonempty. rewrite bool_decide_false by done.
    destruct (root_dir st) as [root|] eqn:Hroot.
    2:{ by apply reachable_root_dir in Hroot. }
    cbn [mbind result_bind].
    assert ("" ∉ elements (all_files st)) as Hne.
    { rewrite elem_of_elements. by apply reachable_nonempty_paths. }
    rewrite classify_loop by done. cbn [mbind result_bind].
    by apply reclassify_loop_ok.
Qed.



(** What the walk's own test prunes.  Let [ds] lead from the root
    to a directory whose path, as the walk forms it
    ([os.path.join(root, d)] at every level), matches an ignore pattern
    ([_should_ignore_file]: shell-style match or substring).  The walk
    of its parent passes over it without descending, whatever it holds;
    and after a first scan no path [rs] below that directory is tracked,
    is a key or a referrer of the graph, or has its relative path in a
    list of the classification. *)
Theorem ignored_directories_are_pruned root_path ds rs :
  let root := os_path.abspath (getcwd fs) root_path in
  let st := scan_repository cfg fs root_path init in
  let p := join_all root (ds ++ rs) in
  wf_node (fs_root fs) = true → is_canonical root = true →
  names_valid ds → ds ≠ [] → names_valid rs → rs ≠ [] →
  _should_ignore_file cfg (join_all root ds) = true →
  (∀ walk_into top d sub es st0,
     os_path.join top d = join_all root ds →
     walk_dirs cfg walk_into top ((d, Dir sub) :: es) st0
     = walk_dirs cfg walk_into top es st0)
  ∧ (p ∉ all_files st)
  ∧ (∀ k s, file_references st !! k = Some s → k ≠ p ∧ p ∉ s)
  ∧ ∃ r, os_path.relpath (getcwd fs) p root = Ok r
         ∧ ∀ d, find_dead_files cfg fs st = Ok d →
                (r ∉ unreferenced d) ∧ (r ∉ orphaned d) ∧ r ∉ suspicious d.
Proof.
  intros root st p Hwf Hcan Hds Hds_ne Hrs Hrs_ne Hign.
  split.
  { intros walk_into top d sub es st0 Htop. cbn [walk_dirs]. by rewrite Htop, Hign. }
  pose proof (scan_repository_well_tracked cfg fs root_path Hwf Hcan) as Hwt.
  destruct (is_canonical_path_of _ Hcan) as (rs0 & Hrs0 & Hroot).
  fold root in Hroot.
  assert (names_valid (ds ++ rs)) as Hdr by by apply Forall_app.
  assert (p = path_of (rs0 ++ ds ++ rs)) as Hp.
  { unfold p. by rewrite Hroot, join_all_path_of. }
  assert (∀ g cs, g ∈ all_files st → names_valid cs → g = path_of (rs0 ++ cs) →
            ∀ k, 0 < k < length cs →
                 _should_ignore_file cfg (join_all root (take k cs)) = false) as Hkept.
  { intros g cs Hg Hcs Heq k Hk.
    apply scan_repository_tracked in Hg as [Hg|Hg]; [by apply elem_of_empty in Hg| |done].
    destruct Hg as (ds' & file & _ & _ & Hds' & Hfile & Hkept & Hg & _).
    fold root in Hkept, Hg. rewrite <- join_all_snoc, Hroot, join_all_path_of in Hg; try done.
    2:{ apply Forall_app. split; [done|by constructor]. }
    rewrite Heq in Hg. apply path_of_inj in Hg.
    2:{ by apply Forall_app. }
    2:{ apply Forall_app. split; [done|]. apply Forall_app. split; [done|by constructor]. }
    apply app_inv_head in Hg. subst cs. rewrite length_app in Hk. simpl in Hk.
    rewrite take_app_le by lia. apply Hkept. lia. }
  assert (p ∉ all_files st) as Hnot.
  { intros Hin. specialize (Hkept p (ds ++ rs) Hin Hdr Hp (length ds)).
    rewrite take_app_length in Hkept. rewrite Hkept in Hign; [done|].
    rewrite length_app. destruct ds, rs; simpl; try done; lia. }
  split; [done|]. split.
  { intros k s Hk.
    assert (graph_closed st) as Hc.
    { apply (reachable_closed). apply reachable_scan, reachable_init. }
    apply Hc in Hk as [Hin Hsub]. split; [by intros ->|set_solver]. }
  exists (str.join (ds ++ rs)). split.
  { rewrite Hp, Hroot. apply relpath_path_of; [done..|by destruct ds]. }
  intros d Hd.
  assert (all_files st ≠ ∅) as Hnonempty.
  { intros Hempty. unfold find_dead_files in Hd. by rewrite bool_decide_true in Hd. }
  destruct (well_tracked_classified st Hwt Hnonempty)
    as (root' & d' & Hroot' & Hd' & [Hu Ho Hs _] & _).
  assert (d' = d) as -> by congruence.
  assert (root' = root) as ->.
  { unfold st in Hroot'. rewrite scan_repository_root in Hroot'. by injection Hroot'. }
  assert (∀ g, g ∈ all_files st → rel_str fs root g ≠ str.join (ds ++ rs)) as Hrel.
  { intros g Hg Heq. pose proof Hg as Hg'.
    apply scan_repository_tracked in Hg' as [Hg'|Hg']; [by apply elem_of_empty in Hg'| |done].
    fold root in Hg'. rewrite Hroot in Hg', Heq.
    apply tracked_by_path_of in Hg' as (cs & Hcs & _ & -> & Hrel); [|done].
    rewrite Hrel in Heq. apply join_inj in Heq; [|done..]. subst cs.
    by rewrite <- Hp in Hg. }
  rewrite Hu, Ho, Hs. repeat split; intros (g & Hg & Heq & _); by eapply Hrel.
Qed.


End Claims.

Section Resolver.
Variable fs : filesystem.

Lemma probe_step root base_dir reference resolved ext :
  probe fs root base_dir reference resolved ext
  = resolved ++ probe_candidate fs root base_dir reference ext.
Proof.
  unfold probe, probe_candidate, accept.
  destruct (exists_ fs (os_path.join base_dir _)); [done|].
  destruct (exists_ fs (os_path.join root _)); [done|]. by rewrite app_nil_r.
Qed.

Lemma probe_loop root base_dir reference exts : ∀ resolved,
  fold_left (probe fs root base_dir reference) exts resolved
  = resolved ++ flat_map (probe_candidate fs root base_dir reference) exts.
Proof.
  induction exts as [|ext exts IH]; intros resolved; simpl.
  - by rewrite app_nil_r.
  - by rewrite IH, probe_step, <- app_assoc.
Qed.

Lemma resolve_reference_order root reference base_path :
  _resolve_reference fs root reference base_path
  = resolution_order fs root reference base_path.
Proof.
  unfold _resolve_reference, resolution_order, accept.
  destruct (String.eqb (pathlib.suffix reference) "").
  - rewrite probe_loop.
    destruct (exists_ fs (os_path.join (os_path.dirname base_path) reference));
      destruct (exists_ fs (os_path.join root reference)); simpl; done.
  - destruct (exists_ fs (os_path.join (os_path.dirname base_path) reference));
      destruct (exists_ fs (os_path.join root reference)); simpl; done.
Qed.

(** C6.  Extension probing.  For a reference without an extension the
    resolver returns the candidate relative to the referrer's directory
    and the candidate relative to the root, each when it exists, followed
    for every extension of the probe list, in order, by the first of the
    two candidates with that extension appended that exists (the one
    relative to the referrer's directory, else the one relative to the
    root).  No hit ends the search: every extension contributes. *)
Theorem extension_probing_order root reference base_path :
  pathlib.suffix reference = "" →
  let base_dir := os_path.dirname base_path in
  let resolved := _resolve_reference fs root reference base_path in
  resolved
  = accept fs (os_path.join base_dir reference)
    ++ accept fs (os_path.join root reference)
    ++ flat_map (probe_candidate fs root base_dir reference) probe_extensions
  ∧ ∀ ext, ext ∈ probe_extensions →
      let rel_test := os_path.join base_dir (reference +:+ ext) in
      let root_test := os_path.join root (reference +:+ ext) in
      (exists_ fs rel_test = true → os_path.normpath rel_test ∈ resolved)
      ∧ (exists_ fs rel_test = false → exists_ fs root_test = true →
           os_path.normpath root_test ∈ resolved).
Proof.
  intros Hsuffix base_dir resolved.
  assert (resolved
          = accept fs (os_path.join base_dir reference)
            ++ accept fs (os_path.join root reference)
            ++ flat_map (probe_candidate fs root base_dir reference) probe_extensions)
    as Heq.
  { unfold resolved. rewrite resolve_reference_order. unfold resolution_order.
    by rewrite Hsuffix. }
  split; [done|]. intros ext Hext rel_test root_test.
  assert (∀ x, x ∈ probe_candidate fs root base_dir reference ext → x ∈ resolved) as Hin.
  { intros x Hx. rewrite Heq, !elem_of_app. right. right.
    apply list_elem_of_In, in_flat_map. exists ext. by rewrite <- !list_elem_of_In. }
  split.
  - intros Hrel. apply Hin. unfold probe_candidate, accept. fold rel_test.
    rewrite Hrel. set_solver.
  - intros Hrel Hroot. apply Hin. unfold probe_candidate, accept. fold rel_test root_test.
    rewrite Hrel, Hroot. set_solver.
Qed.

End Resolver.

(** ** Sample runs *)

Lemma elem_of_computed x (X : gset string) : mem x (elements X) = true → x ∈ X.
Proof. rewrite mem_elem_of. apply elem_of_elements. Qed.

Lemma not_elem_of_computed x (X : gset string) : mem x (elements X) = false → x ∉ X.
Proof. intros Hm Hx. apply elem_of_elements, mem_elem_of in Hx. congruence. Qed.

Ltac tracked := apply elem_of_computed; vm_compute; reflexivity.
Ltac untracked := apply not_elem_of_computed; vm_compute; reflexivity.

Lemma sample_state_reachable : reachable default_config sample_state.
Proof. apply reachable_scan, reachable_init. Qed.

Lemma sample_state_nonempty : all_files sample_state ≠ ∅.
Proof.
  assert ("/repo/README.md" ∈ all_files sample_state) as Hin by tracked.
  intros Hempty. rewrite Hempty in Hin. by apply elem_of_empty in Hin.
Qed.

Lemma sample_state_well_tracked : well_tracked sample_tree sample_state.
Proof.
  exists "/repo". split; [by vm_compute|]. split; [untracked|compute_done].
Qed.

(** C1 fails on the code: an edge goes only to a candidate that is
    already in [all_files] when the referrer is read, and [os.walk] hands
    over the files of a directory before it descends.  In [forward_tree]
    both files end up tracked, [src/main.py] is scannable, its text yields
    the reference [./helpers/parse], the resolver turns it into
    [src/helpers/parse.py] by extension probing, and the graph has no
    entry for that file after the scan. *)
Theorem forward_reference_is_dropped :
  "/repo/src/main.py" ∈ all_files forward_state
  ∧ "/repo/src/helpers/parse.py" ∈ all_files forward_state
  ∧ _is_scannable_file default_config "src/main.py" = true
  ∧ (∃ content,
       read_text forward_tree "/repo/src/main.py" = Some content
       ∧ "./helpers/parse"
           ∈ _extract_references default_config "/repo/src/main.py" content)
  ∧ "/repo/src/helpers/parse.py"
      ∈ _resolve_reference forward_tree "/repo" "./helpers/parse" "/repo/src/main.py"
  ∧ file_references forward_state !! "/repo/src/helpers/parse.py" = None
  ∧ find_dead_files default_config forward_tree forward_state
    = Ok {| unreferenced := [];
            orphaned := ["src/helpers/parse.py"];
            suspicious := ["src/main.py"] |}.
Proof.
  split; [tracked|]. split; [tracked|]. split; [by vm_compute|]. split.
  { eexists. split; [by vm_compute|]. compute_done. }
  split; [compute_done|]. split; by vm_compute.
Qed.

(** C2 fails where two tracked paths have the same root-relative path.
    A detector that scans [//repo] and then [/repo] tracks every file
    under both spellings, [os.path.abspath] keeping the two leading
    slashes.  The reference of [a.py] resolves to [/repo/b.py], which is
    tracked only by the second scan, so [/repo/b.py] has an entry in the
    graph and [//repo/b.py] has none.  [find_dead_files] then reports
    [b.py], the relative path of both, as unreferenced although
    [/repo/b.py] is referenced, and lists [a.py] twice: the tracked file
    [/repo/b.py] is in two classes and the lists repeat a path. *)
Lemma aliased_roots_break_the_partition :
  reachable default_config alias_state
  ∧ find_dead_files default_config alias_tree alias_state
    = Ok {| unreferenced := ["a.py"; "b.py"; "a.py"]; orphaned := []; suspicious := [] |}
  ∧ ("/repo/b.py" ∈ all_files alias_state)
  ∧ is_referenced alias_state "/repo/b.py"
  ∧ ¬ is_special default_config "/repo/b.py"
  ∧ os_path.relpath (getcwd alias_tree) "/repo/b.py" "/repo" = Ok "b.py"
  ∧ ¬ ∃ root d,
        root_dir alias_state = Some root
        ∧ find_dead_files default_config alias_tree alias_state = Ok d
        ∧ NoDup (unreferenced d ++ orphaned d ++ suspicious d)
        ∧ (∀ f, f ∈ all_files alias_state →
             ∃ c, in_category default_config alias_tree alias_state d root f c
                  ∧ ∀ c', in_category default_config alias_tree alias_state d root f c'
                          → c' = c)
        ∧ (∀ x, x ∈ unreferenced d ++ orphaned d ++ suspicious d →
                ∃ f, f ∈ all_files alias_state
                     ∧ os_path.relpath (getcwd alias_tree) f root = Ok x).
Proof.
  assert (find_dead_files default_config alias_tree alias_state
          = Ok {| unreferenced := ["a.py"; "b.py"; "a.py"];
                  orphaned := []; suspicious := [] |}) as Hfind by (by vm_compute).
  split.
  { unfold alias_state. apply reachable_scan, reachable_scan, reachable_init. }
  split; [exact Hfind|]. split; [tracked|].
  split.
  { unfold is_referenced. apply elem_of_dom.
    destruct (file_references alias_state !! "/repo/b.py") eqn:Hlook; [eauto|].
    by vm_compute in Hlook. }
  split; [by vm_compute|]. split; [by vm_compute|].
  intros (root & d & _ & Hd & Hnodup & _). rewrite Hfind in Hd. injection Hd as <-.
  simpl in Hnodup. apply NoDup_cons in Hnodup as [Hnotin _]. apply Hnotin.
  apply mem_elem_of. by vm_compute.
Qed.

(** C5 fails on the code.  [scan_repository] tests a directory by
    [os.path.join(root, d)], the absolute path of the walk, while a file
    is tested by its root-relative path.  With the ignore pattern [tm?]
    the directory [tmp] matches by its root-relative path (and by its
    name), its joined path [/repo/tmp] does not, so the walk descends
    into it; the file [tmp/a.txt] matches no pattern itself, is tracked
    and is reported.  With the default patterns the same test lets the
    walk into [.git] and into a nested [node_modules], whose file is
    tracked and reported. *)
Theorem matching_directory_is_walked :
  os_path.relpath (getcwd tmp_tree) "/repo/tmp" "/repo" = Ok "tmp"
  ∧ fnmatch "tmp" "tm?" = true
  ∧ _should_ignore_file tmp_config "tmp" = true
  ∧ _should_ignore_file tmp_config (os_path.join "/repo" "tmp") = false
  ∧ (∀ walk_into es st,
       walk_dirs tmp_config walk_into "/repo" (("tmp", Dir es) :: []) st
       = walk_into (Dir es) "/repo/tmp" st)
  ∧ ("/repo/tmp/a.txt" ∈ all_files tmp_state)
  ∧ find_dead_files tmp_config tmp_tree tmp_state
    = Ok {| unreferenced := []; orphaned := ["tmp/a.txt"]; suspicious := [] |}
  ∧ _should_ignore_file default_config (os_path.join "/repo" ".git") = false
  ∧ _should_ignore_file default_config (os_path.join "/repo/src" "node_modules") = false
  ∧ ("/repo/src/node_modules/y.js" ∈ all_files nested_state)
  ∧ find_dead_files default_config nested_tree nested_state
    = Ok {| unreferenced := [];
            orphaned := ["src/node_modules/y.js"];
            suspicious := [] |}.
Proof.
  split; [by vm_compute|]. split; [by vm_compute|]. split; [by vm_compute|].
  split; [by vm_compute|]. split; [done|]. split; [tracked|].
  split; [by vm_compute|]. split; [by vm_compute|]. split; [by vm_compute|].
  split; [tracked|by vm_compute].
Qed.

Lemma classification_partitions_universe_witness :
  well_tracked sample_tree sample_state ∧ all_files sample_state ≠ ∅
  ∧ ∃ root d,
      root_dir sample_state = Some root
      ∧ find_dead_files default_config sample_tree sample_state = Ok d
      ∧ NoDup (unreferenced d ++ orphaned d ++ suspicious d)
      ∧ (∀ f, f ∈ all_files sample_state →
           ∃ c, in_category default_config sample_tree sample_state d root f c
                ∧ ∀ c', in_category default_config sample_tree sample_state d root f c'
                        → c' = c)
      ∧ (∀ x, x ∈ unreferenced d ++ orphaned d ++ suspicious d →
              ∃ f, f ∈ all_files sample_state
                   ∧ os_path.relpath (getcwd sample_tree) f root = Ok x).
Proof.
  split; [exact sample_state_well_tracked|]. split; [exact sample_state_nonempty|].
  exact (classification_partitions_universe default_config sample_tree sample_state
           sample_state_well_tracked sample_state_nonempty).
Defined.

Lemma entry_point_is_suspicious_witness :
  dir_count sample_state (os_path.dirname "/repo/app/main.py") = 1
  ∧ ∃ root d r,
      root_dir sample_state = Some root
      ∧ find_dead_files default_config sample_tree sample_state = Ok d
      ∧ os_path.relpath (getcwd sample_tree) "/repo/app/main.py" root = Ok r
      ∧ r ∈ suspicious d ∧ (r ∉ orphaned d) ∧ r ∉ unreferenced d.
Proof.
  split; [by vm_compute|].
  apply (entry_point_is_suspicious default_config sample_tree sample_state
           "/repo/app/main.py" sample_state_well_tracked).
  - tracked.
  - compute_done.
  - unfold is_referenced. untracked.
  - by vm_compute.
Defined.


Lemma special_files_are_exempt_witness :
  is_special default_config "/repo/README.md"
  ∧ ∃ root d r,
      root_dir sample_state = Some root
      ∧ find_dead_files default_config sample_tree sample_state = Ok d
      ∧ os_path.relpath (getcwd sample_tree) "/repo/README.md" root = Ok r
      ∧ (r ∉ unreferenced d) ∧ (r ∉ orphaned d) ∧ r ∉ suspicious d.
Proof.
  assert (is_special default_config "/repo/README.md") as Hsp by by vm_compute.
  split; [exact Hsp|].
  apply (special_files_are_exempt default_config sample_tree sample_state
           "/repo/README.md" sample_state_well_tracked); [tracked|exact Hsp].
Defined.

Lemma find_dead_files_needs_a_scan_witness :
  find_dead_files default_config sample_tree init
  = Raise (ValueError "Repository not scanned yet. Call scan_repository() first.")
  ∧ ∃ d, find_dead_files default_config sample_tree sample_state = Ok d.
Proof.
  split.
  - apply (find_dead_files_needs_a_scan default_config sample_tree init
             (reachable_init default_config)). reflexivity.
  - apply (find_dead_files_needs_a_scan default_config sample_tree sample_state
             sample_state_reachable). exact sample_state_nonempty.
Defined.


Lemma ignored_directories_are_pruned_witness :
  _should_ignore_file default_config "/repo/.env" = true
  ∧ ("/repo/.env/secret.py" ∉ all_files sample_state)
  ∧ (∀ k s, file_references sample_state !! k = Some s →
            k ≠ "/repo/.env/secret.py" ∧ "/repo/.env/secret.py" ∉ s)
  ∧ ∃ r, os_path.relpath (getcwd sample_tree) "/repo/.env/secret.py" "/repo" = Ok r
         ∧ ∀ d, find_dead_files default_config sample_tree sample_state = Ok d →
                (r ∉ unreferenced d) ∧ (r ∉ orphaned d) ∧ r ∉ suspicious d.
Proof.
  split; [by vm_compute|].
  apply (ignored_directories_are_pruned default_config sample_tree "/repo"
           [".env"] ["secret.py"]).
  (* the seven premises, each by evaluation *)
  - by vm_compute.
  - by vm_compute.
  - repeat constructor.
  - done.
  - repeat constructor.
  - done.
  - by vm_compute.
Defined.


Lemma extension_probing_order_witness :
  pathlib.suffix "./helpers/parse" = ""
  ∧ _resolve_reference forward_tree "/repo" "./helpers/parse" "/repo/src/main.py"
    = ["/repo/src/helpers/parse.py"].
Proof.
  assert (pathlib.suffix "./helpers/parse" = "") as Hsuffix by by vm_compute.
  split; [exact Hsuffix|].
  destruct (extension_probing_order forward_tree "/repo" "./helpers/parse"
              "/repo/src/main.py" Hsuffix) as [Heq _].
  rewrite Heq. by vm_compute.
Defined.

(** * Further properties *)

(** ** A scan as a fold over the walk order *)

Section ScanOrder.
Context `{PyLib} (cfg : config) (fs : filesystem).

Lemma scan_references_flat root f refs st :
  scan_references fs root f refs st
  = fold_left (add_reference f) (flat_map (λ ref, _resolve_reference fs root ref f) refs) st.
Proof.
  unfold scan_references. revert st.
  induction refs as [|ref refs IH]; intros st; simpl; [done|].
  by rewrite fold_left_app, IH.
Qed.

(** The loop body either passes a file on to [process] or leaves the
    state alone. *)
Lemma scan_file_process root top st file :
  scan_file cfg fs root top st file
  = if passes cfg fs root (os_path.join top file)
    then process cfg fs root st (os_path.join top file) else st.
Proof.
  unfold scan_file, passes, process, outgoing.
  destruct (os_path.relpath _ _ _) as [rel|]; [|done].
  destruct (_should_ignore_file cfg rel); [done|]. simpl.
  destruct (getsize fs _) as [size|]; [|done].
  destruct (_ || _); [done|]. simpl.
  destruct (_is_scannable_file cfg rel); [|done].
  destruct (read_text fs _) as [content|]; [|done].
  apply scan_references_flat.
Qed.

Lemma scan_files_process root top names : ∀ st,
  fold_left (scan_file cfg fs root top) names st
  = fold_left (process cfg fs root)
      (filter (λ file_path, passes cfg fs root file_path = true)
              (os_path.join top <$> names)) st.
Proof.
  induction names as [|name names IH]; intros st; [done|].
  cbn [fold_left fmap list_fmap]. rewrite filter_cons.
  rewrite scan_file_process, IH.
  destruct (passes cfg fs root (os_path.join top name)) eqn:Hp.
  - rewrite decide_True by done. done.
  - rewrite decide_False by (by intros ?). done.
Qed.

(** The walk is a left fold of [process] over the files that pass, in
    the order the walk comes to them. *)
Lemma walk_process root n : ∀ top st,
  walk cfg fs root n top st = fold_left (process cfg fs root) (walk_order cfg fs root n top) st.
Proof.
  induction n as [size content|es IH] using node_induction; intros top st; [done|].
  cbn [walk walk_order]. rewrite fold_left_app, <- scan_files_process.
  generalize (fold_left (scan_file cfg fs root top) (file_names es) st). clear st.
  induction IH as [|[d child] es' Hc _ IHes]; intros st; [done|].
  cbn [walk_dirs walk_order_dirs]. destruct child as [size content|sub]; [apply IHes|].
  destruct (_should_ignore_file cfg (os_path.join top d)); [apply IHes|].
  cbn [snd] in Hc. rewrite fold_left_app, <- (Hc (os_path.join top d) st). apply IHes.
Qed.

Lemma edge_default st r f : edge st r f ↔ f ∈ default ∅ (file_references st !! r).
Proof.
  unfold edge. destruct (file_references st !! r) as [s|]; simpl.
  - split; [by intros (s' & [= <-] & ?)|eauto].
  - split; [by intros (s' & [=] & ?)|set_solver].
Qed.

Lemma add_reference_edges f st resolved r f' :
  f' ∈ default ∅ (file_references (add_reference f st resolved) !! r)
  ↔ f' ∈ default ∅ (file_references st !! r)
    ∨ (f' = f ∧ r = resolved ∧ r ∈ all_files st).
Proof.
  unfold add_reference. case_bool_decide as Hin; simpl.
  - destruct (decide (r = resolved)) as [->|Hne].
    + rewrite lookup_insert_eq. simpl. set_solver.
    + rewrite lookup_insert_ne by done. naive_solver.
  - naive_solver.
Qed.

Lemma fold_add_reference_edges f rs : ∀ st r f',
  f' ∈ default ∅ (file_references (fold_left (add_reference f) rs st) !! r)
  ↔ f' ∈ default ∅ (file_references st !! r)
    ∨ (f' = f ∧ r ∈ rs ∧ r ∈ all_files st).
Proof.
  induction rs as [|x rs IH]; intros st r f'; simpl.
  - set_solver.
  - rewrite IH, add_reference_edges.
    destruct (add_reference_all_files f st x) as [-> _]. set_solver.
Qed.

Lemma fold_add_reference_all_files f rs : ∀ st,
  all_files (fold_left (add_reference f) rs st) = all_files st
  ∧ root_dir (fold_left (add_reference f) rs st) = root_dir st.
Proof.
  induction rs as [|x rs IH]; intros st; simpl; [done|].
  destruct (IH (add_reference f st x)) as [-> ->]. apply add_reference_all_files.
Qed.

Lemma process_spec root st f :
  all_files (process cfg fs root st f) = all_files st ∪ {[f]}
  ∧ root_dir (process cfg fs root st f) = root_dir st
  ∧ ∀ r f',
      f' ∈ default ∅ (file_references (process cfg fs root st f) !! r)
      ↔ f' ∈ default ∅ (file_references st !! r)
        ∨ (f' = f ∧ r ∈ outgoing cfg fs root f ∧ (r ∈ all_files st ∨ r = f)).
Proof.
  unfold process.
  destruct (fold_add_reference_all_files f (outgoing cfg fs root f) (track f st)) as [-> ->].
  split; [done|]. split; [done|]. intros r f'.
  rewrite fold_add_reference_edges. simpl. set_solver.
Qed.

(** What a run of [process] over a list of files leaves: the files are
    tracked, and an edge is new exactly when the target was tracked
    before the run, or comes earlier in the list, or is the referrer. *)
Lemma fold_process_spec root l : ∀ st,
  all_files (fold_left (process cfg fs root) l st) = all_files st ∪ list_to_set l
  ∧ root_dir (fold_left (process cfg fs root) l st) = root_dir st
  ∧ ∀ r f,
      f ∈ default ∅ (file_references (fold_left (process cfg fs root) l st) !! r)
      ↔ f ∈ default ∅ (file_references st !! r)
        ∨ ∃ l1 l2, l = l1 ++ f :: l2 ∧ r ∈ outgoing cfg fs root f
                   ∧ (r ∈ all_files st ∨ r ∈ l1 ∨ r = f).
Proof.
  induction l as [|x l IH]; intros st; cbn [fold_left].
  - split; [by rewrite list_to_set_nil, union_empty_r_L|]. split; [done|].
    intros r f. split; [auto|].
    intros [?|(l1 & l2 & Hl & _)]; [done|]. by destruct l1.
  - destruct (IH (process cfg fs root st x)) as (-> & -> & Hedges).
    destruct (process_spec root st x) as (HA & -> & Hstep).
    rewrite HA in Hedges |- *.
    split; [by rewrite list_to_set_cons, (assoc_L (∪))|]. split; [done|]. intros r f.
    rewrite Hedges, Hstep. split.
    + intros [[?|(-> & Hout & Hin)]|(l1 & l2 & -> & Hout & Hin)].
      * by left.
      * right. exists [], l. split; [done|]. split; [done|]. tauto.
      * right. exists (x :: l1), l2. split; [done|]. split; [done|].
        rewrite elem_of_union, elem_of_singleton in Hin. rewrite elem_of_cons. tauto.
    + intros [?|(l1 & l2 & Hl & Hout & Hin)]; [by left; left|].
      destruct l1 as [|y l1]; simplify_eq/=.
      * left; right. rewrite elem_of_nil in Hin. tauto.
      * right. exists l1, l2. split; [done|]. split; [done|].
        rewrite elem_of_union, elem_of_singleton. rewrite elem_of_cons in Hin. tauto.
Qed.

Lemma scan_repository_process root_path st :
  scan_repository cfg fs root_path st
  = fold_left (process cfg fs (os_path.abspath (getcwd fs) root_path))
      (scan_order cfg fs root_path)
      {| root_dir := Some (os_path.abspath (getcwd fs) root_path);
         file_references := file_references st;
         all_files := all_files st |}.
Proof.
  unfold scan_repository, scan_order.
  destruct (resolve fs _) as [n|]; [apply walk_process|done].
Qed.

Lemma scan_repository_all_files root_path st :
  all_files (scan_repository cfg fs root_path st)
  = all_files st ∪ list_to_set (scan_order cfg fs root_path).
Proof.
  rewrite scan_repository_process.
  by destruct (fold_process_spec (os_path.abspath (getcwd fs) root_path)
                 (scan_order cfg fs root_path)
                 {| root_dir := Some (os_path.abspath (getcwd fs) root_path);
                    file_references := file_references st;
                    all_files := all_files st |}) as (-> & _).
Qed.

Lemma scan_repository_edges root_path st r f :
  edge (scan_repository cfg fs root_path st) r f
  ↔ edge st r f
    ∨ ∃ l1 l2, scan_order cfg fs root_path = l1 ++ f :: l2
               ∧ r ∈ outgoing cfg fs (os_path.abspath (getcwd fs) root_path) f
               ∧ (r ∈ all_files st ∨ r ∈ l1 ∨ r = f).
Proof.
  rewrite !edge_default, scan_repository_process.
  destruct (fold_process_spec (os_path.abspath (getcwd fs) root_path)
              (scan_order cfg fs root_path)
              {| root_dir := Some (os_path.abspath (getcwd fs) root_path);
                 file_references := file_references st;
                 all_files := all_files st |}) as (_ & _ & ->).
  done.
Qed.

Lemma first_scan_edges root_path r f :
  edge (scan_repository cfg fs root_path init) r f
  ↔ ∃ l1 l2, scan_order cfg fs root_path = l1 ++ f :: l2
             ∧ r ∈ outgoing cfg fs (os_path.abspath (getcwd fs) root_path) f
             ∧ (r ∈ l1 ∨ r = f).
Proof.
  rewrite scan_repository_edges. split.
  - intros [(s & Hs & _)|(l1 & l2 & Hl & Hout & [Hin|Hin])].
    + simpl in Hs. by rewrite lookup_empty in Hs.
    + simpl in Hin. by apply elem_of_empty in Hin.
    + eauto.
  - intros (l1 & l2 & Hl & Hout & Hin). right. exists l1, l2. eauto.
Qed.

(** X1.  What a scan tracks.  After [scan_repository], whatever the
    state it starts from, the tracked set is the set it had before
    together with exactly the files of the walk that pass the filters
    ([scan_order]): neither the text of the files nor the reference
    graph plays a part in it. *)
Theorem scan_tracks_the_walk_order root_path st :
  all_files (scan_repository cfg fs root_path st)
  = all_files st ∪ list_to_set (scan_order cfg fs root_path).
Proof.
  rewrite scan_repository_process.
  by destruct (fold_process_spec (os_path.abspath (getcwd fs) root_path)
                 (scan_order cfg fs root_path)
                 {| root_dir := Some (os_path.abspath (getcwd fs) root_path);
                    file_references := file_references st;
                    all_files := all_files st |}) as (-> & _).
Qed.

(** X2.  The edges of a first scan.  After a scan of a fresh detector
    the graph has [f] as a referrer of [r] exactly when [f] passed the
    filters, [r] is one of the candidates that a reference in the text
    of [f] resolves to, and [r] is [f] itself or a file the walk came to
    before [f]. *)
Theorem first_scan_records_backward_edges root_path r f :
  edge (scan_repository cfg fs root_path init) r f
  ↔ ∃ l1 l2, scan_order cfg fs root_path = l1 ++ f :: l2
             ∧ r ∈ outgoing cfg fs (os_path.abspath (getcwd fs) root_path) f
             ∧ (r ∈ l1 ∨ r = f).
Proof.
  rewrite scan_repository_edges. split.
  - intros [(s & Hs & _)|(l1 & l2 & Hl & Hout & [Hin|Hin])].
    + simpl in Hs. by rewrite lookup_empty in Hs.
    + simpl in Hin. by apply elem_of_empty in Hin.
    + exists l1, l2. auto.
  - intros (l1 & l2 & Hl & Hout & Hin). right. exists l1, l2. auto.
Qed.

(** X3.  A second scan of the same tree completes the graph.  It tracks
    no new file, and afterwards the graph has [f] as a referrer of [r]
    exactly when both are tracked and [r] is a candidate of a reference
    of [f]. *)
Theorem second_scan_completes_the_graph root_path :
  let root := os_path.abspath (getcwd fs) root_path in
  let st1 := scan_repository cfg fs root_path init in
  let st2 := scan_repository cfg fs root_path st1 in
  all_files st2 = all_files st1
  ∧ ∀ r f, edge st2 r f ↔ f ∈ all_files st2 ∧ r ∈ all_files st2
                           ∧ r ∈ outgoing cfg fs root f.
Proof.
  intros root st1 st2.
  assert (all_files st1 = list_to_set (scan_order cfg fs root_path)) as H1.
  { unfold st1. rewrite scan_repository_all_files. apply union_empty_l_L. }
  assert (all_files st2 = all_files st1) as H2.
  { unfold st2. rewrite scan_repository_all_files, <- H1. apply union_idemp_L. }
  assert (∀ x, x ∈ all_files st2 ↔ x ∈ scan_order cfg fs root_path) as Hmem.
  { intros x. rewrite H2, H1. apply elem_of_list_to_set. }
  split; [done|]. intros r f. rewrite !Hmem. split.
  - intros [Hedge|(l1 & l2 & Hl & Hout & Hin)]%scan_repository_edges.
    + apply first_scan_edges in Hedge as (l1 & l2 & Hl & Hout & Hin).
      rewrite Hl, !elem_of_app, !elem_of_cons. tauto.
    + rewrite <- H2, Hmem in Hin. revert Hin.
      rewrite Hl, !elem_of_app, !elem_of_cons. tauto.
  - intros (Hf & Hr & Hout). apply scan_repository_edges. right.
    apply list_elem_of_split in Hf as (l1 & l2 & Hl). exists l1, l2.
    split; [done|]. split; [done|]. left. by rewrite <- H2, Hmem.
Qed.

(** Two states whose entries all have a referrer are equal when they
    agree on root, tracked files and edges. *)
Lemma state_eq (st st' : state) :
  root_dir st = root_dir st' → all_files st = all_files st' →
  edges_nonempty st → edges_nonempty st' →
  (∀ r f, edge st r f ↔ edge st' r f) → st = st'.
Proof.
  destruct st as [rd refs files], st' as [rd' refs' files']; simpl.
  intros -> -> Hne Hne' Hedges. f_equal.
  apply map_eq. intros k.
  specialize (Hne k). specialize (Hne' k). simpl in *.
  assert (∀ f, f ∈ default ∅ (refs !! k) ↔ f ∈ default ∅ (refs' !! k)) as Hk.
  { intros f. specialize (Hedges k f). by rewrite !edge_default in Hedges. }
  destruct (refs !! k) as [s|], (refs' !! k) as [s'|]; simpl in *.
  - f_equal. by apply set_eq.
  - destruct (Hne s eq_refl). apply set_eq. intros f. rewrite Hk. set_solver.
  - destruct (Hne' s' eq_refl). apply set_eq. intros f. rewrite <- Hk. set_solver.
  - done.
Qed.

(** X4.  From the second scan on nothing changes.  In any state a
    detector can reach, after two scans of a tree a third scan of it
    returns the state as it is. *)
Theorem third_scan_changes_nothing root_path st :
  reachable cfg st →
  let st2 := scan_repository cfg fs root_path (scan_repository cfg fs root_path st) in
  scan_repository cfg fs root_path st2 = st2.
Proof.
  intros Hst st2.
  assert (reachable cfg st2) as Hr2 by (by do 2 constructor).
  assert (∀ x, x ∈ scan_order cfg fs root_path → x ∈ all_files st2) as Hsub.
  { intros x Hx. unfold st2. rewrite scan_repository_all_files.
    apply elem_of_union_r. by apply elem_of_list_to_set. }
  assert (all_files (scan_repository cfg fs root_path st2) = all_files st2) as Hfiles.
  { rewrite scan_repository_all_files. apply set_eq. intros x.
    rewrite elem_of_union, elem_of_list_to_set. specialize (Hsub x). tauto. }
  apply state_eq.
  - unfold st2. by rewrite !scan_repository_root.
  - done.
  - apply reachable_edges_nonempty with (cfg := cfg). by constructor.
  - by apply reachable_edges_nonempty with (cfg := cfg).
  - intros r f. rewrite scan_repository_edges. split; [|auto].
    intros [?|(l1 & l2 & Hl & Hout & Hin)]; [done|].
    unfold st2. rewrite scan_repository_edges. right. exists l1, l2.
    split; [done|]. split; [done|]. left.
    assert (r ∈ all_files st2) as Hr.
    { destruct Hin as [?|Hin]; [done|]. apply Hsub. rewrite Hl.
      rewrite elem_of_app, elem_of_cons. tauto. }
    revert Hr. unfold st2. rewrite (scan_repository_all_files root_path (scan_repository _ _ _ _)).
    rewrite elem_of_union, elem_of_list_to_set. intros [?|Hr]; [done|].
    rewrite scan_repository_all_files. apply elem_of_union_r. by apply elem_of_list_to_set.
Qed.

(** X5.  A scan never forgets.  Whatever tree and root a scan is given,
    every file tracked before it is tracked after it and every edge of
    the graph is still there: [all_files] and [file_references] are
    never cleared. *)
Theorem scans_never_forget (fs' : filesystem) root_path st :
  (∀ f, f ∈ all_files st → f ∈ all_files (scan_repository cfg fs' root_path st))
  ∧ (∀ r f, edge st r f → edge (scan_repository cfg fs' root_path st) r f).
Proof.
  destruct (scan_repository_grows cfg fs' root_path st) as [Hfiles Hedges].
  split; [by intros f ?%Hfiles|].
  intros r f. rewrite !edge_default. apply Hedges.
Qed.

(** X6.  No edge without a reference.  After a first scan the referrer
    and the target of every edge are tracked, the referrer is a
    scannable file whose text could be read, and that text holds a
    reference that [_resolve_reference] resolves to the target. *)
Theorem edges_come_from_references root_path r f :
  let root := os_path.abspath (getcwd fs) root_path in
  let st := scan_repository cfg fs root_path init in
  edge st r f →
  f ∈ all_files st ∧ r ∈ all_files st
  ∧ ∃ rel_path content ref,
      os_path.relpath (getcwd fs) f root = Ok rel_path
      ∧ _is_scannable_file cfg rel_path = true
      ∧ read_text fs f = Some content
      ∧ ref ∈ _extract_references cfg f content
      ∧ r ∈ _resolve_reference fs root ref f.
Proof.
  intros root st [(s & Hs & _)|(l1 & l2 & Hl & Hout & Hin)]%scan_repository_edges.
  { simpl in Hs. by rewrite lookup_empty in Hs. }
  assert (∀ x, x ∈ scan_order cfg fs root_path → x ∈ all_files st) as Hmem.
  { intros x Hx. unfold st. rewrite scan_repository_all_files.
    apply elem_of_union_r. by apply elem_of_list_to_set. }
  assert (f ∈ scan_order cfg fs root_path) as Hf.
  { rewrite Hl, elem_of_app, elem_of_cons. tauto. }
  split; [by apply Hmem|]. split.
  { destruct Hin as [Hin|[Hin| ->]]; [by apply elem_of_empty in Hin| |by apply Hmem].
    apply Hmem. rewrite Hl, elem_of_app. tauto. }
  fold root in Hout. unfold outgoing in Hout.
  destruct (os_path.relpath _ _ _) as [rel|]; [|by apply elem_of_nil in Hout].
  destruct (_is_scannable_file cfg rel) eqn:Hscan; [|by apply elem_of_nil in Hout].
  destruct (read_text fs f) as [content|]; [|by apply elem_of_nil in Hout].
  apply list_elem_of_In, in_flat_map in Hout as (ref & Href%list_elem_of_In & Hr%list_elem_of_In).
  by exists rel, content, ref.
Qed.

End ScanOrder.

(** ** Normal forms and the resolver *)

Section NormalForm.
Variable fs : filesystem.
#[local] Arguments String.append !_ _ / : simpl nomatch.

Lemma resolve_loop_None comps : fold_left resolve_step comps None = None.
Proof. induction comps; simpl; auto. Qed.

Lemma resolve_step_push stk c stk' :
  valid_name c = true → resolve_step (Some stk) c = Some stk' →
  ∃ nd, stk' = nd :: stk.
Proof.
  intros (Hne & Hdot & Hdd & _)%valid_name_inv. unfold resolve_step.
  destruct stk as [|[|es] up]; [done..|].
  destruct (String.eqb_spec c ""); [done|].
  destruct (String.eqb_spec c "."); [done|].
  destruct (String.eqb_spec c ".."); [done|]. simpl.
  destruct (lookup_entry c es); [|done]. intros [= <-]. eauto.
Qed.

Lemma resolve_loop_snoc acc c s0 stk :
  valid_name c = true →
  fold_left resolve_step (acc ++ [c]) (Some s0) = Some stk →
  ∃ nd stk0, fold_left resolve_step acc (Some s0) = Some stk0 ∧ stk = nd :: stk0.
Proof.
  intros Hc. rewrite fold_left_app. simpl.
  destruct (fold_left resolve_step acc (Some s0)) as [stk0|]; [|done].
  intros (nd & ->)%resolve_step_push; eauto.
Qed.

Lemma resolve_loop_length acc : ∀ s0 stk,
  names_valid acc → fold_left resolve_step acc (Some s0) = Some stk →
  length stk = length acc + length s0.
Proof.
  induction acc as [|c acc IH]; intros s0 stk Hv; cbn [fold_left].
  - by intros [= ->].
  - apply Forall_cons in Hv as [Hc Hv].
    destruct (resolve_step (Some s0) c) as [s1|] eqn:Hs1;
      [|by rewrite resolve_loop_None].
    apply resolve_step_push in Hs1 as (nd & ->); [|done].
    intros ->%IH; [|done]. simpl. lia.
Qed.

Lemma normpath_step_skip n acc c : c = "" ∨ c = "." → os_path.normpath_step n acc c = acc.
Proof. by intros [-> | ->]. Qed.

Lemma normpath_step_push n acc c :
  c ≠ "" → c ≠ "." → c ≠ ".." → os_path.normpath_step n acc c = acc ++ [c].
Proof.
  intros. unfold os_path.normpath_step.
  by destruct (String.eqb_spec c ""), (String.eqb_spec c "."), (String.eqb_spec c "..").
Qed.

Lemma normpath_step_up n acc :
  n ≠ 0 → names_valid acc → os_path.normpath_step n acc ".." = removelast acc.
Proof.
  intros Hn%Nat.eqb_neq Hacc. unfold os_path.normpath_step. rewrite Hn. simpl.
  destruct acc as [|a acc _] using rev_ind; [done|].
  rewrite bool_decide_false by (by destruct acc). simpl. rewrite List.last_last.
  apply Forall_app in Hacc as [_ [Ha _]%Forall_cons].
  destruct (valid_name_inv _ Ha) as (_ & _ & Hadd & _).
  by destruct (String.eqb_spec a "..").
Qed.

(** The component loop of [normpath] on an absolute path keeps in step
    with path resolution: the components kept so far lead from the root
    to the stack that resolution has built. *)
Lemma normpath_loop_resolve n R comps : n ≠ 0 → ∀ acc stk stk',
  Forall (λ c, str.has_sep c = false) comps → names_valid acc →
  fold_left resolve_step acc (Some [R]) = Some stk →
  fold_left resolve_step comps (Some stk) = Some stk' →
  names_valid (fold_left (os_path.normpath_step n) comps acc)
  ∧ fold_left resolve_step (fold_left (os_path.normpath_step n) comps acc) (Some [R])
    = Some stk'.
Proof.
  intros Hn. induction comps as [|c comps IH]; intros acc stk stk' Hcomps Hacc Hstk;
    cbn [fold_left].
  { by intros [= <-]. }
  apply Forall_cons in Hcomps as [Hc Hcomps].
  destruct (resolve_step (Some stk) c) as [stk1|] eqn:Hstep;
    [|by rewrite resolve_loop_None].
  intros Hrest.
  unfold resolve_step in Hstep. destruct stk as [|[|es] up]; [done..|].
  destruct (String.eqb_spec c "") as [->|Hne]; simpl in Hstep.
  { rewrite normpath_step_skip by auto. simplify_eq. by eapply IH. }
  destruct (String.eqb_spec c ".") as [->|Hdot]; simpl in Hstep.
  { rewrite normpath_step_skip by auto. simplify_eq. by eapply IH. }
  destruct (String.eqb_spec c "..") as [->|Hdd]; simpl in Hstep.
  - rewrite normpath_step_up by done.
    destruct acc as [|a acc0 _] using rev_ind.
    + cbn [fold_left] in Hstk. simplify_eq. simpl. by eapply (IH []).
    + rewrite removelast_last.
      apply Forall_app in Hacc as [Hacc0 [Ha _]%Forall_cons].
      apply resolve_loop_snoc in Hstk as (nd & stk0 & Hstk0 & [= <- <-]); [|done].
      apply resolve_loop_length in Hstk0 as Hlen; [|done].
      destruct up as [|x up]; [simpl in Hlen; lia|].
      simplify_eq. by eapply IH.
  - rewrite normpath_step_push by done.
    destruct (lookup_entry c es) as [nd|] eqn:Hlook; [|done]. simplify_eq.
    eapply IH; [done| | |done].
    + apply Forall_app. split; [done|]. apply Forall_singleton.
      unfold valid_name. rewrite Hc.
      by destruct (String.eqb_spec c ""), (String.eqb_spec c "."),
                  (String.eqb_spec c "..").
    + rewrite fold_left_app, Hstk. cbn [fold_left]. unfold resolve_step.
      destruct (String.eqb_spec c ""); [done|].
      destruct (String.eqb_spec c "."); [done|].
      destruct (String.eqb_spec c ".."); [done|]. simpl. by rewrite Hlook.
Qed.

Lemma normpath_loop_Forall (Q : string → Prop) n comps : ∀ acc,
  Forall Q comps → Forall Q acc → Forall Q (fold_left (os_path.normpath_step n) comps acc).
Proof.
  induction comps as [|c comps IH]; intros acc Hcomps Hacc; [done|].
  apply Forall_cons in Hcomps as [Hc Hcomps]. cbn [fold_left]. apply IH; [done|].
  unfold os_path.normpath_step.
  destruct (_ || _); [done|]. destruct (_ || _).
  - apply Forall_app. by split; [|apply Forall_singleton].
  - destruct acc as [|a acc _] using rev_ind; [done|].
    rewrite removelast_last. by apply Forall_app in Hacc as [? _].
Qed.

Lemma has_nul_app a b : str.has_nul (a +:+ b) = str.has_nul a || str.has_nul b.
Proof. induction a as [|x a IH]; simpl; [done|]. by rewrite IH, orb_assoc. Qed.

Lemma has_nul_split s :
  str.has_nul s = false → Forall (λ c, str.has_nul c = false) (str.split s).
Proof.
  induction s as [|x s IH]; simpl; intros Hs.
  - by apply Forall_singleton.
  - apply orb_false_iff in Hs as [Hx Hs]. specialize (IH Hs).
    destruct (Ascii.eqb x sep).
    + by apply Forall_cons.
    + destruct (str.split s) as [|h t]; [by apply Forall_singleton; simpl; rewrite Hx|].
      apply Forall_cons in IH as [Hh Ht]. apply Forall_cons. split; [|done].
      simpl. by rewrite Hx, Hh.
Qed.

Lemma has_nul_join cs :
  Forall (λ c, str.has_nul c = false) cs → str.has_nul (str.join cs) = false.
Proof.
  induction cs as [|c cs IH]; [done|]. intros [Hc Hcs]%Forall_cons.
  destruct cs as [|c' cs]; [done|].
  change (str.join (c :: c' :: cs)) with (c +:+ String sep (str.join (c' :: cs))).
  rewrite has_nul_app, Hc. simpl. by apply IH.
Qed.

Lemma resolve_absolute p :
  str.startswith_sep p = true →
  resolve fs p = match fold_left resolve_step (str.split p) (Some [fs_root fs]) with
                 | Some (n :: _) => Some n
                 | _ => None
                 end.
Proof. intros Hp. unfold resolve. rewrite Hp. by destruct p. Qed.

Lemma resolve_loop_join es cs stk :
  names_valid cs →
  fold_left resolve_step cs (Some [Dir es]) = Some stk →
  fold_left resolve_step (str.split (str.join cs)) (Some [Dir es]) = Some stk.
Proof.
  intros Hcs. destruct cs as [|c cs]; [done|]. by rewrite split_join.
Qed.

Lemma normpath_absolute p :
  str.startswith_sep p = true →
  ∃ n slashes, (n = 1 ∧ slashes = "/" ∨ n = 2 ∧ slashes = "//")
    ∧ os_path.normpath p
      = slashes +:+ str.join (fold_left (os_path.normpath_step n) (str.split p) []).
Proof.
  intros Hp. unfold os_path.normpath, os_path.initial_slashes. rewrite Hp.
  destruct p as [|c p]; [done|]. cbn [String.eqb].
  destruct (String.prefix "//" (String c p) && negb (String.prefix "///" (String c p))).
  - exists 2, "//". split; [auto|]. done.
  - exists 1, "/". split; [auto|]. done.
Qed.

Lemma split_cons_sep s : str.split (String sep s) = "" :: str.split s.
Proof. done. Qed.

Lemma resolve_step_skip es up : resolve_step (Some (Dir es :: up)) "" = Some (Dir es :: up).
Proof. done. Qed.

Lemma resolve_normpath p nd :
  str.startswith_sep p = true → resolve fs p = Some nd →
  resolve fs (os_path.normpath p) = Some nd.
Proof.
  intros Hp. destruct (normpath_absolute p Hp) as (n & slashes & Hn & ->).
  rewrite !resolve_absolute by (by destruct Hn as [[_ ->]|[_ ->]]).
  destruct p as [|c p]; [done|]. simpl in Hp. apply Ascii.eqb_eq in Hp as ->.
  rewrite !split_cons_sep. cbn [fold_left].
  rewrite normpath_step_skip by auto.
  destruct (fs_root fs) as [|es] eqn:HR; [by rewrite resolve_loop_None|].
  rewrite resolve_step_skip.
  destruct (fold_left resolve_step (str.split p) (Some [Dir es])) as [stk'|] eqn:Hres;
    [|done].
  destruct (normpath_loop_resolve n (Dir es) (str.split p)) with (acc := @nil string)
    (stk := [Dir es]) (stk' := stk') as [Hvalid Hfold];
    [by destruct Hn as [[-> _]|[-> _]]|apply split_has_no_sep|by apply Forall_nil_2|done..|].
  intros Hnd.
  assert (fold_left resolve_step
            (str.split (str.join (fold_left (os_path.normpath_step n) (str.split p) [])))
            (Some [Dir es]) = Some stk') as Hjoin by (by apply resolve_loop_join).
  destruct Hn as [[_ ->]|[_ ->]].
  - cbn [String.append]. rewrite split_cons_sep. cbn [fold_left].
    by rewrite resolve_step_skip, Hjoin.
  - cbn [String.append]. rewrite !split_cons_sep. cbn [fold_left].
    by rewrite !resolve_step_skip, Hjoin.
Qed.

Lemma has_nul_normpath p :
  str.startswith_sep p = true → str.has_nul p = false →
  str.has_nul (os_path.normpath p) = false.
Proof.
  intros Hp Hnul. destruct (normpath_absolute p Hp) as (n & slashes & Hn & ->).
  rewrite has_nul_app. apply orb_false_iff. split.
  - by destruct Hn as [[_ ->]|[_ ->]].
  - apply has_nul_join, normpath_loop_Forall; [by apply has_nul_split|by apply Forall_nil_2].
Qed.

(** Normalising an absolute path that exists gives a path that exists. *)
Lemma exists_normpath p :
  str.startswith_sep p = true → exists_ fs p = true →
  exists_ fs (os_path.normpath p) = true.
Proof.
  intros Hp. unfold exists_. intros [Hnul Hres]%andb_true_iff.
  apply negb_true_iff in Hnul. rewrite has_nul_normpath by done. simpl.
  destruct (resolve fs p) as [nd|] eqn:Hnd; [|done].
  by rewrite (resolve_normpath p nd).
Qed.

Lemma rstrip_sep_empty s : str.rstrip_sep s = "" → str.all_sep s = true.
Proof.
  induction s as [|c s IH]; simpl; [done|].
  destruct (str.rstrip_sep s); [|done].
  destruct (Ascii.eqb c sep); [auto|done].
Qed.

Lemma startswith_sep_dirname p :
  str.startswith_sep p = true → str.startswith_sep (os_path.dirname p) = true.
Proof.
  destruct p as [|c p]; [done|]. simpl. intros Hc.
  unfold os_path.dirname. simpl. rewrite Hc.
  set (h := if str.has_sep p then String c (os_path.head p) else String c "").
  assert (∃ h', h = String c h') as [h' ->] by (unfold h; destruct (str.has_sep p); eauto).
  destruct (negb (String.eqb (String c h') "") && negb (str.all_sep (String c h'))) eqn:Hb;
    [|by simpl].
  apply andb_true_iff in Hb as [_ Hall%negb_true_iff].
  simpl in *. rewrite Hc in Hall. simpl in Hall.
  destruct (str.rstrip_sep h') eqn:Hr; [|by simpl].
  apply rstrip_sep_empty in Hr. congruence.
Qed.

Lemma startswith_sep_join a b :
  str.startswith_sep a = true → str.startswith_sep (os_path.join a b) = true.
Proof.
  intros Ha. unfold os_path.join. destruct (str.startswith_sep b) eqn:Hb; [done|].
  destruct a as [|c a]; [done|]. by destruct (_ || _).
Qed.

Lemma accept_exists p r :
  str.startswith_sep p = true → r ∈ accept fs p → exists_ fs r = true.
Proof.
  intros Hp. unfold accept. destruct (exists_ fs p) eqn:He; [|by intros ?%elem_of_nil].
  intros ->%list_elem_of_singleton. by apply exists_normpath.
Qed.

(** X7.  The resolver returns existing paths only.  With an absolute
    root and an absolute referrer path, as [scan_repository] passes
    them, every candidate that [_resolve_reference] returns passes
    [os.path.exists]: normalising a path that exists gives a path that
    exists. *)
Theorem resolved_candidates_exist root reference base_path r :
  str.startswith_sep root = true → str.startswith_sep base_path = true →
  r ∈ _resolve_reference fs root reference base_path → exists_ fs r = true.
Proof.
  intros Hroot Hbase%startswith_sep_dirname.
  rewrite resolve_reference_order. unfold resolution_order.
  rewrite !elem_of_app. intros [Hr|[Hr|Hr]].
  - eapply accept_exists; [|done]. by apply startswith_sep_join.
  - eapply accept_exists; [|done]. by apply startswith_sep_join.
  - destruct (String.eqb _ _); [|by apply elem_of_nil in Hr].
    apply list_elem_of_In, in_flat_map in Hr as (ext & _ & Hr%list_elem_of_In).
    unfold probe_candidate in Hr.
    destruct (accept fs (os_path.join (os_path.dirname base_path) _)) as [|x l] eqn:Ha.
    + eapply accept_exists; [|done]. by apply startswith_sep_join.
    + rewrite <- Ha in Hr. eapply accept_exists; [|done]. by apply startswith_sep_join.
Qed.

Lemma join_absolute a b : str.startswith_sep b = true → os_path.join a b = b.
Proof. intros Hb. unfold os_path.join. by rewrite Hb. Qed.

(** X8.  An absolute reference is taken as it stands.  For a reference
    that starts with a slash, [os.path.join] drops the referrer's
    directory and the repository root alike: the candidate is the
    reference itself, once for each of the two attempts, and the probed
    extensions are appended to the reference itself. *)
Theorem absolute_reference_bypasses_root root reference base_path :
  str.startswith_sep reference = true →
  _resolve_reference fs root reference base_path
  = accept fs reference ++ accept fs reference
    ++ (if String.eqb (pathlib.suffix reference) "" then
          flat_map (λ ext, accept fs (reference +:+ ext)) probe_extensions
        else []).
Proof.
  intros Href. rewrite resolve_reference_order. unfold resolution_order.
  rewrite !join_absolute by done. do 2 f_equal.
  destruct (String.eqb _ _); [|done].
  assert (∀ ext, probe_candidate fs root (os_path.dirname base_path) reference ext
                 = accept fs (reference +:+ ext)) as Hext.
  { intros ext. unfold probe_candidate.
    rewrite !join_absolute by (by destruct reference).
    by destruct (accept fs _). }
  unfold probe_extensions. simpl. by rewrite !Hext.
Qed.

End NormalForm.

(** ** Ignore patterns *)

Section Substrings.
#[local] Arguments String.append !_ _ / : simpl nomatch.

Lemma prefix_app sub b : String.prefix sub (sub +:+ b) = true.
Proof.
  induction sub as [|x sub IH]; simpl; [by destruct b|].
  destruct (ascii_dec x x); [done|congruence].
Qed.

Lemma prefix_app_l sub a b :
  String.prefix sub a = true → String.prefix sub (a +:+ b) = true.
Proof.
  revert a. induction sub as [|x sub IH]; intros a; simpl; [by destruct (a +:+ b)|].
  destruct a as [|y a]; [done|]. simpl. destruct (ascii_dec x y); [apply IH|done].
Qed.

Lemma contains_app_l sub a b :
  str.contains sub a = true → str.contains sub (a +:+ b) = true.
Proof.
  induction a as [|y a IH].
  - simpl. rewrite orb_false_r. destruct sub; [|done]. intros _. by destruct b.
  - cbn [str.contains]. intros [Hp|Hc]%orb_true_iff; apply orb_true_iff.
    + left. by apply (prefix_app_l sub (String y a) b).
    + right. simpl. by apply IH.
Qed.

Lemma contains_app sub a b : str.contains sub (a +:+ sub +:+ b) = true.
Proof.
  induction a as [|y a IH].
  - simpl. destruct (sub +:+ b) eqn:E; cbn [str.contains]; rewrite <- E, prefix_app; done.
  - simpl. cbn [str.contains]. rewrite IH. apply orb_true_r.
Qed.

End Substrings.

Section Ignore.
Context `{PyLib} (cfg : config).

(** X9.  A pattern ignores by substring.  A path that has an ignore
    pattern anywhere in it, as plain text, is ignored, whatever
    [fnmatch] says about it. *)
Theorem substring_match_ignores pattern a b :
  pattern ∈ ignore_patterns cfg →
  _should_ignore_file cfg (a +:+ pattern +:+ b) = true.
Proof.
  intros Hin. unfold _should_ignore_file. apply existsb_exists.
  exists pattern. split; [by apply list_elem_of_In|].
  rewrite contains_app. apply orb_true_r.
Qed.

End Ignore.

(** ** Counting the dead candidates *)

Section Totals.
Context `{PyLib} (cfg : config) (fs : filesystem).

Lemma total_dead_eq d :
  total_dead d = length (unreferenced d) + length (orphaned d) + length (suspicious d).
Proof. unfold total_dead, items. simpl. lia. Qed.

Lemma list_remove_length x l :
  mem x l = true → S (length (list_remove x l)) = length l.
Proof.
  induction l as [|y l IH]; simpl; [done|].
  destruct (String.eqb x y); simpl; [done|]. intros Hm. by rewrite IH.
Qed.

Lemma reclassify_total root cnt d f d' :
  reclassify fs root cnt d f = Ok d' → total_dead d' = total_dead d.
Proof.
  unfold reclassify. destruct (os_path.relpath _ _ _) as [rel|]; [|done].
  cbn [mbind result_bind].
  destruct (_ =? 1); simpl; [|by intros [= <-]].
  destruct (mem rel (unreferenced d)) eqn:Hm; simpl; [|by intros [= <-]].
  destruct (negb _); intros [= <-]; [|done].
  rewrite !total_dead_eq. simpl. rewrite length_app. simpl.
  apply list_remove_length in Hm. lia.
Qed.

Lemma reclassify_loop_total root cnt l : ∀ d d',
  for_each (reclassify fs root cnt) l d = Ok d' → total_dead d' = total_dead d.
Proof.
  induction l as [|f l IH]; intros d d'; cbn [for_each]; [by intros [= <-]|].
  destruct (reclassify fs root cnt d f) as [d1|] eqn:Hstep; [|done].
  cbn [mbind result_bind]. intros ->%IH. by eapply reclassify_total.
Qed.

Lemma classify_total root refs d f d' :
  classify cfg fs root refs d f = Ok d' →
  total_dead d'
  = total_dead d + (if decide (¬ is_special cfg f ∧ f ∉ dom refs) then 1 else 0).
Proof.
  destruct (decide (¬ is_special cfg f ∧ f ∉ dom refs)) as [[Hs Hd]|Hn];
    unfold is_special in *; unfold classify;
    (destruct (os_path.relpath _ _ _) as [rel|]; [|done]); cbn [mbind result_bind].
  - destruct (mem _ (special_files cfg)); [done|].
    rewrite bool_decide_true by done.
    destruct (_is_potentially_important f); intros [= <-];
      rewrite !total_dead_eq; simpl; rewrite length_app; simpl; lia.
  - destruct (mem _ (special_files cfg)) eqn:Hs; [intros [= <-]; lia|].
    rewrite bool_decide_false; [intros [= <-]; lia|].
    intros Hd. apply Hn. split; [congruence|done].
Qed.

Lemma classify_loop_total root refs l : ∀ d d',
  for_each (classify cfg fs root refs) l d = Ok d' →
  total_dead d'
  = total_dead d + length (filter (λ f, ¬ is_special cfg f ∧ f ∉ dom refs) l).
Proof.
  induction l as [|f l IH]; intros d d'; cbn [for_each].
  { intros [= <-]. simpl. lia. }
  destruct (classify cfg fs root refs d f) as [d1|] eqn:Hstep; [|done].
  cbn [mbind result_bind]. intros ->%IH. apply classify_total in Hstep as ->.
  rewrite filter_cons. destruct (decide _); simpl; lia.
Qed.

Lemma total_dead_count st d :
  find_dead_files cfg fs st = Ok d →
  total_dead d = length (filter (dead_candidate cfg st) (elements (all_files st))).
Proof.
  unfold find_dead_files. case_bool_decide; [done|].
  destruct (root_dir st) as [root|]; [|done]. cbn [mbind result_bind].
  destruct (for_each (classify cfg fs root (file_references st)) _ _) as [d1|] eqn:Hc;
    [|done].
  cbn [mbind result_bind]. intros ->%reclassify_loop_total.
  apply classify_loop_total in Hc as ->. by rewrite total_dead_eq.
Qed.

(** X10.  One entry per dead candidate.  Whenever [find_dead_files]
    returns, the three lists together have as many entries as there are
    tracked files that are neither special nor referenced: the orphan
    loop moves entries, it neither drops nor doubles one. *)
Theorem total_dead_counts_candidates st d :
  find_dead_files cfg fs st = Ok d →
  total_dead d = length (filter (dead_candidate cfg st) (elements (all_files st))).
Proof.
  unfold find_dead_files. case_bool_decide; [done|].
  destruct (root_dir st) as [root|]; [|done]. cbn [mbind result_bind].
  destruct (for_each (classify cfg fs root (file_references st)) _ _) as [d1|] eqn:Hc;
    [|done].
  cbn [mbind result_bind]. intros ->%reclassify_loop_total.
  apply classify_loop_total in Hc as ->. by rewrite total_dead_eq.
Qed.

Lemma find_dead_files_ok st :
  reachable cfg st → all_files st ≠ ∅ → ∃ d, find_dead_files cfg fs st = Ok d.
Proof.
  intros Hreach Hnonempty. unfold find_dead_files. rewrite bool_decide_false by done.
  destruct (root_dir st) as [root|] eqn:Hroot.
  2:{ by apply (reachable_root_dir cfg) in Hroot. }
  cbn [mbind result_bind].
  assert ("" ∉ elements (all_files st)) as Hne.
  { rewrite elem_of_elements. by eapply reachable_nonempty_paths. }
  rewrite classify_loop by done. cbn [mbind result_bind].
  by apply reclassify_loop_ok.
Qed.

Lemma generate_report_ok json_dumps st d output_format root :
  root_dir st = Some root → ∃ report, generate_report json_dumps st d output_format = Ok report.
Proof.
  intros Hroot. unfold generate_report. rewrite Hroot.
  destruct (String.eqb output_format "json"); eauto.
Qed.

Lemma no_candidates st :
  length (filter (dead_candidate cfg st) (elements (all_files st))) = 0
  ↔ ∀ f, f ∈ all_files st → is_special cfg f ∨ is_referenced st f.
Proof.
  rewrite length_zero_iff_nil. split.
  - intros Hnil f Hf%elem_of_elements.
    destruct (decide (is_special cfg f)); [by left|].
    destruct (decide (is_referenced st f)); [by right|].
    assert (f ∈ filter (dead_candidate cfg st) (elements (all_files st))) as Hin
      by (by apply list_elem_of_filter).
    rewrite Hnil in Hin. by apply elem_of_nil in Hin.
  - intros Hall. apply elem_of_nil_inv. intros f [[Hs Hr] Hf%elem_of_elements]%list_elem_of_filter.
    destruct (Hall f Hf); tauto.
Qed.

(** X11.  The exit status of [main].  It is 0, 1 or 130.  It is 130
    exactly when a [KeyboardInterrupt] reaches the [try] block, while
    the detector is at work or after the report is printed.  It is 0
    exactly when the run is not interrupted, the scan tracked at least
    one file and every tracked file is special or referenced.  A report
    is printed unless the run is interrupted before that or no file was
    tracked. *)
Theorem exit_status_zero_iff_no_candidate json_dumps path output_format signal :
  let st := scan_repository cfg fs path init in
  let printed := (main json_dumps cfg fs path output_format signal).1 in
  let status := (main json_dumps cfg fs path output_format signal).2 in
  (status = 0%Z ∨ status = 1%Z ∨ status = 130%Z)
  ∧ (status = 130%Z ↔
       signal = Some AtWork ∨ (signal = Some AfterPrint ∧ all_files st ≠ ∅))
  ∧ (status = 0%Z ↔
       signal = None
       ∧ all_files st ≠ ∅
       ∧ ∀ f, f ∈ all_files st → is_special cfg f ∨ is_referenced st f)
  ∧ (printed = None ↔ signal = Some AtWork ∨ all_files st = ∅).
Proof.
  intros st printed status. unfold printed, status, main. fold st.
  destruct signal as [[|]|]; cbn [fst snd].
  { split; [auto|]. split; [by split; auto|]. split; [|by split; auto].
    split; [done|]. by intros [? _]. }
  all: destruct (decide (all_files st = ∅)) as [Hempty|Hnonempty].
  1,3: unfold find_dead_files; rewrite bool_decide_true by done; cbn [fst snd].
  - split; [auto|]. split; [|split].
    + split; [done|]. by intros [?|[_ ?]].
    + split; [done|]. by intros [? _].
    + split; auto.
  - split; [auto|]. split; [|split].
    + split; [done|]. by intros [?|[? _]].
    + split; [done|]. by intros (_ & ? & _).
    + split; auto.
  - destruct (find_dead_files_ok st) as [d Hd]; [by constructor; constructor|done|].
    rewrite Hd.
    destruct (generate_report_ok json_dumps st d output_format
                (os_path.abspath (getcwd fs) path)) as [report ->];
      [apply scan_repository_root|].
    cbn [fst snd]. split; [auto|]. split; [|split].
    + split; auto.
    + split; [done|]. by intros [? _].
    + split; [done|]. by intros [?|?].
  - destruct (find_dead_files_ok st) as [d Hd]; [by constructor; constructor|done|].
    rewrite Hd.
    destruct (generate_report_ok json_dumps st d output_format
                (os_path.abspath (getcwd fs) path)) as [report ->];
      [apply scan_repository_root|].
    apply total_dead_count in Hd. rewrite Hd. cbn [fst snd].
    destruct (length _ =? 0) eqn:Hz.
    + apply Nat.eqb_eq in Hz. split; [auto|]. split; [|split].
      * split; [done|]. by intros [?|[? _]].
      * split; [|done]. intros _. split; [done|]. split; [done|]. by apply no_candidates.
      * split; [done|]. by intros [?|?].
    + apply Nat.eqb_neq in Hz. split; [auto|]. split; [|split].
      * split; [done|]. by intros [?|[? _]].
      * split; [done|]. intros (_ & _ & Hall). by apply no_candidates in Hall.
      * split; [done|]. by intros [?|?].
Qed.

(** X12.  Nothing to scan.  When no file passes the filters (the path is
    missing or not a directory, the directory is empty, everything is
    ignored or out of the size bounds), a run of [main] that is not
    interrupted prints no report and exits with status 1, the status of
    a run that found dead files; and no run prints a report. *)
Theorem nothing_to_scan_exits_with_one json_dumps path output_format :
  scan_order cfg fs path = [] →
  main json_dumps cfg fs path output_format None = (None, 1%Z)
  ∧ ∀ signal, (main json_dumps cfg fs path output_format signal).1 = None.
Proof.
  intros Hnone.
  assert (all_files (scan_repository cfg fs path init) = ∅) as Hempty.
  { rewrite scan_repository_all_files, Hnone. simpl. apply union_empty_l_L. }
  split; [|intros [[|]|]]; unfold main, find_dead_files;
    try rewrite bool_decide_true by done; done.
Qed.

Lemma filter_length_le {A} (P Q : A → Prop) `{!∀ x, Decision (P x)}
    `{!∀ x, Decision (Q x)} (l : list A) :
  (∀ x, P x → Q x) → length (filter P l) ≤ length (filter Q l).
Proof.
  intros HPQ. induction l as [|x l IH]; [done|]. rewrite !filter_cons.
  destruct (decide (P x)) as [HP|HP].
  - rewrite decide_True by auto. simpl. lia.
  - destruct (decide (Q x)); simpl; lia.
Qed.

(** X13.  A second scan never reports more.  When the same tree is
    scanned twice in a row, [find_dead_files] after the second scan
    reports at most as many paths as after the first. *)
Theorem second_scan_reports_no_more root_path d1 d2 :
  let st1 := scan_repository cfg fs root_path init in
  let st2 := scan_repository cfg fs root_path st1 in
  find_dead_files cfg fs st1 = Ok d1 → find_dead_files cfg fs st2 = Ok d2 →
  total_dead d2 ≤ total_dead d1.
Proof.
  intros st1 st2 ->%total_dead_count ->%total_dead_count.
  assert (all_files st2 = all_files st1) as ->.
  { unfold st2, st1. rewrite !scan_repository_all_files. simpl.
    by rewrite union_empty_l_L, union_idemp_L. }
  apply filter_length_le. intros f [Hs Hr]. split; [done|].
  intros Hin. apply Hr. unfold is_referenced in *.
  apply elem_of_dom in Hin as [s Hs1].
  assert (edges_nonempty st1) as Hne.
  { apply reachable_edges_nonempty with (cfg := cfg). by do 2 constructor. }
  destruct (set_choose_L s) as [x Hx]; [by eapply Hne|].
  destruct (scan_repository_grows cfg fs root_path st1) as [_ Hgrow].
  specialize (Hgrow f). rewrite Hs1 in Hgrow. simpl in Hgrow.
  apply Hgrow in Hx. fold st2 in Hx. apply elem_of_dom.
  destruct (file_references st2 !! f); [eauto|by apply elem_of_empty in Hx].
Qed.

End Totals.

(** ** The paths of tracked files *)

Section PathParts.
#[local] Arguments String.append !_ _ / : simpl nomatch.

Lemma has_sep_app a b : str.has_sep (a +:+ b) = str.has_sep a || str.has_sep b.
Proof. induction a as [|x a IH]; simpl; [done|]. by rewrite IH, orb_assoc. Qed.

Lemma basename_app_sep a c :
  str.has_sep c = false → os_path.basename (a +:+ String sep c) = c.
Proof.
  intros Hc. induction a as [|x a IH]; simpl.
  - by rewrite Hc.
  - rewrite has_sep_app. simpl. by rewrite orb_true_r.
Qed.

Lemma head_app_sep a c :
  str.has_sep c = false → os_path.head (a +:+ String sep c) = a +:+ "/".
Proof.
  intros Hc. induction a as [|x a IH]; simpl.
  - by rewrite Hc.
  - rewrite has_sep_app. simpl. rewrite orb_true_r. by rewrite IH.
Qed.

Lemma all_sep_app a b : str.all_sep (a +:+ b) = str.all_sep a && str.all_sep b.
Proof. induction a as [|x a IH]; simpl; [done|]. by rewrite IH, andb_assoc. Qed.

Lemma rstrip_sep_app_sep a :
  a ≠ "" → str.endswith_sep a = false → str.rstrip_sep (a +:+ "/") = a.
Proof.
  induction a as [|x a IH]; [done|]. intros _ Hend.
  destruct a as [|y a].
  - simpl in *. cbn. by rewrite Hend.
  - change (String x (String y a) +:+ "/") with (String x (String y a +:+ "/")).
    cbn [str.rstrip_sep]. rewrite IH; [done|done|].
    by rewrite endswith_sep_cons in Hend.
Qed.

Lemma all_sep_endswith a : a ≠ "" → str.all_sep a = true → str.endswith_sep a = true.
Proof.
  induction a as [|x a IH]; [done|]. intros _ [Hx Ha]%andb_true_iff.
  destruct a as [|y a]; [done|]. rewrite endswith_sep_cons by done. by apply IH.
Qed.

Lemma dirname_app_sep a c :
  a ≠ "" → str.endswith_sep a = false → str.has_sep c = false →
  os_path.dirname (a +:+ String sep c) = a.
Proof.
  intros Ha Hend Hc. unfold os_path.dirname. rewrite head_app_sep by done.
  assert (str.all_sep (a +:+ "/") = false) as Hall.
  { rewrite all_sep_app. apply andb_false_iff. left.
    destruct (str.all_sep a) eqn:E; [|done].
    apply all_sep_endswith in E; congruence. }
  rewrite Hall. destruct (String.eqb_spec (a +:+ "/") ""); [by destruct a|].
  simpl. by apply rstrip_sep_app_sep.
Qed.

Lemma path_of_snoc rs c :
  rs ≠ [] → path_of (rs ++ [c]) = path_of rs +:+ String sep c.
Proof. intros Hrs. unfold path_of. by rewrite join_snoc. Qed.

Lemma has_sep_valid c : valid_name c = true → str.has_sep c = false.
Proof. by intros (_ & _ & _ & ?)%valid_name_inv. Qed.

Lemma basename_path_of rs c :
  valid_name c = true → os_path.basename (path_of (rs ++ [c])) = c.
Proof.
  intros Hc%has_sep_valid. destruct rs as [|r rs].
  - unfold path_of. simpl. by rewrite Hc.
  - rewrite path_of_snoc by done. by apply basename_app_sep.
Qed.

Lemma dirname_path_of rs c :
  names_valid rs → valid_name c = true →
  os_path.dirname (path_of (rs ++ [c])) = path_of rs.
Proof.
  intros Hrs Hc%has_sep_valid. destruct rs as [|r rs].
  - unfold path_of, os_path.dirname. simpl. by rewrite Hc.
  - rewrite path_of_snoc by done. apply dirname_app_sep; [done| |done].
    by apply endswith_sep_path_of.
Qed.

Lemma join_app rs cs :
  rs ≠ [] → cs ≠ [] → str.join (rs ++ cs) = str.join rs +:+ String sep (str.join cs).
Proof.
  intros Hrs Hcs. induction rs as [|r rs IH]; [done|].
  destruct rs as [|r' rs].
  - simpl. by destruct cs.
  - change (str.join ((r :: r' :: rs) ++ cs))
      with (r +:+ String sep (str.join ((r' :: rs) ++ cs))).
    rewrite IH by done.
    change (str.join (r :: r' :: rs)) with (r +:+ String sep (str.join (r' :: rs))).
    by rewrite append_assoc.
Qed.

Lemma join_path_of_rel rs cs :
  names_valid rs → names_valid cs → cs ≠ [] →
  os_path.join (path_of rs) (str.join cs) = path_of (rs ++ cs).
Proof.
  intros Hrs Hcs Hne. destruct cs as [|c cs]; [done|].
  assert (str.startswith_sep (str.join (c :: cs)) = false) as Hstart.
  { destruct (join_head c cs Hcs) as (x & s & -> & Hx). simpl.
    by destruct (Ascii.eqb_spec x sep). }
  unfold os_path.join. rewrite Hstart.
  destruct rs as [|r rs]; [done|].
  rewrite endswith_sep_path_of by done.
  change (String.eqb (path_of (r :: rs)) "") with false. cbn [orb].
  unfold path_of. rewrite join_app by done. done.
Qed.

End PathParts.

Section TrackedPaths.
Context `{PyLib} (cfg : config) (fs : filesystem).
#[local] Arguments String.append !_ _ / : simpl nomatch.

(** X14.  Reported paths lead back to the files.  After a first scan of
    a well-formed tree from a canonical root, joining the root and a
    reported path gives a tracked file; its relative path is the
    reported one, and it is neither special nor referenced. *)
Theorem reported_paths_lead_back_to_files root_path d x :
  let root := os_path.abspath (getcwd fs) root_path in
  let st := scan_repository cfg fs root_path init in
  wf_node (fs_root fs) = true → is_canonical root = true →
  find_dead_files cfg fs st = Ok d →
  x ∈ unreferenced d ++ orphaned d ++ suspicious d →
  os_path.join root x ∈ all_files st
  ∧ os_path.relpath (getcwd fs) (os_path.join root x) root = Ok x
  ∧ dead_candidate cfg st (os_path.join root x).
Proof.
  intros root st Hwf Hcanon Hd Hx.
  assert (all_files st ≠ ∅) as Hne.
  { intros Hempty. unfold find_dead_files in Hd. by rewrite bool_decide_true in Hd. }
  destruct (well_tracked_classified cfg fs st) as (root' & d' & Hroot & Hd' & Hcl & _);
    [by apply scan_repository_well_tracked|done|].
  assert (root' = root) as ->.
  { unfold st in Hroot. rewrite scan_repository_root in Hroot. by injection Hroot. }
  assert (d' = d) as -> by congruence.
  assert (∃ f, f ∈ all_files st ∧ rel_str fs root f = x ∧ dead_candidate cfg st f)
    as (f & Hf & Hrel & Hdead).
  { rewrite !elem_of_app in Hx. destruct Hx as [Hx|[Hx|Hx]].
    - apply (cl_unreferenced _ _ _ _ _ Hcl) in Hx as (f & ? & ? & (? & ? & ?) & _).
      exists f. by repeat split.
    - apply (cl_orphaned _ _ _ _ _ Hcl) in Hx as (f & ? & ? & (? & ? & ?) & _).
      exists f. by repeat split.
    - apply (cl_suspicious _ _ _ _ _ Hcl) in Hx as (f & ? & ? & (? & ? & ?)).
      exists f. by repeat split. }
  apply is_canonical_path_of in Hcanon as (rs & Hrs & Hroot_eq).
  apply scan_repository_tracked in Hf as Ht; [|done].
  destruct Ht as [Ht|Ht]; [by apply elem_of_empty in Ht|].
  fold root in Ht. rewrite Hroot_eq in *.
  apply tracked_by_path_of in Ht as (cs & Hcs & Hcne & -> & Hrel'); [|done].
  rewrite Hrel' in Hrel. subst x.
  rewrite join_path_of_rel by done. split; [done|]. split; [|done].
  rewrite relpath_ok by done. by rewrite Hrel'.
Qed.

(** X15.  Directory and name of a tracked file.  After a first scan of
    a well-formed tree from a canonical root, every tracked path is
    [os.path.join top file] for a directory [top] that the walk reached
    and an entry name [file]; [os.path.dirname] gives back [top] and
    [os.path.basename] gives back [file].  So [find_dead_files] counts
    occupants per walked directory, and tests entry names for special
    files and entry points. *)
Theorem tracked_files_split_into_directory_and_name root_path f :
  let root := os_path.abspath (getcwd fs) root_path in
  wf_node (fs_root fs) = true → is_canonical root = true →
  f ∈ all_files (scan_repository cfg fs root_path init) →
  ∃ top file,
    walked cfg root top ∧ valid_name file = true
    ∧ f = os_path.join top file
    ∧ os_path.dirname f = top ∧ os_path.basename f = file.
Proof.
  intros root Hwf (rs & Hrs & Hroot)%is_canonical_path_of Hf.
  apply scan_repository_tracked in Hf as [Hf|Hf]; [by apply elem_of_empty in Hf| |done].
  fold root in Hf. destruct Hf as (ds & file & rel & size & Hds & Hfile & Hkept & -> & _).
  exists (join_all root ds), file.
  split; [by exists ds|]. split; [done|]. split; [done|].
  rewrite Hroot, join_all_path_of, join_path_of by (done || by apply Forall_app).
  split; [apply dirname_path_of|apply basename_path_of]; try done.
  by apply Forall_app.
Qed.

(** X16.  Tracked paths are in normal form.  After a first scan of a
    well-formed tree from a canonical root, every tracked path is
    absolute and [os.path.normpath] leaves it as it is: it is spelled
    the way [_resolve_reference] spells its candidates, which is what
    lets the test [resolved in self.all_files] succeed. *)
Theorem tracked_paths_are_normalised root_path f :
  let root := os_path.abspath (getcwd fs) root_path in
  wf_node (fs_root fs) = true → is_canonical root = true →
  f ∈ all_files (scan_repository cfg fs root_path init) →
  str.startswith_sep f = true ∧ os_path.normpath f = f.
Proof.
  intros root Hwf (rs & Hrs & Hroot)%is_canonical_path_of Hf.
  apply scan_repository_tracked in Hf as [Hf|Hf]; [by apply elem_of_empty in Hf| |done].
  fold root in Hf. rewrite Hroot in Hf.
  apply tracked_by_path_of in Hf as (cs & Hcs & _ & -> & _); [|done].
  split; [done|]. apply normpath_path_of. by apply Forall_app.
Qed.

Lemma join_relative top d :
  valid_name d = true → ∃ mid, os_path.join top d = top +:+ mid.
Proof.
  intros Hd%startswith_sep_valid. unfold os_path.join. rewrite Hd.
  destruct (_ || _); eauto.
Qed.

(** X17.  A root that matches an ignore pattern.  Directories are tested
    by their joined absolute path: when the absolute root has an ignore
    pattern in it as plain text, every subdirectory is pruned, and the
    tracked files all lie directly in the root. *)
Theorem root_matching_a_pattern_prunes_every_subdirectory root_path pattern f :
  let root := os_path.abspath (getcwd fs) root_path in
  wf_node (fs_root fs) = true →
  pattern ∈ ignore_patterns cfg → str.contains pattern root = true →
  f ∈ all_files (scan_repository cfg fs root_path init) →
  ∃ file, valid_name file = true ∧ f = os_path.join root file.
Proof.
  intros root Hwf Hpat Hcont Hf.
  apply scan_repository_tracked in Hf as [Hf|Hf]; [by apply elem_of_empty in Hf| |done].
  fold root in Hf. destruct Hf as (ds & file & rel & size & Hds & Hfile & Hkept & -> & _).
  destruct ds as [|d ds]; [by exists file|]. exfalso.
  specialize (Hkept 1). simpl in Hkept.
  apply Forall_cons in Hds as [Hd _].
  destruct (join_relative root d Hd) as [mid Hjoin].
  assert (_should_ignore_file cfg (os_path.join root d) = true) as Hign.
  { unfold _should_ignore_file. apply existsb_exists. exists pattern.
    split; [by apply list_elem_of_In|]. rewrite Hjoin, contains_app_l by done.
    apply orb_true_r. }
  rewrite Hkept in Hign; [done|lia].
Qed.

End TrackedPaths.

(** ** The walk order has no repetition *)

Section Repetition.
Context `{PyLib} (cfg : config) (fs : filesystem).
#[local] Arguments String.append !_ _ / : simpl nomatch.

Lemma file_names_subseteq es name : name ∈ file_names es → name ∈ es.*1.
Proof.
  induction es as [|[n x] es IH]; [done|]. cbn [file_names flat_map].
  rewrite elem_of_app. cbn [fmap list_fmap fst snd]. rewrite elem_of_cons.
  intros [Hn|Hn]; [|by right; apply IH].
  destruct x; [|by apply elem_of_nil in Hn]. apply list_elem_of_singleton in Hn. by left.
Qed.

Lemma file_names_NoDup es : NoDup es.*1 → NoDup (file_names es).
Proof.
  induction es as [|[n x] es IH]; [constructor|].
  cbn [fmap list_fmap fst]. intros [Hn Hes]%NoDup_cons.
  cbn [file_names flat_map snd fst]. fold (file_names es).
  destruct x; [|by apply IH]. simpl. apply NoDup_cons. split; [|by apply IH].
  by intros ?%file_names_subseteq.
Qed.

Lemma walk_order_dirs_kept root top es f :
  f ∈ walk_order_dirs cfg (walk_order cfg fs root) top es →
  ∃ d sub, (d, Dir sub) ∈ es
           ∧ _should_ignore_file cfg (os_path.join top d) = false
           ∧ f ∈ walk_order cfg fs root (Dir sub) (os_path.join top d).
Proof.
  induction es as [|[d child] es IH]; cbn [walk_order_dirs]; [by intros ?%elem_of_nil|].
  assert (f ∈ walk_order_dirs cfg (walk_order cfg fs root) top es →
          ∃ d0 sub, (d0, Dir sub) ∈ (d, child) :: es
                    ∧ _should_ignore_file cfg (os_path.join top d0) = false
                    ∧ f ∈ walk_order cfg fs root (Dir sub) (os_path.join top d0)) as Hrest.
  { intros (d0 & sub & Hin & Hf)%IH. exists d0, sub. split; [by right|done]. }
  destruct child as [|sub]; [done|].
  destruct (_should_ignore_file cfg (os_path.join top d)) eqn:Hign; [done|].
  rewrite elem_of_app. intros [Hf|Hf]; [|by apply Hrest].
  exists d, sub. split; [by left|done].
Qed.

(** The files of a walk from [path_of ts] are spelled [path_of (ts ++ cs)]
    for valid names [cs]. *)
Lemma walk_order_paths root n : ∀ ts f,
  wf_node n = true → names_valid ts →
  f ∈ walk_order cfg fs root n (path_of ts) →
  ∃ cs, cs ≠ [] ∧ names_valid cs ∧ f = path_of (ts ++ cs).
Proof.
  induction n as [size content|es IH] using node_induction; intros ts f Hwf Hts.
  { by intros ?%elem_of_nil. }
  cbn [walk_order]. rewrite elem_of_app. intros [Hf|Hf].
  - apply list_elem_of_filter in Hf as [_ (name & -> & Hname)%list_elem_of_fmap].
    apply (file_names_ok valid_name) in Hname; [|done].
    exists [name]. split; [done|]. split; [by apply Forall_singleton|].
    by apply join_path_of.
  - apply walk_order_dirs_kept in Hf as (d & sub & Hin & _ & Hf).
    rewrite Forall_forall in IH. specialize (IH _ Hin). cbn [snd] in IH.
    unfold wf_node in Hwf. cbn [names_ok] in Hwf. rewrite forallb_forall in Hwf.
    apply list_elem_of_In, Hwf in Hin as Hd. cbn [fst snd] in Hd.
    apply andb_true_iff in Hd as [Hd Hsub].
    rewrite join_path_of in Hf by done.
    apply IH in Hf as (cs & Hne & Hcs & ->); [|done|by apply Forall_app; split; [|apply Forall_singleton]].
    exists (d :: cs). split; [done|]. split; [by apply Forall_cons|].
    by rewrite <- app_assoc.
Qed.

(** A walk of a tree without repeated names comes to every file once. *)
Lemma walk_order_NoDup root n : ∀ ts,
  wf_node n = true → unique_names n = true → names_valid ts →
  NoDup (walk_order cfg fs root n (path_of ts)).
Proof.
  induction n as [size content|es IH] using node_induction; intros ts Hwf Huniq Hts.
  { constructor. }
  cbn [unique_names] in Huniq. apply andb_true_iff in Huniq as [Hnd Huniq].
  apply bool_decide_eq_true in Hnd.
  assert (∀ d sub f, (d, Dir sub) ∈ es →
            f ∈ walk_order cfg fs root (Dir sub) (os_path.join (path_of ts) d) →
            ∃ cs, cs ≠ [] ∧ names_valid cs ∧ valid_name d = true
                  ∧ f = path_of (ts ++ d :: cs)) as Hbelow.
  { intros d sub f Hin Hf.
    unfold wf_node in Hwf. cbn [names_ok] in Hwf. rewrite forallb_forall in Hwf.
    apply list_elem_of_In, Hwf in Hin as Hd. cbn [fst snd] in Hd.
    apply andb_true_iff in Hd as [Hd Hsub].
    rewrite join_path_of in Hf by done.
    apply walk_order_paths in Hf as (cs & Hne & Hcs & ->);
      [|done|by apply Forall_app; split; [|apply Forall_singleton]].
    exists cs. by rewrite <- app_assoc. }
  cbn [walk_order]. apply NoDup_app. split; [|split].
  - apply NoDup_filter, NoDup_fmap_2_strong; [|by apply file_names_NoDup].
    intros x y Hx%(file_names_ok valid_name) Hy%(file_names_ok valid_name) Heq; [|done..].
    rewrite !join_path_of in Heq by done.
    apply path_of_inj in Heq;
      [|by apply Forall_app; split; [|apply Forall_singleton]..].
    by apply app_inv_head in Heq as [= ->].
  - intros f [_ (name & -> & Hname)%list_elem_of_fmap]%list_elem_of_filter
      (d & sub & Hin & _ & Hf)%walk_order_dirs_kept.
    apply (file_names_ok valid_name) in Hname; [|done].
    apply Hbelow in Hf as (cs & Hne & Hcs & Hd & Heq); [|done].
    rewrite join_path_of in Heq by done.
    apply path_of_inj in Heq.
    + apply app_inv_head in Heq. by destruct cs.
    + by apply Forall_app; split; [|apply Forall_singleton].
    + apply Forall_app; split; [done|]. by apply Forall_cons.
  - assert (Forall (λ e, valid_name e.1 = true ∧ wf_node e.2 = true) es) as Hwfs.
    { unfold wf_node in Hwf. cbn [names_ok] in Hwf. rewrite forallb_forall in Hwf.
      apply Forall_forall. intros e He%list_elem_of_In%Hwf. by apply andb_true_iff. }
    clear Hwf. revert Hnd Huniq Hbelow Hwfs.
    induction IH as [|[d child] es' Hc _ IHes]; intros Hnd Huniq Hbelow Hwfs;
      cbn [walk_order_dirs]; [constructor|].
    cbn [fmap list_fmap fst] in Hnd. apply NoDup_cons in Hnd as [Hd Hnd].
    cbn [forallb snd] in Huniq. apply andb_true_iff in Huniq as [Hu Huniq].
    apply Forall_cons in Hwfs as [[Hvd Hwc] Hwfs]. cbn [fst snd] in *.
    assert (NoDup (walk_order_dirs cfg (walk_order cfg fs root) (path_of ts) es')) as Hrest.
    { apply IHes; [done..| |done]. intros d0 sub f Hin. apply Hbelow. by right. }
    destruct child as [|sub]; [done|].
    destruct (_should_ignore_file cfg _) eqn:Hign; [done|].
    apply NoDup_app. split; [|split; [|done]].
    + rewrite join_path_of by done. apply Hc; [done..|].
      by apply Forall_app; split; [|apply Forall_singleton].
    + intros f Hf (d' & sub' & Hin' & _ & Hf')%walk_order_dirs_kept.
      apply Hbelow in Hf as (cs & _ & Hcs & _ & ->); [|by left].
      apply Hbelow in Hf' as (cs' & _ & Hcs' & Hvd' & Heq); [|by right].
      apply path_of_inj in Heq;
        [|by apply Forall_app; split; [|apply Forall_cons]..].
      apply app_inv_head in Heq as [= -> _]. apply Hd.
      apply list_elem_of_fmap. by exists (d', Dir sub').
Qed.

Lemma lookup_entry_unique name es n :
  forallb (λ e, unique_names e.2) es = true →
  lookup_entry name es = Some n → unique_names n = true.
Proof.
  induction es as [|[m x] es IH]; simpl; [done|].
  intros [Hx Hes]%andb_true_iff. destruct (String.eqb name m); [by intros [= <-]|auto].
Qed.

Lemma resolve_step_unique stk comp stk' :
  Forall (λ n, unique_names n = true) stk →
  resolve_step (Some stk) comp = Some stk' →
  Forall (λ n, unique_names n = true) stk'.
Proof.
  intros Hstk. unfold resolve_step. destruct stk as [|[|es] up]; [done..|].
  destruct (_ || _); [by intros [= <-]|].
  apply Forall_cons in Hstk as [Hes Hup].
  destruct (String.eqb comp "..").
  { destruct up; intros [= <-]; [by apply Forall_singleton|done]. }
  destruct (lookup_entry comp es) as [n|] eqn:Hlook; [|done]. intros [= <-].
  apply Forall_cons. split; [|by apply Forall_cons].
  cbn [unique_names] in Hes. apply andb_true_iff in Hes as [_ Hes].
  by eapply lookup_entry_unique.
Qed.

Lemma resolve_unique path n :
  unique_names (fs_root fs) = true → resolve fs path = Some n → unique_names n = true.
Proof.
  intros Hroot. unfold resolve. destruct (String.eqb path ""); [done|].
  set (p := if str.startswith_sep path then path else os_path.join (getcwd fs) path).
  assert (∀ comps stk stk',
            Forall (λ n, unique_names n = true) stk →
            fold_left resolve_step comps (Some stk) = Some stk' →
            Forall (λ n, unique_names n = true) stk') as Hloop.
  { induction comps as [|c comps IH]; intros stk stk' Hstk; cbn [fold_left].
    - by intros [= <-].
    - destruct (resolve_step (Some stk) c) as [stk1|] eqn:Hstep;
        [|by rewrite resolve_loop_None].
      apply IH. by eapply resolve_step_unique. }
  destruct (fold_left resolve_step (str.split p) (Some [fs_root fs])) as [[|m stk]|] eqn:Hres;
    [done| |done].
  intros [= <-]. apply Hloop in Hres; [|by apply Forall_singleton].
  by apply Forall_cons in Hres as [? _].
Qed.

Lemma scan_order_NoDup root_path :
  wf_node (fs_root fs) = true → unique_names (fs_root fs) = true →
  is_canonical (os_path.abspath (getcwd fs) root_path) = true →
  NoDup (scan_order cfg fs root_path).
Proof.
  intros Hwf Huniq (rs & Hrs & Hroot)%is_canonical_path_of. unfold scan_order.
  destruct (resolve fs _) as [n|] eqn:Hres; [|constructor].
  rewrite Hroot at 2. apply walk_order_NoDup; [|by eapply resolve_unique|done].
  by eapply (resolve_ok fs valid_name).
Qed.

(** In a list without repetition, [g] before [f] excludes [f] before [g]. *)
Lemma NoDup_before_after (l l1 l2 l1' l2' : list string) f g :
  NoDup l → l = l1 ++ f :: l2 → l = l1' ++ g :: l2' → g ∈ l1 → f ∈ l1' → False.
Proof.
  intros Hnd Hf Hg Hgin Hfin.
  apply list_elem_of_split in Hgin as (a & b & ->).
  apply list_elem_of_lookup in Hfin as (i & Hi).
  assert (i < length l1') as Hlt by (by eapply lookup_lt_Some).
  assert (l !! length a = Some g) as Hg1.
  { rewrite Hf, <- !app_assoc. by rewrite lookup_app_r, Nat.sub_diag by lia. }
  assert (l !! length l1' = Some g) as Hg2.
  { rewrite Hg. by rewrite lookup_app_r, Nat.sub_diag by lia. }
  assert (l !! i = Some f) as Hf1.
  { rewrite Hg. by rewrite lookup_app_l. }
  assert (l !! length (a ++ g :: b) = Some f) as Hf2.
  { rewrite Hf. by rewrite lookup_app_r, Nat.sub_diag by lia. }
  pose proof (NoDup_lookup _ _ _ _ Hnd Hg1 Hg2) as Heq1.
  pose proof (NoDup_lookup _ _ _ _ Hnd Hf1 Hf2) as Heq2.
  rewrite length_app in Heq2. simpl in Heq2. lia.
Qed.

(** X18.  Two files that refer to each other.  After a first scan of a
    well-formed tree in which no directory lists a name twice, the graph
    never has both edges between two distinct files: the one the walk
    comes to first is not recorded as a referrer of the other. *)
Theorem mutual_references_are_never_both_recorded root_path f g :
  let st := scan_repository cfg fs root_path init in
  wf_node (fs_root fs) = true → unique_names (fs_root fs) = true →
  is_canonical (os_path.abspath (getcwd fs) root_path) = true →
  edge st g f → edge st f g → f = g.
Proof.
  intros st Hwf Huniq Hcanon.
  intros [(s & Hs & _)|(l1 & l2 & Hl & _ & Hin)]%scan_repository_edges.
  { simpl in Hs. by rewrite lookup_empty in Hs. }
  intros [(s & Hs & _)|(l1' & l2' & Hl' & _ & Hin')]%scan_repository_edges.
  { simpl in Hs. by rewrite lookup_empty in Hs. }
  destruct Hin as [Hin|[Hin|Hin]]; [by apply elem_of_empty in Hin| |done].
  destruct Hin' as [Hin'|[Hin'|Hin']]; [by apply elem_of_empty in Hin'| |done].
  destruct (NoDup_before_after (scan_order cfg fs root_path) l1 l2 l1' l2' f g); try done.
  by apply scan_order_NoDup.
Qed.

End Repetition.

(** ** Every file that passes is tracked *)

Section Complete.
Context `{PyLib} (cfg : config) (fs : filesystem).
#[local] Arguments String.append !_ _ / : simpl nomatch.

Lemma resolve_loop_descend cs : ∀ n up,
  names_valid cs →
  match fold_left resolve_step cs (Some (n :: up)) with
  | Some (m :: _) => Some m
  | _ => None
  end = descend n cs.
Proof.
  induction cs as [|c cs IH]; intros n up Hcs; cbn [fold_left descend]; [done|].
  apply Forall_cons in Hcs as [Hc Hcs].
  destruct (valid_name_inv _ Hc) as (Hne & Hdot & Hdd & _).
  unfold resolve_step at 2. destruct n as [|es]; [by rewrite resolve_loop_None|].
  destruct (String.eqb_spec c ""); [done|].
  destruct (String.eqb_spec c "."); [done|].
  destruct (String.eqb_spec c ".."); [done|]. simpl.
  destruct (lookup_entry c es) as [child|]; [by apply IH|by rewrite resolve_loop_None].
Qed.

(** Resolving a canonical path is descending from the root. *)
Lemma resolve_path_of es cs :
  fs_root fs = Dir es → names_valid cs → resolve fs (path_of cs) = descend (Dir es) cs.
Proof.
  intros Hroot Hcs. rewrite resolve_absolute by done. unfold path_of.
  rewrite split_cons_sep. cbn [fold_left]. rewrite Hroot, resolve_step_skip.
  destruct cs as [|c cs]; [done|].
  rewrite split_join by done. by apply resolve_loop_descend.
Qed.

Lemma descend_app cs cs' : ∀ n,
  descend n (cs ++ cs') = match descend n cs with
                          | Some m => descend m cs'
                          | None => None
                          end.
Proof.
  induction cs as [|c cs IH]; intros n; [done|]. simpl.
  destruct n as [|es]; [done|]. destruct (lookup_entry c es); [apply IH|done].
Qed.

Lemma lookup_entry_elem_of name es n : lookup_entry name es = Some n → (name, n) ∈ es.
Proof.
  induction es as [|[m x] es IH]; simpl; [done|].
  destruct (String.eqb_spec name m) as [->|]; [intros [= ->]; by left|].
  intros ?%IH. by right.
Qed.

Lemma file_names_elem_of name size content es :
  (name, File size content) ∈ es → name ∈ file_names es.
Proof.
  intros Hin. unfold file_names. apply list_elem_of_In, in_flat_map.
  exists (name, File size content). split; [by apply list_elem_of_In|]. by left.
Qed.

Lemma walk_order_dirs_intro root top es d sub f :
  (d, Dir sub) ∈ es → _should_ignore_file cfg (os_path.join top d) = false →
  f ∈ walk_order cfg fs root (Dir sub) (os_path.join top d) →
  f ∈ walk_order_dirs cfg (walk_order cfg fs root) top es.
Proof.
  intros Hin Hign Hf. induction es as [|[d' child] es IH]; [by apply elem_of_nil in Hin|].
  cbn [walk_order_dirs]. apply elem_of_cons in Hin as [[= <- <-]|Hin].
  - rewrite Hign. apply elem_of_app. by left.
  - specialize (IH Hin). destruct child; [done|].
    destruct (_should_ignore_file cfg (os_path.join top d')); [done|].
    apply elem_of_app. by right.
Qed.

(** A file that the names [ds ++ [file]] lead to through kept
    directories, and that passes, is among the files of the walk. *)
Lemma walk_order_complete root ds : ∀ n ts file size content,
  names_valid ts → names_valid ds → valid_name file = true →
  descend n (ds ++ [file]) = Some (File size content) →
  dirs_kept cfg (path_of ts) ds →
  passes cfg fs root (path_of (ts ++ ds ++ [file])) = true →
  path_of (ts ++ ds ++ [file]) ∈ walk_order cfg fs root n (path_of ts).
Proof.
  induction ds as [|d ds IH]; intros n ts file size content Hts Hds Hfile Hdesc Hkept Hpass.
  - simpl in Hdesc. destruct n as [|es]; [done|].
    destruct (lookup_entry file es) as [child|] eqn:Hlook; [|done].
    injection Hdesc as ->. apply lookup_entry_elem_of, file_names_elem_of in Hlook.
    cbn [walk_order]. apply elem_of_app. left. apply list_elem_of_filter. split; [done|].
    apply list_elem_of_fmap. exists file. split; [|done]. simpl.
    by rewrite join_path_of.
  - apply Forall_cons in Hds as [Hd Hds].
    cbn [app descend] in Hdesc. destruct n as [|es]; [done|].
    destruct (lookup_entry d es) as [child|] eqn:Hlook; [|done].
    destruct child as [|sub]; [by destruct ds|].
    apply lookup_entry_elem_of in Hlook.
    assert (_should_ignore_file cfg (os_path.join (path_of ts) d) = false) as Hign.
    { apply (Hkept 1). simpl. lia. }
    cbn [walk_order]. apply elem_of_app. right.
    eapply walk_order_dirs_intro; [done..|].
    rewrite join_path_of by done.
    replace (ts ++ (d :: ds) ++ [file]) with ((ts ++ [d]) ++ ds ++ [file])
      by (by rewrite <- !app_assoc).
    eapply IH; try done.
    + by apply Forall_app; split; [|apply Forall_singleton].
    + intros k Hk. rewrite <- join_path_of by done.
      specialize (Hkept (S k)). simpl in Hkept. apply Hkept. lia.
    + by rewrite <- !app_assoc.
Qed.

Lemma tracked_by_passes root f : tracked_by cfg fs root f → passes cfg fs root f = true.
Proof.
  intros (ds & file & rel & size & _ & _ & _ & _ & Hrel & Hign & Hsize & Hmin & Hmax).
  unfold passes. rewrite Hrel, Hign, Hsize. simpl.
  apply negb_true_iff, orb_false_iff. split; [by apply Z.ltb_ge|].
  rewrite Z.gtb_ltb. by apply Z.ltb_ge.
Qed.

Lemma resolve_file_root size content p :
  fs_root fs = File size content → resolve fs p = None.
Proof.
  intros HR. unfold resolve. destruct (String.eqb p ""); [done|].
  set (q := if str.startswith_sep p then p else os_path.join (getcwd fs) p).
  destruct (str.split q) as [|c cs] eqn:Hq; [by apply split_nonempty in Hq|].
  cbn [fold_left]. rewrite HR. cbn [resolve_step]. by rewrite resolve_loop_None.
Qed.

Lemma scan_order_complete root_path f :
  is_canonical (os_path.abspath (getcwd fs) root_path) = true →
  tracked_by cfg fs (os_path.abspath (getcwd fs) root_path) f →
  f ∈ scan_order cfg fs root_path.
Proof.
  intros (rs & Hrs & Hroot)%is_canonical_path_of Ht.
  pose proof (tracked_by_passes _ _ Ht) as Hpass.
  destruct Ht as (ds & file & rel & size & Hds & Hfile & Hkept & -> & _ & _ & Hsize & _).
  unfold scan_order. rewrite Hroot in *.
  rewrite join_all_path_of, join_path_of in * by (done || by apply Forall_app).
  unfold getsize in Hsize.
  destruct (fs_root fs) as [|es] eqn:HR.
  { by rewrite (resolve_file_root _ _ _ HR) in Hsize. }
  assert (names_valid ((rs ++ ds) ++ [file])) as Hall.
  { apply Forall_app. split; [by apply Forall_app|by apply Forall_singleton]. }
  rewrite (resolve_path_of es) in Hsize by done.
  rewrite (resolve_path_of es) by done.
  rewrite <- app_assoc, descend_app in Hsize.
  destruct (descend (Dir es) rs) as [n|]; [|done].
  destruct (descend n (ds ++ [file])) as [[size' content|sub]|] eqn:Hdesc; [|done..].
  rewrite <- app_assoc in Hpass |- *.
  by eapply walk_order_complete.
Qed.

(** X19.  The tracked universe, exactly.  After a first scan of a
    well-formed tree from a canonical root, a path is tracked if and
    only if it names a regular file below the root that is reached
    through kept directories and passes the ignore and size tests
    ([tracked_by]). *)
Theorem tracked_exactly_when_filters_pass root_path f :
  let root := os_path.abspath (getcwd fs) root_path in
  wf_node (fs_root fs) = true → is_canonical root = true →
  f ∈ all_files (scan_repository cfg fs root_path init) ↔ tracked_by cfg fs root f.
Proof.
  intros root Hwf Hcanon. split.
  - intros [Hf|Hf]%scan_repository_tracked; [by apply elem_of_empty in Hf|done|done].
  - intros Ht%scan_order_complete; [|done].
    rewrite scan_repository_all_files. apply elem_of_union_r. by apply elem_of_list_to_set.
Qed.

End Complete.

(** ** The text report *)

Section TextReport.
#[local] Arguments String.append !_ _ / : simpl nomatch.

Lemma bullet_line_inj x y : bullet_line x = bullet_line y → x = y.
Proof. unfold bullet_line. simpl. by intros [= ->]. Qed.

Lemma sorted_elem_of x files : x ∈ sorted files ↔ x ∈ files.
Proof. unfold sorted. by rewrite merge_sort_Permutation. Qed.

Lemma report_category_bullets category files x :
  (∃ c s, str.upper category = String c s ∧ c ≠ " "%char) →
  bullet_line x ∈ report_category category files ↔ x ∈ files.
Proof.
  intros (c & s & Hup & Hc). unfold report_category. case_bool_decide as Hnil.
  { subst. by rewrite !elem_of_nil. }
  rewrite Hup, !elem_of_app, !elem_of_cons, !elem_of_nil, list_elem_of_fmap.
  split.
  - intros [[Heq|[Heq|[]]]|[(y & ->%bullet_line_inj & Hy)|[Heq|[]]]];
      [| |by apply sorted_elem_of|done].
    + unfold bullet_line in Heq. simpl in Heq. by injection Heq as <-.
    + by vm_compute in Heq.
  - intros Hx. right; left. exists x. by rewrite sorted_elem_of.
Qed.

(** X20.  The text report lists what the classification holds.  The
    line of a path is among the lines of the report exactly when the
    path is in one of the three lists, and the summary line states how
    many entries the lists have. *)
Theorem text_report_lists_the_classification st root d :
  (∀ x, bullet_line x ∈ report_lines st root d
        ↔ x ∈ unreferenced d ++ orphaned d ++ suspicious d)
  ∧ ("Total potentially dead files: "
       +:+ pretty (length (unreferenced d ++ orphaned d ++ suspicious d)))
    ∈ report_lines st root d.
Proof.
  split.
  - intros x. unfold report_lines, items. cbn [flat_map fst snd].
    rewrite app_nil_r, !elem_of_app, !elem_of_cons, elem_of_nil.
    rewrite !report_category_bullets by (vm_compute; eexists _, _; split; [done|done]).
    unfold bullet_line. simpl. split.
    + intros [Hfix|[Hcat|Hfoot]].
      * repeat (destruct Hfix as [Hfix|Hfix]; [discriminate Hfix|]). done.
      * tauto.
      * destruct (total_dead d =? 0); rewrite ?elem_of_cons, elem_of_nil in Hfoot;
          repeat (destruct Hfoot as [Hfoot|Hfoot]; [discriminate Hfoot|]); done.
    + tauto.
  - rewrite !length_app, Nat.add_assoc.
    replace (length (unreferenced d) + length (orphaned d) + length (suspicious d))
      with (total_dead d) by (unfold total_dead, items; simpl; lia).
    unfold report_lines. apply elem_of_app. left.
    rewrite !elem_of_cons. do 7 right. by left.
Qed.

End TextReport.

(** ** The walk is top-down *)

Section TopDown.
Context `{PyLib} (cfg : config) (fs : filesystem).
#[local] Arguments String.append !_ _ / : simpl nomatch.

Ltac valid_names :=
  unfold names_valid;
  repeat first [assumption | apply Forall_app_2 | apply Forall_cons_2 | apply Forall_nil_2];
  try done.

Lemma walk_order_dirs_split root top es d sub :
  (d, Dir sub) ∈ es → _should_ignore_file cfg (os_path.join top d) = false →
  ∃ pre post,
    walk_order_dirs cfg (walk_order cfg fs root) top es
    = pre ++ walk_order cfg fs root (Dir sub) (os_path.join top d) ++ post.
Proof.
  intros Hin Hign. induction es as [|[d' child] es IH]; [by apply elem_of_nil in Hin|].
  cbn [walk_order_dirs]. apply elem_of_cons in Hin as [[= <- <-]|Hin].
  - rewrite Hign. by exists [], (walk_order_dirs cfg (walk_order cfg fs root) top es).
  - destruct (IH Hin) as (pre & post & ->). destruct child as [|sub']; [by eauto|].
    destruct (_should_ignore_file cfg (os_path.join top d')); [by eauto|].
    exists (walk_order cfg fs root (Dir sub') (os_path.join top d') ++ pre), post.
    by rewrite <- !app_assoc.
Qed.

Lemma NoDup_fst_inj {A B} (l : list (A * B)) x y1 y2 :
  NoDup l.*1 → (x, y1) ∈ l → (x, y2) ∈ l → y1 = y2.
Proof.
  induction l as [|[a b] l IH]; [by intros _ ?%elem_of_nil|].
  cbn [fmap list_fmap fst]. intros [Ha Hl]%NoDup_cons.
  rewrite !elem_of_cons. intros [[= -> ->]|H1] [[= ->]|H2]; [done| | |by apply IH].
  - destruct Ha. apply list_elem_of_fmap. by exists (a, y2).
  - simplify_eq. destruct Ha. apply list_elem_of_fmap. by exists (a, y1).
Qed.

Lemma wf_entry es d child :
  wf_node (Dir es) = true → (d, child) ∈ es → valid_name d = true ∧ wf_node child = true.
Proof.
  unfold wf_node. cbn [names_ok]. rewrite forallb_forall.
  intros Hwf Hin%list_elem_of_In%Hwf. by apply andb_true_iff.
Qed.

Lemma unique_entry es d child :
  unique_names (Dir es) = true → (d, child) ∈ es → unique_names child = true.
Proof.
  cbn [unique_names]. intros [_ Hall]%andb_true_iff Hin.
  rewrite forallb_forall in Hall. by apply list_elem_of_In, Hall in Hin.
Qed.

(** A file directly in a directory comes before every file below one of
    the subdirectories of that directory. *)
Lemma walk_order_top_down root ds : ∀ n ts file d cs,
  wf_node n = true → unique_names n = true →
  names_valid ts → names_valid ds → valid_name file = true →
  names_valid (d :: cs) → cs ≠ [] →
  path_of (ts ++ ds ++ [file]) ∈ walk_order cfg fs root n (path_of ts) →
  path_of (ts ++ ds ++ d :: cs) ∈ walk_order cfg fs root n (path_of ts) →
  ∃ l1 l2, walk_order cfg fs root n (path_of ts) = l1 ++ path_of (ts ++ ds ++ d :: cs) :: l2
           ∧ path_of (ts ++ ds ++ [file]) ∈ l1.
Proof.
  induction ds as [|d0 ds IH]; intros n ts file d cs Hwf Huniq Hts Hds Hfile Hdcs Hcs.
  - destruct n as [|es]; [by intros ?%elem_of_nil|].
    cbn [walk_order app]. rewrite !elem_of_app. intros Hf Hr.
    assert (∀ name, name ∈ file_names es → valid_name name = true) as Hnames.
    { intros name. by apply (file_names_ok valid_name). }
    assert (∀ x, x ∈ walk_order_dirs cfg (walk_order cfg fs root) (path_of ts) es →
              ∃ d' cs', cs' ≠ [] ∧ names_valid (d' :: cs') ∧ x = path_of (ts ++ d' :: cs'))
      as Hdeep.
    { intros x (d' & sub & Hin & _ & Hx)%walk_order_dirs_kept.
      destruct (wf_entry _ _ _ Hwf Hin) as [Hd' Hsub].
      rewrite join_path_of in Hx by done.
      apply walk_order_paths in Hx as (cs' & Hne & Hcs' & ->);
        [|done|valid_names].
      exists d', cs'. split; [done|]. split; [by apply Forall_cons|].
      by rewrite <- app_assoc. }
    destruct Hf as [Hf|Hf].
    2:{ apply Hdeep in Hf as (d' & cs' & Hne & Hv & Heq).
        apply path_of_inj in Heq;
          [|valid_names..].
        apply app_inv_head in Heq. by destruct cs'. }
    destruct Hr as [Hr|Hr].
    { apply list_elem_of_filter in Hr as [_ (name & Heq & Hname%Hnames)%list_elem_of_fmap].
      rewrite join_path_of in Heq by done.
      apply path_of_inj in Heq;
        [|valid_names..].
      apply app_inv_head in Heq. by destruct cs. }
    apply list_elem_of_split in Hr as (b1 & b2 & ->).
    match goal with
    | |- ∃ _ _, ?A ++ _ = _ ∧ _ => exists (A ++ b1), b2
    end.
    split; [by rewrite <- app_assoc|]. apply elem_of_app. by left.
  - destruct n as [|es]; [by intros ?%elem_of_nil|].
    apply Forall_cons in Hds as [Hd0 Hds].
    cbn [walk_order]. rewrite !elem_of_app. intros Hf Hr.
    assert (∀ x cs0, names_valid cs0 → cs0 ≠ [] →
              x = path_of (ts ++ d0 :: cs0) →
              x ∈ filter (λ file_path, passes cfg fs root file_path = true)
                    (os_path.join (path_of ts) <$> file_names es)
              ∨ x ∈ walk_order_dirs cfg (walk_order cfg fs root) (path_of ts) es →
              ∃ sub, (d0, Dir sub) ∈ es
                     ∧ _should_ignore_file cfg (os_path.join (path_of ts) d0) = false
                     ∧ x ∈ walk_order cfg fs root (Dir sub) (path_of (ts ++ [d0])))
      as Hsub.
    { intros x cs0 Hcs0 Hne -> [Hx|Hx].
      - apply list_elem_of_filter in Hx as [_ (name & Heq & Hname)%list_elem_of_fmap].
        apply (file_names_ok valid_name) in Hname; [|done].
        rewrite join_path_of in Heq by done.
        apply path_of_inj in Heq;
          [|valid_names..].
        apply app_inv_head in Heq. by destruct cs0.
      - apply walk_order_dirs_kept in Hx as (d' & sub & Hin & Hign & Hx).
        destruct (wf_entry _ _ _ Hwf Hin) as [Hd' Hwsub].
        rewrite join_path_of in Hx by done.
        pose proof Hx as Hx'.
        apply walk_order_paths in Hx' as (cs' & Hne' & Hcs' & Heq);
          [|done|valid_names].
        rewrite <- app_assoc in Heq.
        apply path_of_inj in Heq;
          [|valid_names..].
        apply app_inv_head in Heq. cbn [app] in Heq. injection Heq as <- _.
        by exists sub. }
    assert (names_valid (ds ++ [file])) as Hv1 by valid_names.
    assert (names_valid (ds ++ d :: cs)) as Hv2 by valid_names.
    assert (ds ++ [file] ≠ []) as Hn1 by (by destruct ds).
    assert (ds ++ d :: cs ≠ []) as Hn2 by (by destruct ds).
    destruct (Hsub _ (ds ++ [file]) Hv1 Hn1 eq_refl Hf) as (sub & Hin & Hign & Hf').
    destruct (Hsub _ (ds ++ d :: cs) Hv2 Hn2 eq_refl Hr) as (sub' & Hin' & _ & Hr').
    assert (sub' = sub) as ->.
    { cbn [unique_names] in Huniq. apply andb_true_iff in Huniq as [Hnd%bool_decide_eq_true _].
      assert (Dir sub' = Dir sub) as [= ->]; [|done].
      by eapply (NoDup_fst_inj es d0). }
    destruct (wf_entry _ _ _ Hwf Hin) as [_ Hwsub].
    pose proof (unique_entry _ _ _ Huniq Hin) as Husub.
    destruct (IH (Dir sub) (ts ++ [d0]) file d cs) as (l1 & l2 & HW & Hl1); try done.
    { valid_names. }
    { by rewrite <- app_assoc. }
    { by rewrite <- app_assoc. }
    destruct (walk_order_dirs_split root (path_of ts) es d0 sub Hin Hign)
      as (pre & post & ->).
    rewrite join_path_of, HW by done. rewrite <- !app_assoc in *. cbn [app] in *.
    match goal with
    | |- ∃ _ _, ?A ++ _ = _ ∧ _ => exists (A ++ pre ++ l1), (l2 ++ post)
    end.
    split; [by rewrite <- !app_assoc|]. rewrite !elem_of_app. auto.
Qed.

Lemma scan_order_top_down root_path ds file d cs :
  let root := os_path.abspath (getcwd fs) root_path in
  let st := scan_repository cfg fs root_path init in
  let top := join_all root ds in
  wf_node (fs_root fs) = true → unique_names (fs_root fs) = true →
  is_canonical root = true →
  names_valid ds → valid_name file = true → names_valid (d :: cs) → cs ≠ [] →
  os_path.join top file ∈ all_files st → join_all top (d :: cs) ∈ all_files st →
  os_path.join top file ≠ join_all top (d :: cs)
  ∧ ∃ l1 l2, scan_order cfg fs root_path = l1 ++ join_all top (d :: cs) :: l2
             ∧ os_path.join top file ∈ l1.
Proof.
  intros root st top Hwf Huniq (rs & Hrs & Hroot)%is_canonical_path_of
    Hds Hfile Hdcs Hcs Hf Hr.
  unfold st in Hf, Hr. rewrite scan_repository_all_files in Hf, Hr.
  rewrite elem_of_union, elem_of_list_to_set in Hf, Hr.
  destruct Hf as [Hf|Hf]; [by apply elem_of_empty in Hf|].
  destruct Hr as [Hr|Hr]; [by apply elem_of_empty in Hr|].
  unfold top in *. unfold scan_order in *. fold root in Hf, Hr |- *.
  assert (names_valid (rs ++ ds)) as Hrsds by valid_names.
  assert (os_path.join (join_all root ds) file = path_of (rs ++ ds ++ [file])) as Ef.
  { by rewrite Hroot, join_all_path_of, join_path_of, <- app_assoc. }
  assert (join_all (join_all root ds) (d :: cs) = path_of (rs ++ ds ++ d :: cs)) as Er.
  { by rewrite Hroot, !join_all_path_of, <- app_assoc. }
  rewrite Ef, Er in *. split.
  { intros Heq%path_of_inj; [|valid_names..].
    apply app_inv_head, app_inv_head in Heq. by destruct cs. }
  destruct (resolve fs root) as [n|] eqn:Hres; [|by apply elem_of_nil in Hf].
  rewrite Hroot in Hf, Hr |- *.
  apply walk_order_top_down; try done.
  - by eapply (resolve_ok fs valid_name).
  - by eapply resolve_unique.
Qed.

(** X21.  References up the tree are recorded.  After a first scan of a
    well-formed tree in which no directory lists a name twice, take a
    tracked file [target] that lies directly in a walked directory
    [top] and a tracked file [referrer] below a subdirectory of [top].
    The graph has [referrer] as a referrer of [target] exactly when a
    reference in the text of [referrer] resolves to [target]: the walk
    is top-down, so [target] is tracked by the time [referrer] is
    read. *)
Theorem references_up_the_tree_are_recorded root_path ds file d cs :
  let root := os_path.abspath (getcwd fs) root_path in
  let st := scan_repository cfg fs root_path init in
  let top := join_all root ds in
  let target := os_path.join top file in
  let referrer := join_all top (d :: cs) in
  wf_node (fs_root fs) = true → unique_names (fs_root fs) = true →
  is_canonical root = true →
  names_valid ds → valid_name file = true → names_valid (d :: cs) → cs ≠ [] →
  target ∈ all_files st → referrer ∈ all_files st →
  edge st target referrer ↔ target ∈ outgoing cfg fs root referrer.
Proof.
  intros root st top target referrer Hwf Huniq Hcanon Hds Hfile Hdcs Hcs Ht Hr.
  destruct (scan_order_top_down root_path ds file d cs) as (_ & l1 & l2 & Hl & Hin);
    try done.
  unfold st. rewrite first_scan_edges. fold root. split.
  - by intros (_ & _ & _ & Hout & _).
  - intros Hout. exists l1, l2. auto.
Qed.

(** X22.  References down the tree are dropped.  The same situation the
    other way round: a tracked file directly in [top] is never recorded
    as a referrer of a tracked file below a subdirectory of [top],
    whatever its text says, because that file is not tracked yet when
    the reference is tested. *)
Theorem references_down_the_tree_are_dropped root_path ds file d cs :
  let root := os_path.abspath (getcwd fs) root_path in
  let st := scan_repository cfg fs root_path init in
  let top := join_all root ds in
  let referrer := os_path.join top file in
  let target := join_all top (d :: cs) in
  wf_node (fs_root fs) = true → unique_names (fs_root fs) = true →
  is_canonical root = true →
  names_valid ds → valid_name file = true → names_valid (d :: cs) → cs ≠ [] →
  referrer ∈ all_files st → target ∈ all_files st →
  ¬ edge st target referrer.
Proof.
  intros root st top referrer target Hwf Huniq Hcanon Hds Hfile Hdcs Hcs Hr Ht.
  destruct (scan_order_top_down root_path ds file d cs) as (Hne & l1 & l2 & Hl & Hin);
    try done.
  unfold st. rewrite first_scan_edges.
  intros (l1' & l2' & Hl' & _ & [Hin'|Heq]); [|by symmetry in Heq].
  destruct (NoDup_before_after (scan_order cfg fs root_path) l1' l2' l1 l2
              referrer target); try done.
  by apply scan_order_NoDup.
Qed.

End TopDown.

(** ** Sample runs of the further properties *)

Lemma sample_self_edge : edge sample_state "/repo/src/tool.py" "/repo/src/tool.py".
Proof.
  apply edge_default.
  apply (scan_repository_self_referenced default_config sample_tree "/repo"
           "/repo/src/tool.py" "src/tool.py" "# see 'tool.py'" "tool.py").
  - tracked.
  - by vm_compute.
  - by vm_compute.
  - by vm_compute.
  - apply mem_elem_of. by vm_compute.
  - apply mem_elem_of. by vm_compute.
Qed.

Lemma third_scan_changes_nothing_witness :
  reachable default_config init
  ∧ let st2 := scan_repository default_config forward_tree "/repo"
                 (scan_repository default_config forward_tree "/repo" init) in
    scan_repository default_config forward_tree "/repo" st2 = st2.
Proof.
  assert (reachable default_config init) as Hinit by constructor.
  split; [exact Hinit|].
  exact (third_scan_changes_nothing default_config forward_tree "/repo" init Hinit).
Defined.

Lemma edges_come_from_references_witness :
  edge sample_state "/repo/src/tool.py" "/repo/src/tool.py"
  ∧ ("/repo/src/tool.py" ∈ all_files sample_state)
  ∧ ∃ rel_path content ref,
      os_path.relpath "/" "/repo/src/tool.py" "/repo" = Ok rel_path
      ∧ _is_scannable_file default_config rel_path = true
      ∧ read_text sample_tree "/repo/src/tool.py" = Some content
      ∧ ref ∈ _extract_references default_config "/repo/src/tool.py" content
      ∧ "/repo/src/tool.py" ∈ _resolve_reference sample_tree "/repo" ref "/repo/src/tool.py".
Proof.
  split; [exact sample_self_edge|].
  destruct (edges_come_from_references default_config sample_tree "/repo"
              "/repo/src/tool.py" "/repo/src/tool.py" sample_self_edge)
    as (Hf & _ & Href).
  split; [exact Hf|exact Href].
Defined.

Lemma resolved_candidates_exist_witness :
  "/repo/src/helpers/parse.py"
    ∈ _resolve_reference forward_tree "/repo" "./helpers/parse" "/repo/src/main.py"
  ∧ exists_ forward_tree "/repo/src/helpers/parse.py" = true.
Proof.
  assert ("/repo/src/helpers/parse.py"
            ∈ _resolve_reference forward_tree "/repo" "./helpers/parse" "/repo/src/main.py")
    as Hin by (apply mem_elem_of; by vm_compute).
  split; [exact Hin|].
  exact (resolved_candidates_exist forward_tree "/repo" "./helpers/parse"
           "/repo/src/main.py" "/repo/src/helpers/parse.py" eq_refl eq_refl Hin).
Defined.

Lemma absolute_reference_bypasses_root_witness :
  str.startswith_sep "/repo/src/main.py" = true
  ∧ _resolve_reference forward_tree "/repo" "/repo/src/main.py" "/repo/src/helpers/parse.py"
    = ["/repo/src/main.py"; "/repo/src/main.py"].
Proof.
  split; [reflexivity|].
  rewrite (absolute_reference_bypasses_root forward_tree "/repo" "/repo/src/main.py"
             "/repo/src/helpers/parse.py" eq_refl).
  by vm_compute.
Defined.

Lemma substring_match_ignores_witness :
  ".env" ∈ ignore_patterns default_config
  ∧ _should_ignore_file default_config ("src/" +:+ ".env" +:+ "oy.py") = true.
Proof.
  assert (".env" ∈ ignore_patterns default_config) as Hin
    by (apply mem_elem_of; by vm_compute).
  split; [exact Hin|].
  exact (substring_match_ignores default_config ".env" "src/" "oy.py" Hin).
Defined.

Lemma total_dead_counts_candidates_witness :
  find_dead_files default_config forward_tree forward_state
  = Ok {| unreferenced := [];
          orphaned := ["src/helpers/parse.py"];
          suspicious := ["src/main.py"] |}
  ∧ 2 = length (filter (dead_candidate default_config forward_state)
                  (elements (all_files forward_state))).
Proof.
  assert (find_dead_files default_config forward_tree forward_state
          = Ok {| unreferenced := [];
                  orphaned := ["src/helpers/parse.py"];
                  suspicious := ["src/main.py"] |}) as Hd by (by vm_compute).
  split; [exact Hd|].
  exact (total_dead_counts_candidates default_config forward_tree forward_state _ Hd).
Defined.

Lemma nothing_to_scan_exits_with_one_witness :
  scan_order default_config sample_tree "/nowhere" = []
  ∧ main (λ _, "{}") default_config sample_tree "/nowhere" "text" None = (None, 1%Z)
  ∧ ∀ signal,
      (main (λ _, "{}") default_config sample_tree "/nowhere" "text" signal).1 = None.
Proof.
  assert (scan_order default_config sample_tree "/nowhere" = []) as Hnone
    by (by vm_compute).
  split; [exact Hnone|].
  exact (nothing_to_scan_exits_with_one default_config sample_tree (λ _, "{}")
           "/nowhere" "text" Hnone).
Defined.

Lemma second_scan_reports_no_more_witness :
  let st1 := scan_repository default_config forward_tree "/repo" init in
  let st2 := scan_repository default_config forward_tree "/repo" st1 in
  find_dead_files default_config forward_tree st1
  = Ok {| unreferenced := [];
          orphaned := ["src/helpers/parse.py"];
          suspicious := ["src/main.py"] |}
  ∧ find_dead_files default_config forward_tree st2
    = Ok {| unreferenced := []; orphaned := []; suspicious := ["src/main.py"] |}
  ∧ 1 ≤ 2.
Proof.
  assert (find_dead_files default_config forward_tree
            (scan_repository default_config forward_tree "/repo" init)
          = Ok {| unreferenced := [];
                  orphaned := ["src/helpers/parse.py"];
                  suspicious := ["src/main.py"] |}) as H1 by (by vm_compute).
  assert (find_dead_files default_config forward_tree
            (scan_repository default_config forward_tree "/repo"
               (scan_repository default_config forward_tree "/repo" init))
          = Ok {| unreferenced := []; orphaned := []; suspicious := ["src/main.py"] |})
    as H2 by (by vm_compute).
  split; [exact H1|]. split; [exact H2|].
  exact (second_scan_reports_no_more default_config forward_tree "/repo" _ _ H1 H2).
Defined.

Lemma reported_paths_lead_back_to_files_witness :
  "src/main.py" ∈ [] ++ ["src/helpers/parse.py"] ++ ["src/main.py"]
  ∧ ("/repo/src/main.py" ∈ all_files forward_state)
  ∧ os_path.relpath "/" "/repo/src/main.py" "/repo" = Ok "src/main.py"
  ∧ dead_candidate default_config forward_state "/repo/src/main.py".
Proof.
  assert ("src/main.py" ∈ [] ++ ["src/helpers/parse.py"] ++ ["src/main.py"]) as Hx
    by (apply mem_elem_of; by vm_compute).
  split; [exact Hx|].
  refine (reported_paths_lead_back_to_files default_config forward_tree "/repo"
            {| unreferenced := [];
               orphaned := ["src/helpers/parse.py"];
               suspicious := ["src/main.py"] |} "src/main.py" _ _ _ Hx);
    by vm_compute.
Defined.

Lemma tracked_files_split_into_directory_and_name_witness :
  "/repo/src/util.py" ∈ all_files sample_state
  ∧ ∃ top file,
      walked default_config "/repo" top ∧ valid_name file = true
      ∧ "/repo/src/util.py" = os_path.join top file
      ∧ os_path.dirname "/repo/src/util.py" = top
      ∧ os_path.basename "/repo/src/util.py" = file.
Proof.
  assert ("/repo/src/util.py" ∈ all_files sample_state) as Hf by tracked.
  split; [exact Hf|].
  refine (tracked_files_split_into_directory_and_name default_config sample_tree "/repo"
            "/repo/src/util.py" _ _ Hf); by vm_compute.
Defined.

Lemma root_matching_a_pattern_prunes_every_subdirectory_witness :
  ".env" ∈ ignore_patterns default_config
  ∧ str.contains ".env" "/repo/.env" = true
  ∧ ("/repo/.env/secret.py"
       ∈ all_files (scan_repository default_config sample_tree "/repo/.env" init))
  ∧ ∃ file, valid_name file = true
            ∧ "/repo/.env/secret.py" = os_path.join "/repo/.env" file.
Proof.
  assert (".env" ∈ ignore_patterns default_config) as Hpat
    by (apply mem_elem_of; by vm_compute).
  assert ("/repo/.env/secret.py"
            ∈ all_files (scan_repository default_config sample_tree "/repo/.env" init))
    as Hf by tracked.
  split; [exact Hpat|]. split; [reflexivity|]. split; [exact Hf|].
  refine (root_matching_a_pattern_prunes_every_subdirectory default_config sample_tree
            "/repo/.env" ".env" "/repo/.env/secret.py" _ Hpat _ Hf); by vm_compute.
Defined.

Lemma mutual_references_are_never_both_recorded_witness :
  unique_names (fs_root sample_tree) = true
  ∧ edge sample_state "/repo/src/tool.py" "/repo/src/tool.py"
  ∧ "/repo/src/tool.py" = "/repo/src/tool.py".
Proof.
  assert (unique_names (fs_root sample_tree) = true) as Huniq by (by vm_compute).
  split; [exact Huniq|]. split; [exact sample_self_edge|].
  refine (mutual_references_are_never_both_recorded default_config sample_tree "/repo"
            "/repo/src/tool.py" "/repo/src/tool.py" _ Huniq _
            sample_self_edge sample_self_edge); by vm_compute.
Defined.

Lemma tracked_exactly_when_filters_pass_witness :
  wf_node (fs_root sample_tree) = true
  ∧ is_canonical "/repo" = true
  ∧ ("/repo/src/util.py" ∈ all_files sample_state
     ↔ tracked_by default_config sample_tree "/repo" "/repo/src/util.py").
Proof.
  assert (wf_node (fs_root sample_tree) = true) as Hwf by (by vm_compute).
  split; [exact Hwf|]. split; [reflexivity|].
  exact (tracked_exactly_when_filters_pass default_config sample_tree "/repo"
           "/repo/src/util.py" Hwf eq_refl).
Defined.

Lemma tracked_paths_are_normalised_witness :
  "/repo/src/util.py" ∈ all_files sample_state
  ∧ str.startswith_sep "/repo/src/util.py" = true
  ∧ os_path.normpath "/repo/src/util.py" = "/repo/src/util.py".
Proof.
  assert ("/repo/src/util.py" ∈ all_files sample_state) as Hf by tracked.
  split; [exact Hf|].
  refine (tracked_paths_are_normalised default_config sample_tree "/repo"
            "/repo/src/util.py" _ _ Hf); by vm_compute.
Defined.

Lemma forward_names :
  names_valid ["src"] ∧ valid_name "main.py" = true
  ∧ names_valid ["helpers"; "parse.py"] ∧ ["parse.py"] ≠ [].
Proof. repeat split; try done; by repeat apply Forall_cons_2; try apply Forall_nil_2. Qed.

Lemma references_up_the_tree_are_recorded_witness :
  let root := os_path.abspath (getcwd forward_tree) "/repo" in
  let st := scan_repository default_config forward_tree "/repo" init in
  let top := join_all root ["src"] in
  let target := os_path.join top "main.py" in
  let referrer := join_all top ["helpers"; "parse.py"] in
  target ∈ all_files st
  ∧ (referrer ∈ all_files st)
  ∧ (edge st target referrer ↔ target ∈ outgoing default_config forward_tree root referrer).
Proof.
  intros root st top target referrer.
  assert (target ∈ all_files st) as Ht by tracked.
  assert (referrer ∈ all_files st) as Hr by tracked.
  assert (wf_node (fs_root forward_tree) = true) as Hwf by (by vm_compute).
  assert (unique_names (fs_root forward_tree) = true) as Huniq by (by vm_compute).
  assert (is_canonical root = true) as Hcanon by (by vm_compute).
  destruct forward_names as (Hds & Hfile & Hdcs & Hcs).
  split; [exact Ht|]. split; [exact Hr|].
  exact (references_up_the_tree_are_recorded default_config forward_tree "/repo"
           ["src"] "main.py" "helpers" ["parse.py"]
           Hwf Huniq Hcanon Hds Hfile Hdcs Hcs Ht Hr).
Defined.

Lemma references_down_the_tree_are_dropped_witness :
  let root := os_path.abspath (getcwd forward_tree) "/repo" in
  let st := scan_repository default_config forward_tree "/repo" init in
  let top := join_all root ["src"] in
  let referrer := os_path.join top "main.py" in
  let target := join_all top ["helpers"; "parse.py"] in
  referrer ∈ all_files st
  ∧ (target ∈ all_files st)
  ∧ ¬ edge st target referrer.
Proof.
  intros root st top referrer target.
  assert (referrer ∈ all_files st) as Hr by tracked.
  assert (target ∈ all_files st) as Ht by tracked.
  assert (wf_node (fs_root forward_tree) = true) as Hwf by (by vm_compute).
  assert (unique_names (fs_root forward_tree) = true) as Huniq by (by vm_compute).
  assert (is_canonical root = true) as Hcanon by (by vm_compute).
  destruct forward_names as (Hds & Hfile & Hdcs & Hcs).
  split; [exact Hr|]. split; [exact Ht|].
  exact (references_down_the_tree_are_dropped default_config forward_tree "/repo"
           ["src"] "main.py" "helpers" ["parse.py"]
           Hwf Huniq Hcanon Hds Hfile Hdcs Hcs Hr Ht).
Defined.
